(** * uistate-router: a shallow embedding of the SPA router and its properties

    The development follows [router.js]: the pattern compiler
    ([compilePattern]), path normalisation ([normalizePath]), the base
    path helpers, route resolution ([resolve]) and the navigation engine
    ([navigate], [navigateQuery], [navigatePath], [start], [stop],
    [getCurrent], the click, popstate and store listeners).

    Conventions.
    - A JavaScript string is the list of its UTF-16 code units ([N]), so
      that percent-decoding, which yields units above 255, is expressible.
    - A call that may throw returns an [outcome]; a host function with a
      single error returns an [option].
    - The host's built-ins the router relies on (regular expressions,
      [split], [decodeURIComponent], [URLSearchParams], [Map], assignment
      to a plain object) are modelled after their standards, for the
      inputs the router gives them.
    - An async function runs to its first [await]; what remains is kept
      as a frame and resumed by the event that settles the promise.
    - Debug logging has no effect on the router and is left out.

    The first part holds the definitions, the second the lemmas and the
    theorems about them. *)

From Stdlib Require Import NArith ZArith Ascii String List Bool Lia.
From stdpp Require Import base decidable option list gmap strings.

Set Default Proof Using "Type".
Local Open Scope N_scope.

(** ** JavaScript strings *)

Module JsString.

(** A string value: the list of its UTF-16 code units. *)
Abbreviation jsstring := (list N).

(** The code units of an ASCII literal. *)
Definition js (s : string) : jsstring :=
  map N_of_ascii (list_ascii_of_string s).

Arguments js : simpl never.

Definition SLASH : N := 47.
Definition COLON : N := 58.
Definition PERCENT : N := 37.
Definition QUESTION : N := 63.

(** [s.startsWith(pre)] *)
Fixpoint startsWith (s pre : jsstring) {struct pre} : bool :=
  match pre, s with
  | [], _ => true
  | _ :: _, [] => false
  | a :: pre', b :: s' => (a =? b) && startsWith s' pre'
  end.

(** [s.endsWith(suf)] *)
Definition endsWith (s suf : jsstring) : bool :=
  startsWith (rev s) (rev suf).

(** [s.slice(n)] for [0 <= n]. *)
Definition slice_from (n : nat) (s : jsstring) : jsstring := drop n s.

(** [s.slice(0, -1)] *)
Definition slice_0_m1 (s : jsstring) : jsstring :=
  take (length s - 1)%nat s.

(** [a === b] on strings. *)
Definition str_eqb (a b : jsstring) : bool := bool_decide (a = b).

(** Truthiness of a string: the empty string is falsy. *)
Definition truthy (s : jsstring) : bool :=
  match s with [] => false | _ => true end.

End JsString.
Import JsString.

(** ** Path normalisation *)

(** [normalizePath(p)]: the empty string becomes the root; a leading slash
    is added when missing; exactly ["/index.html"] collapses to the root;
    one trailing slash is removed from a path longer than one unit. *)
Definition normalizePath (p : jsstring) : jsstring :=
  match p with
  | [] => js "/"
  | c :: _ =>
      let p1 := if c =? SLASH then p else SLASH :: p in
      if str_eqb p1 (js "/index.html") then js "/"
      else if (1 <? length p1)%nat && endsWith p1 (js "/")
           then slice_0_m1 p1
           else p1
  end.

(** A caller may pass [null] or [undefined]; both are falsy like [""]. *)
Definition normalizePath_opt (p : option jsstring) : jsstring :=
  normalizePath (default [] p).

(** The path a non-empty input has once its leading slash is in place
    (the value of [p] after the second line of [normalizePath]). *)
Definition with_leading_slash (p : jsstring) : jsstring :=
  match p with
  | [] => []
  | c :: _ => if c =? SLASH then p else SLASH :: p
  end.

(** The inputs on which a second normalisation still changes the path:
    with its leading slash in place the path is ["/index.html/"], or it
    ends in two slashes that follow at least one more unit. *)
Definition renormalizes (p : jsstring) : bool :=
  let p1 := with_leading_slash p in
  str_eqb p1 (js "/index.html/")
  || ((2 <? length p1)%nat && endsWith p1 (js "//")).

(** ** Base path

    [BASE_PATH] is read once from [<base href>] when the router is created;
    it is a constant of the router from then on, [""] when there is no
    such element. *)

Section BasePath.

Variable BASE_PATH : jsstring.

(** [stripBase(pathname)] *)
Definition stripBase (pathname : jsstring) : jsstring :=
  if truthy BASE_PATH && startsWith pathname BASE_PATH then
    let sliced := slice_from (length BASE_PATH) pathname in
    let rest := if truthy sliced then sliced else js "/" in
    if startsWith rest (js "/") then rest else js "/" ++ rest
  else pathname.

(** [withBase(pathname)] *)
Definition withBase (pathname : jsstring) : jsstring :=
  if negb (truthy BASE_PATH) then pathname
  else if str_eqb pathname (js "/")
       then (if truthy BASE_PATH then BASE_PATH else js "/")
       else BASE_PATH
            ++ (if startsWith pathname (js "/") then [] else js "/")
            ++ pathname.

End BasePath.

(** ** Pattern compiler *)

Module Pattern.

Definition BACKSLASH : N := 92.
Definition CARET : N := 94.
Definition DOLLAR : N := 36.

Definition in_range (lo hi c : N) : bool := (lo <=? c) && (c <=? hi).

(** [[a-zA-Z_]] *)
Definition is_ident_start (c : N) : bool :=
  in_range 97 122 c || in_range 65 90 c || (c =? 95).

(** [[a-zA-Z0-9_]] *)
Definition is_ident_char (c : N) : bool :=
  in_range 97 122 c || in_range 65 90 c || in_range 48 57 c || (c =? 95).

(** The longest prefix of identifier characters. *)
Fixpoint ident_run (s : jsstring) : jsstring :=
  match s with
  | c :: s' => if is_ident_char c then c :: ident_run s' else []
  | [] => []
  end.

(** The splitting expression (a colon, then an identifier in a capture
    group) tried at the head of [s]: the captured name when it matches
    there. The repetition is greedy and nothing follows it, so the capture
    is the whole identifier run. *)
Definition token_at (s : jsstring) : option jsstring :=
  match s with
  | c :: ((d :: _) as s') =>
      if (c =? COLON) && is_ident_start d then Some (ident_run s') else None
  | _ => None
  end.

(** [pattern.split] on that expression: the text is scanned from
    the left; where the expression matches, the piece read so far and the
    captured name are emitted and scanning resumes after the match.
    [skip] counts the units of the current match still to pass over. *)
Fixpoint split_go (skip : nat) (piece s : jsstring) : list jsstring :=
  match s with
  | [] => [piece]
  | c :: s' =>
      match skip with
      | S k => split_go k piece s'
      | O =>
          match token_at s with
          | Some name => piece :: name :: split_go (length name) [] s'
          | None => split_go O (piece ++ [c]) s'
          end
      end
  end.

Definition split_params (pattern : jsstring) : list jsstring :=
  split_go 0 [] pattern.

(** The character class of the escaping [replace]: the fourteen syntax
    characters of the pattern language. *)
Definition is_regex_special (c : N) : bool :=
  bool_decide (c ∈ js ".*+?^${}()|[]\").

(** [part.replace(class, backslash + match)], with the global flag. *)
Definition escapeRegex (part : jsstring) : jsstring :=
  flat_map (fun c => if is_regex_special c then [BACKSLASH; c] else [c]) part.

Definition SEGMENT_GROUP : jsstring := js "([^/]+)".

(** The callback of [parts.map((part, i) => ...)], run over the parts from
    index [i] on; the second component is [paramNames] after the pushes. *)
Fixpoint map_parts (i : nat) (parts : list jsstring) (paramNames : list jsstring)
  : list jsstring * list jsstring :=
  match parts with
  | [] => ([], paramNames)
  | part :: rest =>
      if (i mod 2 =? 1)%nat then
        let '(out, names) := map_parts (S i) rest (paramNames ++ [part]) in
        (SEGMENT_GROUP :: out, names)
      else
        let '(out, names) := map_parts (S i) rest paramNames in
        (escapeRegex part :: out, names)
  end.

(** The value [compilePattern] returns. [regex] holds the source text
    handed to [new RegExp]. *)
Record compiled := Compiled {
  regex : jsstring;
  paramNames : list jsstring
}.

Definition compilePattern (pattern : jsstring) : compiled :=
  let '(strs, names) := map_parts 0 (split_params pattern) [] in
  let regexStr := concat strs in
  {| regex := js "^" ++ regexStr ++ js "$"; paramNames := names |}.

(** *** The regular expressions the compiler emits

    [new RegExp(source)] is modelled for the part of the pattern syntax
    that occurs in compiled sources: the two anchors, a syntax character
    escaped by a backslash, the group [([^/]+)] and plain characters. *)
Inductive rnode :=
| RStart                (* ^ *)
| REnd                  (* $ *)
| RChar (c : N)         (* a character matched literally *)
| RSegment.             (* the capture group ([^/]+) *)

(** Pattern parsing; [None] for a source outside the modelled syntax.
    [skip] counts units already consumed by the previous node. *)
Fixpoint parse_go (skip : nat) (s : jsstring) : option (list rnode) :=
  match s with
  | [] => Some []
  | c :: s' =>
      match skip with
      | S k => parse_go k s'
      | O =>
          if c =? CARET then cons RStart <$> parse_go 0 s'
          else if c =? DOLLAR then cons REnd <$> parse_go 0 s'
          else if c =? BACKSLASH then
            match s' with
            | d :: _ =>
                if is_regex_special d then cons (RChar d) <$> parse_go 1 s'
                else None
            | [] => None
            end
          else if startsWith s SEGMENT_GROUP then
            cons RSegment <$> parse_go 6 s'
          else if is_regex_special c then None
          else cons (RChar c) <$> parse_go 0 s'
      end
  end.

Definition parse_regex (source : jsstring) : option (list rnode) :=
  parse_go 0 source.

(** Number of capture groups of a parsed pattern. *)
Fixpoint group_count (prog : list rnode) : nat :=
  match prog with
  | [] => 0
  | RSegment :: rest => S (group_count rest)
  | _ :: rest => group_count rest
  end.

(** The longest prefix without a slash. *)
Fixpoint non_slash_run (s : jsstring) : jsstring :=
  match s with
  | c :: s' => if c =? SLASH then [] else c :: non_slash_run s'
  | [] => []
  end.

(** The greedy repetition of the group followed by the rest of the
    pattern [k]: the group takes [n] units, then [n - 1], ... down to one,
    until the rest matches what is left. *)
Definition try_lengths (k : jsstring -> option (list jsstring)) (s : jsstring)
  : nat -> option (list jsstring) :=
  fix try (n : nat) : option (list jsstring) :=
    match n with
    | O => None
    | S m =>
        match k (drop (S m) s) with
        | Some caps => Some (take (S m) s :: caps)
        | None => try m
        end
    end.

(** Backtracking matcher: [rmatch prog at_start s] matches [prog] against
    a prefix of [s], where [at_start] says that [s] is the whole input;
    it yields the captures, leftmost first. The group is greedy: the
    longest run of non-slash units is tried first, then shorter ones. *)
Fixpoint rmatch (prog : list rnode) (at_start : bool) (s : jsstring)
  : option (list jsstring) :=
  match prog with
  | [] => Some []
  | RStart :: rest => if at_start then rmatch rest at_start s else None
  | REnd :: rest =>
      match s with [] => rmatch rest at_start s | _ :: _ => None end
  | RChar c :: rest =>
      match s with
      | d :: s' => if c =? d then rmatch rest false s' else None
      | [] => None
      end
  | RSegment :: rest =>
      try_lengths (rmatch rest false) s (length (non_slash_run s))
  end.

(** [RegExp.prototype.exec] without the global and sticky flags: the
    pattern is tried at index 0, then 1, ... up to the length. *)
Fixpoint exec_from (prog : list rnode) (at_start : bool) (s : jsstring)
  : option (list jsstring) :=
  match rmatch prog at_start s with
  | Some caps => Some caps
  | None =>
      match s with
      | [] => None
      | _ :: s' => exec_from prog false s'
      end
  end.

(** [s.match(regex)]: the list [match[1], match[2], ...] of captures, or
    [None] for [null]. *)
Definition str_match (s : jsstring) (regex : jsstring)
  : option (list jsstring) :=
  prog ← parse_regex regex; exec_from prog true s.

(** [regex.test(s)] *)
Definition regex_test (regex : jsstring) (s : jsstring) : bool :=
  bool_decide (is_Some (str_match s regex)).

(** *** Templates, as the specification describes them

    A template is a first literal followed by tokens, each a colon and an
    identifier, each followed by a literal. No literal contains a token,
    and the literal after a name does not continue the identifier. *)

Fixpoint has_token (s : jsstring) : bool :=
  match s with
  | c :: s' =>
      match s' with
      | d :: _ => ((c =? COLON) && is_ident_start d) || has_token s'
      | [] => false
      end
  | [] => false
  end.

Definition is_identifier (name : jsstring) : bool :=
  match name with
  | c :: rest => is_ident_start c && forallb is_ident_char rest
  | [] => false
  end.

Definition ends_identifier (lit : jsstring) : bool :=
  match lit with
  | c :: _ => negb (is_ident_char c)
  | [] => true
  end.

Definition wf_segment (seg : jsstring * jsstring) : bool :=
  is_identifier seg.1 && negb (has_token seg.2) && ends_identifier seg.2.

Definition wf_template (lit0 : jsstring) (segs : list (jsstring * jsstring))
  : bool :=
  negb (has_token lit0) && forallb wf_segment segs.

(** The template text of a decomposition. *)
Definition template_text (lit0 : jsstring) (segs : list (jsstring * jsstring))
  : jsstring :=
  lit0 ++ flat_map (fun seg => COLON :: seg.1 ++ seg.2) segs.

(** A path segment captured by a dynamic part: one or more units, none a
    slash. *)
Definition is_segment (cap : jsstring) : bool :=
  truthy cap && forallb (fun c => negb (c =? SLASH)) cap.

(** The paths of a template: the literals with one segment between each
    two. *)
Fixpoint fill (lit0 : jsstring) (lits : list jsstring) (caps : list jsstring)
  : jsstring :=
  match lits, caps with
  | l :: lits', cap :: caps' => lit0 ++ cap ++ fill l lits' caps'
  | _, _ => lit0
  end.

(** The parsed pattern of a template. *)
Definition template_prog (lit0 : jsstring) (segs : list (jsstring * jsstring))
  : list rnode :=
  RStart :: map RChar lit0
    ++ flat_map (fun seg => RSegment :: map RChar seg.2) segs ++ [REnd].

(** The pattern after the start anchor. *)
Definition template_body (lit0 : jsstring) (segs : list (jsstring * jsstring))
  : list rnode :=
  map RChar lit0 ++ flat_map (fun seg => RSegment :: map RChar seg.2) segs
    ++ [REnd].

(** What may follow a literal: the end of the template or a token. *)
Definition literal_end (rest : jsstring) : Prop :=
  rest = [] \/ exists r, rest = COLON :: r.

End Pattern.
Import Pattern.

(** ** Outcomes of a call *)

(** The exceptions the router's code can raise. *)
Inductive js_error :=
| URIError            (* decodeURIComponent on a malformed escape *)
| TypeError           (* the URL constructor on an invalid URL *)
| RootNotFound        (* the Error thrown by getRoot *)
| CollaboratorError   (* whatever a view handler throws *)
| SecurityError.      (* a history call with a cross-origin URL *)

(** A call returns a value or throws. *)
Inductive outcome (A : Type) :=
| Returned (a : A)
| Threw (e : js_error).
Arguments Returned {A} a.
Arguments Threw {A} e.

(** ** Percent-decoding

    [decodeURIComponent] is the host's; it is modelled after the Decode
    operation of ECMA-262 with an empty set of preserved escapes. [None]
    stands for the URIError it throws. *)

Module Decode.

Definition hex_digit (c : N) : option N :=
  if in_range 48 57 c then Some (c - 48)
  else if in_range 65 70 c then Some (c - 55)
  else if in_range 97 102 c then Some (c - 87)
  else None.

(** ParseHexOctet on the two units after a percent sign. *)
Definition parse_hex_octet (h l : N) : option N :=
  a ← hex_digit h; b ← hex_digit l; Some (16 * a + b).

(** A [%XX] escape at the head of [s]: its octet and what follows. *)
Definition read_escape (s : jsstring) : option (N * jsstring) :=
  match s with
  | p :: h :: l :: rest =>
      if p =? PERCENT then b ← parse_hex_octet h l; Some (b, rest) else None
  | _ => None
  end.

(** The [n] continuation escapes that must follow a leading octet. *)
Fixpoint read_continuations (n : nat) (s : jsstring) : option (list N) :=
  match n with
  | O => Some []
  | S n' =>
      '(b, rest) ← read_escape s;
      bs ← read_continuations n' rest;
      Some (b :: bs)
  end.

(** Number of leading 1 bits of an octet. *)
Definition leading_ones (b : N) : nat :=
  if b <? 0x80 then 0
  else if b <? 0xC0 then 1
  else if b <? 0xE0 then 2
  else if b <? 0xF0 then 3
  else if b <? 0xF8 then 4
  else 5.

(** The code point of a well-formed multi-octet UTF-8 sequence (Unicode,
    table 3-7): no overlong form, no surrogate, nothing above U+10FFFF. *)
Definition utf8_code_point (octets : list N) : option N :=
  match octets with
  | [b0; b1] =>
      if in_range 0xC2 0xDF b0 && in_range 0x80 0xBF b1
      then Some ((b0 - 0xC0) * 0x40 + (b1 - 0x80)) else None
  | [b0; b1; b2] =>
      let lo := if b0 =? 0xE0 then 0xA0 else 0x80 in
      let hi := if b0 =? 0xED then 0x9F else 0xBF in
      if in_range 0xE0 0xEF b0 && in_range lo hi b1 && in_range 0x80 0xBF b2
      then Some ((b0 - 0xE0) * 0x1000 + (b1 - 0x80) * 0x40 + (b2 - 0x80))
      else None
  | [b0; b1; b2; b3] =>
      let lo := if b0 =? 0xF0 then 0x90 else 0x80 in
      let hi := if b0 =? 0xF4 then 0x8F else 0xBF in
      if in_range 0xF0 0xF4 b0 && in_range lo hi b1
         && in_range 0x80 0xBF b2 && in_range 0x80 0xBF b3
      then Some ((b0 - 0xF0) * 0x40000 + (b1 - 0x80) * 0x1000
                 + (b2 - 0x80) * 0x40 + (b3 - 0x80))
      else None
  | _ => None
  end.

(** UTF16EncodeCodePoint *)
Definition utf16_encode (cp : N) : jsstring :=
  if cp <? 0x10000 then [cp]
  else [0xD800 + (cp - 0x10000) / 0x400; 0xDC00 + (cp - 0x10000) mod 0x400].

(** The Decode loop. [skip] counts units of the escape sequence just
    decoded that are still to be passed over. *)
Fixpoint decode_go (skip : nat) (s : jsstring) : option jsstring :=
  match s with
  | [] => Some []
  | c :: s' =>
      match skip with
      | S k => decode_go k s'
      | O =>
          if c =? PERCENT then
            match s' with
            | h :: l :: rest =>
                b ← parse_hex_octet h l;
                match leading_ones b with
                | O => cons b <$> decode_go 2 s'
                | S O => None
                | S (S m) as n =>
                    if (4 <? n)%nat then None
                    else
                      conts ← read_continuations (S m) rest;
                      v ← utf8_code_point (b :: conts);
                      app (utf16_encode v) <$> decode_go (2 + 3 * S m) s'
                end
            | _ => None
            end
          else cons c <$> decode_go 0 s'
      end
  end.

Definition decodeURIComponent (s : jsstring) : option jsstring :=
  decode_go 0 s.

End Decode.
Import Decode.

(** ** Route resolution *)

(** A view handler ([route.component]). [boot] tells whether
    [component.boot] is a function; a boot function either starts its
    work and returns a promise, or throws before returning one. *)
Inductive boot_kind := BootAsync | BootThrows.

Record component := Component {
  comp_id : nat;
  comp_boot : option boot_kind
}.

(** An entry of [config.routes]. *)
Record route := Route {
  r_path : jsstring;
  r_view : jsstring;
  r_component : option component
}.

(** [config.fallback]; its path may be absent. *)
Record fallback_route := Fallback {
  fb_path : option jsstring;
  fb_view : jsstring;
  fb_component : option component
}.

(** The object [resolve] returns. *)
Record resolved := Resolved {
  rs_path : option jsstring;
  rs_view : jsstring;
  rs_component : option component;
  rs_params : gmap jsstring jsstring
}.

(** An element of [compiled]: the route spread together with its pattern. *)
Record compiled_route := CompiledRoute {
  cr_route : route;
  cr_pattern : compiled
}.

Definition compile_route (r : route) : compiled_route :=
  {| cr_route := r; cr_pattern := compilePattern (r_path r) |}.

(** [obj[name] = value] on a plain object, for a string value. The name
    [__proto__] designates the accessor inherited from [Object.prototype];
    its setter ignores a value that is neither an object nor [null], so
    no property is created. Every other name becomes, or updates, an own
    property. *)
Definition obj_set (name value : jsstring) (obj : gmap jsstring jsstring)
  : gmap jsstring jsstring :=
  if str_eqb name (js "__proto__") then obj else <[name := value]> obj.

(** [route.paramNames.forEach((name, i) => params[name] =
    decodeURIComponent(match[i + 1]))] from index [i] on. A missing
    capture reads as [undefined], which the decoder turns into the text
    "undefined". *)
Fixpoint assign_params (i : nat) (names : list jsstring) (caps : list jsstring)
    (params : gmap jsstring jsstring) : option (gmap jsstring jsstring) :=
  match names with
  | [] => Some params
  | name :: names' =>
      v ← decodeURIComponent (default (js "undefined") (caps !! i));
      assign_params (S i) names' caps (obj_set name v params)
  end.

(** [p.match(route.regex)] for the pattern compiled from a route. *)
Definition route_match (r : route) (p : jsstring) : option (list jsstring) :=
  str_match p (regex (compilePattern (r_path r))).

(** The parameter object after assigning each name its value in order: a
    later assignment to the same name replaces the earlier one. *)
Definition params_of (names vals : list jsstring)
    (params : gmap jsstring jsstring) : gmap jsstring jsstring :=
  foldl (fun m nv => obj_set nv.1 nv.2 m) params (zip names vals).

(** The routes of the self-test. *)
Definition test_routes : list route :=
  [ Route (js "/") (js "home") None;
    Route (js "/users") (js "users") None;
    Route (js "/users/:id") (js "user") None;
    Route (js "/users/:id/posts/:postId") (js "post") None ].

Definition test_fallback : fallback_route :=
  Fallback None (js "404") None.

Section Resolve.

Variable routes : list route.
Variable fallback : option fallback_route.

(** [const compiled = routes.map(...)] *)
Definition compiled_routes : list compiled_route := map compile_route routes.

(** [{ ...compiledFallback, params: {} }] *)
Definition fallback_result (fb : fallback_route) : resolved :=
  {| rs_path := fb_path fb; rs_view := fb_view fb;
     rs_component := fb_component fb; rs_params := ∅ |}.

(** The loop of [resolve] over the compiled routes. *)
Fixpoint resolve_loop (compiled : list compiled_route) (p : jsstring)
  : outcome (option resolved) :=
  match compiled with
  | [] =>
      match fallback with
      | Some fb => Returned (Some (fallback_result fb))
      | None => Returned None
      end
  | cr :: rest =>
      match str_match p (regex (cr_pattern cr)) with
      | Some caps =>
          match assign_params 0 (paramNames (cr_pattern cr)) caps ∅ with
          | Some params =>
              Returned (Some {| rs_path := Some (r_path (cr_route cr));
                                rs_view := r_view (cr_route cr);
                                rs_component := r_component (cr_route cr);
                                rs_params := params |})
          | None => Threw URIError
          end
      | None => resolve_loop rest p
      end
  end.

(** [resolve(pathname)] *)
Definition resolve (pathname : jsstring) : outcome (option resolved) :=
  let p := normalizePath pathname in
  resolve_loop compiled_routes p.

End Resolve.

(** ** Query strings

    [URLSearchParams] is the host's; it is modelled after the WHATWG URL
    standard: the [application/x-www-form-urlencoded] parser and
    serialiser over UTF-8, and the list operations [delete], [set] and
    [getAll]. *)

Module Query.

Definition AMPERSAND : N := 38.
Definition EQUALS : N := 61.
Definition PLUS : N := 43.
Definition SPACE : N := 32.
Definition REPLACEMENT : N := 0xFFFD.

(** The scalar values of a string (conversion to a USVString): a
    surrogate pair is one code point, a lone surrogate is U+FFFD. *)
Fixpoint code_points (s : jsstring) : list N :=
  match s with
  | [] => []
  | c :: s' =>
      if in_range 0xD800 0xDBFF c then
        match s' with
        | d :: s'' =>
            if in_range 0xDC00 0xDFFF d
            then (0x10000 + (c - 0xD800) * 0x400 + (d - 0xDC00))
                   :: code_points s''
            else REPLACEMENT :: code_points s'
        | [] => [REPLACEMENT]
        end
      else if in_range 0xDC00 0xDFFF c then REPLACEMENT :: code_points s'
      else c :: code_points s'
  end.

Definition of_code_points (cps : list N) : jsstring :=
  flat_map utf16_encode cps.

(** Conversion of an argument to a USVString. *)
Definition to_usv (s : jsstring) : jsstring := of_code_points (code_points s).

Definition utf8_encode_cp (cp : N) : list N :=
  if cp <? 0x80 then [cp]
  else if cp <? 0x800 then [0xC0 + cp / 0x40; 0x80 + cp mod 0x40]
  else if cp <? 0x10000 then
    [0xE0 + cp / 0x1000; 0x80 + (cp / 0x40) mod 0x40; 0x80 + cp mod 0x40]
  else
    [0xF0 + cp / 0x40000; 0x80 + (cp / 0x1000) mod 0x40;
     0x80 + (cp / 0x40) mod 0x40; 0x80 + cp mod 0x40].

(** UTF-8 encode *)
Definition utf8_encode (s : jsstring) : list N :=
  flat_map utf8_encode_cp (code_points s).

(** What the UTF-8 decoder does with an octet when no sequence is open. *)
Inductive lead :=
| LeadEmit (cp : N)
| LeadNeed (cp : N) (needed : nat) (lower upper : N)
| LeadError.

Definition utf8_lead (b : N) : lead :=
  if b <=? 0x7F then LeadEmit b
  else if in_range 0xC2 0xDF b then LeadNeed (b - 0xC0) 1 0x80 0xBF
  else if in_range 0xE0 0xEF b then
    LeadNeed (b - 0xE0) 2 (if b =? 0xE0 then 0xA0 else 0x80)
             (if b =? 0xED then 0x9F else 0xBF)
  else if in_range 0xF0 0xF4 b then
    LeadNeed (b - 0xF0) 3 (if b =? 0xF0 then 0x90 else 0x80)
             (if b =? 0xF4 then 0x8F else 0xBF)
  else LeadError.

(** UTF-8 decode without BOM, with replacement: [open] is the sequence
    in progress (code point so far, octets still needed, bounds of the
    next octet). An octet out of bounds ends the sequence with U+FFFD and
    is read again as a leading octet. *)
Fixpoint utf8_decode_go (open : option (N * nat * N * N)) (bytes : list N)
  : list N :=
  match bytes with
  | [] => match open with Some _ => [REPLACEMENT] | None => [] end
  | b :: rest =>
      let fresh :=
        match utf8_lead b with
        | LeadEmit cp => cp :: utf8_decode_go None rest
        | LeadNeed cp n lo hi => utf8_decode_go (Some (cp, n, lo, hi)) rest
        | LeadError => REPLACEMENT :: utf8_decode_go None rest
        end in
      match open with
      | None => fresh
      | Some (cp, needed, lo, hi) =>
          if in_range lo hi b then
            let cp' := cp * 0x40 + (b - 0x80) in
            match needed with
            | S (S n) => utf8_decode_go (Some (cp', S n, 0x80, 0xBF)) rest
            | _ => cp' :: utf8_decode_go None rest
            end
          else REPLACEMENT :: fresh
      end
  end.

Definition utf8_decode (bytes : list N) : jsstring :=
  of_code_points (utf8_decode_go None bytes).

(** Percent-decode of a byte sequence: an escape that is not two hex
    digits is kept as it stands. *)
Fixpoint percent_decode_go (skip : nat) (bytes : list N) : list N :=
  match bytes with
  | [] => []
  | b :: rest =>
      match skip with
      | S k => percent_decode_go k rest
      | O =>
          if b =? PERCENT then
            match rest with
            | h :: l :: _ =>
                match parse_hex_octet h l with
                | Some v => v :: percent_decode_go 2 rest
                | None => b :: percent_decode_go 0 rest
                end
            | _ => b :: percent_decode_go 0 rest
            end
          else b :: percent_decode_go 0 rest
      end
  end.

Definition percent_decode (bytes : list N) : list N :=
  percent_decode_go 0 bytes.

(** Strict split of a sequence on a separator. *)
Fixpoint split_on (sep : N) (piece : list N) (s : list N) : list (list N) :=
  match s with
  | [] => [piece]
  | c :: s' =>
      if c =? sep then piece :: split_on sep [] s'
      else split_on sep (piece ++ [c]) s'
  end.

(** Name and value of one sequence: split at the first [=]. *)
Fixpoint split_pair (name : list N) (s : list N) : list N * list N :=
  match s with
  | [] => (name, [])
  | c :: s' => if c =? EQUALS then (name, s') else split_pair (name ++ [c]) s'
  end.

Definition plus_to_space (bytes : list N) : list N :=
  map (fun b => if b =? PLUS then SPACE else b) bytes.

Definition decode_component (bytes : list N) : jsstring :=
  utf8_decode (percent_decode (plus_to_space bytes)).

(** The urlencoded parser, on the UTF-8 encoding of the input. *)
Definition urlencoded_parse (input : jsstring) : list (jsstring * jsstring) :=
  flat_map
    (fun bytes =>
       match bytes with
       | [] => []
       | _ => let '(n, v) := split_pair [] bytes in
              [(decode_component n, decode_component v)]
       end)
    (split_on AMPERSAND [] (utf8_encode input)).

Definition hex_upper (d : N) : N := if d <? 10 then 48 + d else 55 + d.

(** The urlencoded byte serialiser. *)
Definition serialize_byte (b : N) : jsstring :=
  if b =? SPACE then [PLUS]
  else if (b =? 0x2A) || (b =? 0x2D) || (b =? 0x2E) || (b =? 0x5F)
          || in_range 0x30 0x39 b || in_range 0x41 0x5A b
          || in_range 0x61 0x7A b
  then [b]
  else [PERCENT; hex_upper (b / 16); hex_upper (b mod 16)].

Definition serialize_component (s : jsstring) : jsstring :=
  flat_map serialize_byte (utf8_encode s).

(** [a.join(sep)] *)
Fixpoint join (sep : jsstring) (parts : list jsstring) : jsstring :=
  match parts with
  | [] => []
  | [p] => p
  | p :: rest => p ++ sep ++ join sep rest
  end.

(** The urlencoded serialiser. *)
Definition urlencoded_serialize (l : list (jsstring * jsstring)) : jsstring :=
  join [AMPERSAND]
    (map (fun nv => serialize_component nv.1 ++ [EQUALS]
                    ++ serialize_component nv.2) l).

(** [new URLSearchParams(init)] for a string: one leading question mark
    is dropped, the rest is parsed. *)
Definition usp_new (init : jsstring) : list (jsstring * jsstring) :=
  urlencoded_parse
    (match init with
     | c :: rest => if c =? QUESTION then rest else init
     | [] => init
     end).

(** [params.delete(name)]: every pair of that name goes. *)
Definition usp_delete (name : jsstring) (l : list (jsstring * jsstring))
  : list (jsstring * jsstring) :=
  List.filter (fun nv => negb (str_eqb nv.1 (to_usv name))) l.

(** [params.set(name, value)]: the first pair of that name takes the
    value and the others go; without such a pair one is appended. *)
Fixpoint usp_set_go (name value : jsstring) (l : list (jsstring * jsstring))
  : list (jsstring * jsstring) :=
  match l with
  | [] => [(name, value)]
  | nv :: rest =>
      if str_eqb nv.1 name
      then (name, value) :: List.filter (fun nv' => negb (str_eqb nv'.1 name)) rest
      else nv :: usp_set_go name value rest
  end.

Definition usp_set (name value : jsstring) (l : list (jsstring * jsstring))
  : list (jsstring * jsstring) :=
  usp_set_go (to_usv name) (to_usv value) l.

(** [params.getAll(name)] *)
Definition usp_getAll (name : jsstring) (l : list (jsstring * jsstring))
  : list jsstring :=
  map snd (List.filter (fun nv => str_eqb nv.1 (to_usv name)) l).

(** [params.toString()] *)
Definition usp_toString (l : list (jsstring * jsstring)) : jsstring :=
  urlencoded_serialize l.

(** A value of a query patch. Anything that is not [null], [undefined] or
    a string is represented by the text [String(v)] gives it. *)
Inductive patch_value :=
| PNull
| PUndefined
| PString (s : jsstring)
| POther (text : jsstring).

(** [v === null || v === undefined || v === ''] *)
Definition patch_removes (v : patch_value) : bool :=
  match v with
  | PNull | PUndefined => true
  | PString s => negb (truthy s)
  | POther _ => false
  end.

(** [String(v)] *)
Definition String_of (v : patch_value) : jsstring :=
  match v with
  | PNull => js "null"
  | PUndefined => js "undefined"
  | PString s => s
  | POther text => text
  end.

(** The body of the loop over [Object.entries(patch)]. *)
Definition apply_patch_entry (params : list (jsstring * jsstring))
    (kv : jsstring * patch_value) : list (jsstring * jsstring) :=
  if patch_removes kv.2 then usp_delete kv.1 params
  else usp_set kv.1 (String_of kv.2) params.

Definition apply_patch (patch : list (jsstring * patch_value))
    (params : list (jsstring * jsstring)) : list (jsstring * jsstring) :=
  foldl apply_patch_entry params patch.

(** [search.replace(/^\?/, '')] *)
Definition strip_question (search : jsstring) : jsstring :=
  match search with
  | c :: rest => if c =? QUESTION then rest else search
  | [] => []
  end.

(** The two lines of [navigateQuery] that compute the new search string
    from [current.search] and the patch. *)
Definition patched_search (search : jsstring)
    (patch : list (jsstring * patch_value)) : jsstring :=
  let params := usp_new (strip_question search) in
  let searchStr := usp_toString (apply_patch patch params) in
  if truthy searchStr then QUESTION :: searchStr else [].

End Query.
Import Query.

(** ** Navigation engine

    The router's variables, the host state it reads and writes, and the
    navigations suspended at an [await] form one [world]. A call of
    [navigate] runs to its first suspension point; the continuation is
    kept as a [frame] and resumed when the promise it awaits settles.

    View handlers, the store and the document are collaborators. Their
    calls are recorded; they are assumed not to call back into the router
    before they return, and the page is assumed to be served from an
    origin on which the URL constructor accepts every path and query. *)

Module Engine.

(** An unmount function returned by a view's boot. [h_throws]: calling it
    throws at once instead of returning. *)
Record handle := Handle { h_id : nat; h_throws : bool }.

(** The object held by [current]. [unboot] is [Some] when
    [typeof current.unboot === 'function']. *)
Record nav_state := NavState {
  viewKey : option jsstring;
  unboot : option handle;
  path : option jsstring;
  search : jsstring
}.

(** The options of [navigate], after defaults. *)
Record nav_opts := NavOpts {
  opt_replace : bool;
  opt_search : jsstring;
  opt_restoreScroll : bool
}.

Definition default_opts : nav_opts := NavOpts false [] false.

(** Where a navigation is suspended. *)
Inductive stage :=
| AwaitUnboot   (* await current.unboot() *)
| AwaitBoot.    (* await component.boot(...) *)

(** The local variables of a suspended navigation. [f_signal] is the
    index of the controller it created. *)
Record frame := Frame {
  f_signal : nat;
  f_stage : stage;
  f_appPath : jsstring;
  f_searchStr : jsstring;
  f_resolved : resolved;
  f_replace : bool;
  f_restoreScroll : bool
}.

(** A request written to [ui.route.go]. *)
Record go_object := GoFields {
  go_path : option jsstring;
  go_search : option jsstring;
  go_replace : option bool;
  go_query : option (list (jsstring * patch_value))
}.

Inductive go_value :=
| GoString (s : jsstring)
| GoObject (o : go_object).

(** Values the router writes to the store. *)
Inductive store_value :=
| SNull
| SBool (b : bool)
| SString (s : jsstring)
| SObject (m : gmap jsstring jsstring)
| SRequest (g : go_value).

(** Calls to collaborators and to the document. *)
Inductive call :=
| CallUnboot (h : handle)
| CallBoot (c : component) (params : gmap jsstring jsstring) (signal : nat)
| ClearRoot
| FocusRoot
| ScrollTo (x y : Z)
| SetNavLinks (flags : list (bool * bool)).

(** How an awaited promise settles; a fulfilled boot carries the unmount
    function it returned, if it returned a function. *)
Inductive settlement :=
| Fulfilled (v : option handle)
| Rejected.

(** How far a call of an async function got before it handed control
    back. *)
Inductive status :=
| Completed (o : outcome unit)
| Suspended.

(** The state of the router and of its host. *)
Record world := World {
  (* the variable [current] *)
  current : nav_state;
  (* the variable [navController]: the index of the latest controller *)
  navController : option nat;
  (* the Map [scrollPositions], in insertion order *)
  scrollPositions : list (jsstring * (Z * Z));
  (* [unsubGo] is set: the subscription to [ui.route.go] is live *)
  go_subscribed : bool;
  (* [signal.aborted] of every AbortController created so far *)
  signals : list bool;
  (* the navigations suspended at an [await] *)
  pending : list frame;
  (* the contents of the store *)
  store : gmap string store_value;
  (* the store's methods currently throw *)
  store_throws : bool;
  (* calls to [replaceState] (true) and [pushState] (false), latest first,
     whether they returned or threw *)
  history : list (bool * jsstring);
  (* attributes of the document element *)
  html_attrs : gmap string jsstring;
  (* [rootSelector] selects an element *)
  root_present : bool;
  (* the root element has a [tabindex] attribute *)
  root_tabindex : bool;
  (* [scrollX] and [scrollY] *)
  scroll : Z * Z;
  (* [location.pathname] and [location.search] *)
  location : jsstring * jsstring;
  (* the click and popstate listeners are attached *)
  listening : bool;
  (* calls made to view handlers and to the document, latest first *)
  calls : list call
}.

Definition set_current (x : nav_state) (w : world) : world :=
  {| current := x; navController := navController w;
     scrollPositions := scrollPositions w; go_subscribed := go_subscribed w;
     signals := signals w; pending := pending w; store := store w;
     store_throws := store_throws w; history := history w;
     html_attrs := html_attrs w; root_present := root_present w;
     root_tabindex := root_tabindex w; scroll := scroll w;
     location := location w; listening := listening w; calls := calls w |}.

Definition set_navController (x : option nat) (w : world) : world :=
  {| current := current w; navController := x;
     scrollPositions := scrollPositions w; go_subscribed := go_subscribed w;
     signals := signals w; pending := pending w; store := store w;
     store_throws := store_throws w; history := history w;
     html_attrs := html_attrs w; root_present := root_present w;
     root_tabindex := root_tabindex w; scroll := scroll w;
     location := location w; listening := listening w; calls := calls w |}.

Definition set_scrollPositions (x : list (jsstring * (Z * Z))) (w : world) : world :=
  {| current := current w; navController := navController w;
     scrollPositions := x; go_subscribed := go_subscribed w;
     signals := signals w; pending := pending w; store := store w;
     store_throws := store_throws w; history := history w;
     html_attrs := html_attrs w; root_present := root_present w;
     root_tabindex := root_tabindex w; scroll := scroll w;
     location := location w; listening := listening w; calls := calls w |}.

Definition set_go_subscribed (x : bool) (w : world) : world :=
  {| current := current w; navController := navController w;
     scrollPositions := scrollPositions w; go_subscribed := x;
     signals := signals w; pending := pending w; store := store w;
     store_throws := store_throws w; history := history w;
     html_attrs := html_attrs w; root_present := root_present w;
     root_tabindex := root_tabindex w; scroll := scroll w;
     location := location w; listening := listening w; calls := calls w |}.

Definition set_signals (x : list bool) (w : world) : world :=
  {| current := current w; navController := navController w;
     scrollPositions := scrollPositions w; go_subscribed := go_subscribed w;
     signals := x; pending := pending w; store := store w;
     store_throws := store_throws w; history := history w;
     html_attrs := html_attrs w; root_present := root_present w;
     root_tabindex := root_tabindex w; scroll := scroll w;
     location := location w; listening := listening w; calls := calls w |}.

Definition set_pending (x : list frame) (w : world) : world :=
  {| current := current w; navController := navController w;
     scrollPositions := scrollPositions w; go_subscribed := go_subscribed w;
     signals := signals w; pending := x; store := store w;
     store_throws := store_throws w; history := history w;
     html_attrs := html_attrs w; root_present := root_present w;
     root_tabindex := root_tabindex w; scroll := scroll w;
     location := location w; listening := listening w; calls := calls w |}.

Definition set_store (x : gmap string store_value) (w : world) : world :=
  {| current := current w; navController := navController w;
     scrollPositions := scrollPositions w; go_subscribed := go_subscribed w;
     signals := signals w; pending := pending w; store := x;
     store_throws := store_throws w; history := history w;
     html_attrs := html_attrs w; root_present := root_present w;
     root_tabindex := root_tabindex w; scroll := scroll w;
     location := location w; listening := listening w; calls := calls w |}.

Definition set_store_throws (x : bool) (w : world) : world :=
  {| current := current w; navController := navController w;
     scrollPositions := scrollPositions w; go_subscribed := go_subscribed w;
     signals := signals w; pending := pending w; store := store w;
     store_throws := x; history := history w; html_attrs := html_attrs w;
     root_present := root_present w; root_tabindex := root_tabindex w;
     scroll := scroll w; location := location w; listening := listening w;
     calls := calls w |}.

Definition set_history (x : list (bool * jsstring)) (w : world) : world :=
  {| current := current w; navController := navController w;
     scrollPositions := scrollPositions w; go_subscribed := go_subscribed w;
     signals := signals w; pending := pending w; store := store w;
     store_throws := store_throws w; history := x;
     html_attrs := html_attrs w; root_present := root_present w;
     root_tabindex := root_tabindex w; scroll := scroll w;
     location := location w; listening := listening w; calls := calls w |}.

Definition set_html_attrs (x : gmap string jsstring) (w : world) : world :=
  {| current := current w; navController := navController w;
     scrollPositions := scrollPositions w; go_subscribed := go_subscribed w;
     signals := signals w; pending := pending w; store := store w;
     store_throws := store_throws w; history := history w; html_attrs := x;
     root_present := root_present w; root_tabindex := root_tabindex w;
     scroll := scroll w; location := location w; listening := listening w;
     calls := calls w |}.

Definition set_root_present (x : bool) (w : world) : world :=
  {| current := current w; navController := navController w;
     scrollPositions := scrollPositions w; go_subscribed := go_subscribed w;
     signals := signals w; pending := pending w; store := store w;
     store_throws := store_throws w; history := history w;
     html_attrs := html_attrs w; root_present := x;
     root_tabindex := root_tabindex w; scroll := scroll w;
     location := location w; listening := listening w; calls := calls w |}.

Definition set_root_tabindex (x : bool) (w : world) : world :=
  {| current := current w; navController := navController w;
     scrollPositions := scrollPositions w; go_subscribed := go_subscribed w;
     signals := signals w; pending := pending w; store := store w;
     store_throws := store_throws w; history := history w;
     html_attrs := html_attrs w; root_present := root_present w;
     root_tabindex := x; scroll := scroll w; location := location w;
     listening := listening w; calls := calls w |}.

Definition set_scroll (x : Z * Z) (w : world) : world :=
  {| current := current w; navController := navController w;
     scrollPositions := scrollPositions w; go_subscribed := go_subscribed w;
     signals := signals w; pending := pending w; store := store w;
     store_throws := store_throws w; history := history w;
     html_attrs := html_attrs w; root_present := root_present w;
     root_tabindex := root_tabindex w; scroll := x; location := location w;
     listening := listening w; calls := calls w |}.

Definition set_location (x : jsstring * jsstring) (w : world) : world :=
  {| current := current w; navController := navController w;
     scrollPositions := scrollPositions w; go_subscribed := go_subscribed w;
     signals := signals w; pending := pending w; store := store w;
     store_throws := store_throws w; history := history w;
     html_attrs := html_attrs w; root_present := root_present w;
     root_tabindex := root_tabindex w; scroll := scroll w; location := x;
     listening := listening w; calls := calls w |}.

Definition set_listening (x : bool) (w : world) : world :=
  {| current := current w; navController := navController w;
     scrollPositions := scrollPositions w; go_subscribed := go_subscribed w;
     signals := signals w; pending := pending w; store := store w;
     store_throws := store_throws w; history := history w;
     html_attrs := html_attrs w; root_present := root_present w;
     root_tabindex := root_tabindex w; scroll := scroll w;
     location := location w; listening := x; calls := calls w |}.

Definition set_calls (x : list call) (w : world) : world :=
  {| current := current w; navController := navController w;
     scrollPositions := scrollPositions w; go_subscribed := go_subscribed w;
     signals := signals w; pending := pending w; store := store w;
     store_throws := store_throws w; history := history w;
     html_attrs := html_attrs w; root_present := root_present w;
     root_tabindex := root_tabindex w; scroll := scroll w;
     location := location w; listening := listening w; calls := x |}.

(** *** The Map holding scroll positions *)

(** [m.set(k, v)]: an existing key keeps its place. *)
Fixpoint map_set {V} (k : jsstring) (v : V) (m : list (jsstring * V))
  : list (jsstring * V) :=
  match m with
  | [] => [(k, v)]
  | (k', v') :: m' =>
      if str_eqb k' k then (k, v) :: m' else (k', v') :: map_set k v m'
  end.

(** [m.delete(k)] *)
Fixpoint map_delete {V} (k : jsstring) (m : list (jsstring * V))
  : list (jsstring * V) :=
  match m with
  | [] => []
  | (k', v') :: m' => if str_eqb k' k then m' else (k', v') :: map_delete k m'
  end.

(** [m.get(k)] *)
Fixpoint map_get {V} (k : jsstring) (m : list (jsstring * V)) : option V :=
  match m with
  | [] => None
  | (k', v') :: m' => if str_eqb k' k then Some v' else map_get k m'
  end.

(** The two lines that record the scroll offset of the outgoing path:
    [set], then [delete] of the first key when the size exceeds 50. *)
Definition ledger_save (p : jsstring) (pos : Z * Z)
    (m : list (jsstring * (Z * Z))) : list (jsstring * (Z * Z)) :=
  let m' := map_set p pos m in
  if (50 <? length m')%nat then
    match m' with
    | (k, _) :: _ => map_delete k m'
    | [] => m'
    end
  else m'.

(** *** Configuration *)

Record config := Config {
  routes : list route;
  fallback : option fallback_route;
  has_store : bool;              (* [config.store] is given *)
  BASE_PATH : jsstring;
  origin : jsstring;             (* [location.origin] *)
  (* the entries of [new URL(href).searchParams] *)
  url_query : jsstring -> list (jsstring * jsstring);
  (* [location.pathname] and [location.search] once a history call with
     this URL has returned *)
  url_parts : jsstring -> jsstring * jsstring;
  (* [pushState] and [replaceState] throw a SecurityError for this URL: it
     resolves to another origin than the document's *)
  history_throws : jsstring -> bool;
  (* the links selected by [navSelector]: [url.pathname] of each, [None]
     for an [href] the URL constructor rejects *)
  nav_links : list (option jsstring)
}.

Section Router.

Variable cfg : config.

(** The state right after [createRouter]. *)
Definition initial (root : bool) (loc : jsstring * jsstring) : world :=
  {| current := NavState None None None [];
     navController := None;
     scrollPositions := [];
     go_subscribed := has_store cfg;
     signals := [];
     pending := [];
     store := ∅;
     store_throws := false;
     history := [];
     html_attrs := ∅;
     root_present := root;
     root_tabindex := false;
     scroll := (0, 0)%Z;
     location := loc;
     listening := false;
     calls := [] |}.

Definition log_call (c : call) (w : world) : world :=
  set_calls (c :: calls w) w.

(** [try { store.set(key, value) } catch {}], under [if (store)]. *)
Definition store_set (key : string) (v : store_value) (w : world) : world :=
  if has_store cfg && negb (store_throws w)
  then set_store (<[key := v]> (store w)) w else w.

(** [try { store.setMany(entries) } catch {}], under [if (store)]. *)
Definition store_setMany (entries : list (string * store_value)) (w : world)
  : world :=
  if has_store cfg && negb (store_throws w)
  then set_store (foldl (fun m kv => <[kv.1 := kv.2]> m) (store w) entries) w
  else w.

Definition set_html_attr (name : string) (v : jsstring) (w : world) : world :=
  set_html_attrs (<[name := v]> (html_attrs w)) w.

(** [signal.aborted] of controller [i]. *)
Definition is_aborted (i : nat) (w : world) : bool :=
  default false (signals w !! i).

(** [if (navController) navController.abort()] *)
Definition abort_in_flight (w : world) : world :=
  match navController w with
  | Some i => set_signals (<[i := true]> (signals w)) w
  | None => w
  end.

(** [navController = new AbortController()]; the result carries the index
    of the new signal. *)
Definition new_controller (w : world) : nat * world :=
  let i := length (signals w) in
  (i, set_navController (Some i) (set_signals (signals w ++ [false]) w)).

(** [if (current.path) { scrollPositions.set(...); ... }] *)
Definition save_scroll (w : world) : world :=
  match path (current w) with
  | Some p =>
      if truthy p
      then set_scrollPositions (ledger_save p (scroll w) (scrollPositions w)) w
      else w
  | None => w
  end.

(** The search string with its question mark. *)
Definition search_string (s : jsstring) : jsstring :=
  if truthy s && startsWith s (js "?") then s
  else if truthy s then js "?" ++ s else [].

(** [fullUrl.searchParams.forEach((v, k) => { query[k] = v; })] *)
Definition query_object (entries : list (jsstring * jsstring))
  : gmap jsstring jsstring :=
  foldl (fun m kv => obj_set kv.1 kv.2 m) ∅ entries.

(** The flags [setActiveNav(pathname)] gives one link: the [active]
    class and [aria-current]. *)
Definition nav_flags (pathname linkHref : jsstring) : bool * bool :=
  let linkPath := normalizePath (stripBase (BASE_PATH cfg) linkHref) in
  let here := normalizePath pathname in
  let isExact := str_eqb linkPath here in
  let isParent :=
    negb isExact && negb (str_eqb linkPath (js "/")) && startsWith here linkPath in
  (isExact || isParent, isExact).

(** The links [setActiveNav] marks: [forEach] stops at the first link
    whose URL cannot be built, with the links before it marked. *)
Fixpoint nav_marks (pathname : jsstring) (links : list (option jsstring))
  : list (bool * bool) :=
  match links with
  | Some href :: rest => nav_flags pathname href :: nav_marks pathname rest
  | _ => []
  end.

(** [new URL(a.getAttribute('href'), location.href)] throws for some
    link. *)
Definition nav_throws : bool :=
  existsb (fun link => negb (bool_decide (is_Some link))) (nav_links cfg).

Definition setActiveNav (pathname : jsstring) (w : world) : world :=
  log_call (SetNavLinks (nav_marks pathname (nav_links cfg))) w.

Definition scrollTo (x y : Z) (w : world) : world :=
  log_call (ScrollTo x y) (set_scroll (x, y) w).

Definition history_url (f : frame) : jsstring :=
  withBase (BASE_PATH cfg) (f_appPath f) ++ f_searchStr f.

(** How the part of [navigate] after the supersession guard ends: the
    history call and [setActiveNav] are not guarded, so what they throw
    leaves [navigate]. *)
Definition commit_outcome (f : frame) : outcome unit :=
  if history_throws cfg (history_url f) then Threw SecurityError
  else if nav_throws then Threw TypeError
  else Returned tt.

(** The part of [navigate] after the supersession guard, as far as it
    gets. The history call is recorded whether it throws or not; one
    that returns makes the URL it is given the current location. *)
Definition commit (f : frame) (unboot : option handle) (w : world) : world :=
  let viewKey := rs_view (f_resolved f) in
  let w := set_current (NavState (Some viewKey) unboot (Some (f_appPath f))
                          (f_searchStr f)) w in
  let query := query_object (url_query cfg (origin cfg ++ history_url f)) in
  let w := store_setMany
             [ ("ui.route.view"%string, SString viewKey);
               ("ui.route.path"%string, SString (f_appPath f));
               ("ui.route.params"%string, SObject (rs_params (f_resolved f)));
               ("ui.route.query"%string, SObject query);
               ("ui.route.transitioning"%string, SBool false) ] w in
  let w := set_history ((f_replace f, history_url f) :: history w) w in
  if history_throws cfg (history_url f) then w
  else
    let w := set_location (url_parts cfg (history_url f)) w in
    let w := set_html_attr "data-view" viewKey w in
    let w := set_html_attr "data-transitioning" (js "off") w in
    let w := setActiveNav (f_appPath f) w in
    if nav_throws then w
    else
      let w := set_root_tabindex true w in
      let w := log_call FocusRoot w in
      if f_restoreScroll f then
        match map_get (f_appPath f) (scrollPositions w) with
        | Some (x, y) => scrollTo x y w
        | None => w
        end
      else scrollTo 0 0 w.

(** [navigate] from the point where [await component.boot(...)] settles
    (or from the assignment [unboot = null] when there is no boot). A
    rejection leaves the function there. *)
Definition after_boot (f : frame) (r : settlement) (w : world)
  : world * status :=
  match r with
  | Rejected => (w, Completed (Threw CollaboratorError))
  | Fulfilled v =>
      if is_aborted (f_signal f) w then (w, Completed (Returned tt))
      else (commit f v w, Completed (commit_outcome f))
  end.

Definition suspend (f : frame) (st : stage) (w : world) : world :=
  set_pending
    (pending w ++ [Frame (f_signal f) st (f_appPath f) (f_searchStr f)
                     (f_resolved f) (f_replace f) (f_restoreScroll f)]) w.

(** [navigate] from [root.replaceChildren()] to the call of the boot
    function. *)
Definition boot_step (f : frame) (w : world) : world * status :=
  let w := log_call ClearRoot w in
  match rs_component (f_resolved f) with
  | Some c =>
      match comp_boot c with
      | Some kind =>
          let w := log_call (CallBoot c (rs_params (f_resolved f)) (f_signal f)) w in
          match kind with
          | BootThrows => (w, Completed (Threw CollaboratorError))
          | BootAsync => (suspend f AwaitBoot w, Suspended)
          end
      | None => after_boot f (Fulfilled None) w
      end
  | None => after_boot f (Fulfilled None) w
  end.

(** [navigate(pathname, opts)] up to its first suspension. *)
Definition navigate (pathname : jsstring) (opts : nav_opts) (w : world)
  : world * status :=
  if negb (root_present w) then (w, Completed (Threw RootNotFound))
  else
    let appPath := normalizePath (stripBase (BASE_PATH cfg) pathname) in
    match resolve (routes cfg) (fallback cfg) appPath with
    | Threw e => (w, Completed (Threw e))
    | Returned None => (w, Completed (Returned tt))
    | Returned (Some resolved) =>
        let searchStr := search_string (opt_search opts) in
        if bool_decide (path (current w) = Some appPath)
           && str_eqb (search (current w)) searchStr
        then (w, Completed (Returned tt))
        else
          let w := abort_in_flight w in
          let '(signal, w) := new_controller w in
          let w := set_html_attr "data-transitioning" (js "on") w in
          let w := store_set "ui.route.transitioning" (SBool true) w in
          let w := save_scroll w in
          let f := Frame signal AwaitUnboot appPath searchStr resolved
                     (opt_replace opts) (opt_restoreScroll opts) in
          match unboot (current w) with
          | Some h =>
              let w := log_call (CallUnboot h) w in
              if h_throws h then boot_step f w
              else (suspend f AwaitUnboot w, Suspended)
          | None => boot_step f w
          end
    end.

(** [navigateQuery(patch, { replace })]; [None] is an absent option. *)
Definition navigateQuery (patch : list (jsstring * patch_value))
    (replace : option bool) (w : world) : world * status :=
  let prefixed := patched_search (search (current w)) patch in
  let p :=
    match path (current w) with
    | Some p => if truthy p then p
                else normalizePath (stripBase (BASE_PATH cfg) (location w).1)
    | None => normalizePath (stripBase (BASE_PATH cfg) (location w).1)
    end in
  navigate p (NavOpts (default true replace) prefixed false) w.

(** [navigatePath(path, { replace })] *)
Definition navigatePath (p : jsstring) (replace : option bool) (w : world)
  : world * status :=
  let appPath := normalizePath (stripBase (BASE_PATH cfg) p) in
  navigate appPath (NavOpts (default true replace) (search (current w)) false) w.

(** The frame of the navigation of signal [sig], and the other frames. *)
Fixpoint take_frame (sig : nat) (fs : list frame)
  : option (frame * list frame) :=
  match fs with
  | [] => None
  | f :: rest =>
      if (f_signal f =? sig)%nat then Some (f, rest)
      else '(g, rest') ← take_frame sig rest; Some (g, f :: rest')
  end.

(** A suspended navigation goes on from where it stopped. The value of
    the unmount promise is not used, and its rejection is caught. *)
Definition resume (f : frame) (r : settlement) (w : world) : world * status :=
  match f_stage f with
  | AwaitUnboot => boot_step f w
  | AwaitBoot => after_boot f r w
  end.

(** The event: the frame leaves the pending list and runs to its next
    suspension or to its end. Without such a frame nothing happens. *)
Definition settle (sig : nat) (r : settlement) (w : world) : world :=
  match take_frame sig (pending w) with
  | Some (f, rest) => (resume f r (set_pending rest w)).1
  | None => w
  end.

(** [start()] *)
Definition start (w : world) : world :=
  let w := set_listening true w in
  (navigate (location w).1 (NavOpts true (location w).2 true) w).1.

(** [stop()]: the unmount function is called and not awaited. *)
Definition stop (w : world) : world :=
  let w := set_listening false w in
  let w := set_go_subscribed false w in
  match unboot (current w) with
  | Some h => log_call (CallUnboot h) w
  | None => w
  end.

(** [getCurrent()] *)
Definition getCurrent (w : world)
  : option jsstring * option jsstring * jsstring :=
  (viewKey (current w), path (current w), search (current w)).

(** A click that passes the filters of [onClick], on a link whose URL has
    the given pathname and search. *)
Definition onClick (pathname search : jsstring) (w : world) : world :=
  (navigate pathname (NavOpts false search false) w).1.

(** [onPop()] *)
Definition onPop (w : world) : world :=
  (navigate (location w).1 (NavOpts true (location w).2 true) w).1.

Definition go_truthy (v : go_value) : bool :=
  match v with GoString s => truthy s | GoObject _ => true end.

(** The subscriber of [ui.route.go], called with a written value. The
    reset to [null] notifies the subscriber again, with a falsy value, on
    which it returns at once; the [processingGo] flag guards that same
    nested call. *)
Definition onGo (value : go_value) (w : world) : world :=
  if negb (go_truthy value) then w
  else
    let w := store_set "ui.route.go" SNull w in
    match value with
    | GoString s => (navigate s default_opts w).1
    | GoObject o =>
        let has_path := from_option truthy false (go_path o) in
        match go_query o with
        | Some q =>
            if negb has_path
            then (navigateQuery q (Some (default true (go_replace o))) w).1
            else (navigate (default (js "/") (go_path o))
                    (NavOpts (default false (go_replace o))
                       (default [] (go_search o)) false) w).1
        | None =>
            (navigate (if has_path then default (js "/") (go_path o) else js "/")
               (NavOpts (default false (go_replace o))
                  (default [] (go_search o)) false) w).1
        end
    end.

(** What the host and the user do on their own. *)
Inductive host_change :=
| HostScroll (x y : Z)
| HostRoot (present : bool)
| HostStoreThrows (b : bool)
| HostLocation (pathname search : jsstring).

Definition host_step (h : host_change) (w : world) : world :=
  match h with
  | HostScroll x y => set_scroll (x, y) w
  | HostRoot b => set_root_present b w
  | HostStoreThrows b => set_store_throws b w
  | HostLocation p s => set_location (p, s) w
  end.

(** Everything that can happen to a router. *)
Inductive event :=
| EvNavigate (pathname : jsstring) (opts : nav_opts)
| EvNavigateQuery (patch : list (jsstring * patch_value)) (replace : option bool)
| EvNavigatePath (p : jsstring) (replace : option bool)
| EvStart
| EvStop
| EvClick (pathname search : jsstring)
| EvPop
| EvGo (value : go_value)
| EvSettle (signal : nat) (r : settlement)
| EvHost (h : host_change).

(** One event. Clicks and popstate events reach the router while it
    listens. A write to [ui.route.go] needs a store that takes it; the
    store keeps the value and notifies the router while it is
    subscribed. *)
Definition step (w : world) (e : event) : world :=
  match e with
  | EvNavigate p o => (navigate p o w).1
  | EvNavigateQuery patch r => (navigateQuery patch r w).1
  | EvNavigatePath p r => (navigatePath p r w).1
  | EvStart => start w
  | EvStop => stop w
  | EvClick p s => if listening w then onClick p s w else w
  | EvPop => if listening w then onPop w else w
  | EvGo v =>
      if has_store cfg && negb (store_throws w) then
        let w' :=
          set_store (<["ui.route.go"%string := SRequest v]> (store w)) w in
        if go_subscribed w then onGo v w' else w'
      else w
  | EvSettle sig r => settle sig r w
  | EvHost h => host_step h w
  end.

(** A history of the router. *)
Definition run (w : world) (es : list event) : world := foldl step w es.

(** *** What holds of every state a router can reach *)

(** A search string as [navigate] stores it: empty, or with its question
    mark. *)
Definition search_ok (s : jsstring) : Prop :=
  s = [] \/ startsWith s (js "?") = true.

Definition is_resolved (p : jsstring) : Prop :=
  exists r, resolve (routes cfg) (fallback cfg) p = Returned (Some r).

(** The facts a suspended navigation carries from its start. *)
Record frame_static (f : frame) : Prop := FrameStatic {
  fs_resolved :
    resolve (routes cfg) (fallback cfg) (f_appPath f)
    = Returned (Some (f_resolved f));
  fs_search : search_ok (f_searchStr f)
}.

Record world_inv (w : world) : Prop := WorldInv {
  (* every controller but the latest has been aborted *)
  inv_latest : forall i,
    (i < length (signals w))%nat -> navController w <> Some i ->
    signals w !! i = Some true;
  inv_controller : forall i,
    navController w = Some i -> (i < length (signals w))%nat;
  inv_frames :
    Forall (fun f => (f_signal f < length (signals w))%nat /\ frame_static f)
      (pending w);
  inv_ledger : (length (scrollPositions w) <= 50)%nat;
  inv_search : search_ok (search (current w));
  inv_path : forall p, path (current w) = Some p -> is_resolved p
}.

(** The route facts in the store: every key but the request channel
    [ui.route.go], which is written by whoever asks for a navigation. *)
Definition route_store (w : world) : gmap string store_value :=
  delete "ui.route.go"%string (store w).

(** What a navigation commits: the navigation state, the history calls
    and the route facts in the store. *)
Definition committed (w : world)
  : nav_state * list (bool * jsstring) * gmap string store_value :=
  (current w, history w, route_store w).

(** The router's own variables: untouched by calls to the store, the
    document and the collaborators. *)
Definition same_router (w w' : world) : Prop :=
  navController w' = navController w /\ signals w' = signals w
  /\ pending w' = pending w /\ current w' = current w
  /\ scrollPositions w' = scrollPositions w.

End Router.

End Engine.
Import Engine.

(** ** A sample router *)

Definition sample_routes : list route :=
  [ Route (js "/") (js "home") (Some (Component 0 (Some BootAsync)));
    Route (js "/users") (js "users") (Some (Component 1 (Some BootAsync)));
    Route (js "/users/:id") (js "user") (Some (Component 2 (Some BootAsync)));
    Route (js "/search") (js "search") (Some (Component 3 (Some BootAsync)));
    Route (js "/a") (js "plain") None ].

(** What the URL parser does to its input first: leading and trailing
    C0 controls and spaces go, then every tab and newline. *)
Fixpoint strip_leading_c0 (s : jsstring) : jsstring :=
  match s with
  | c :: rest => if c <=? 0x20 then strip_leading_c0 rest else s
  | [] => []
  end.

Definition url_clean (href : jsstring) : jsstring :=
  List.filter (fun c => negb ((c =? 9) || (c =? 10) || (c =? 13)))
    (rev (strip_leading_c0 (rev (strip_leading_c0 href)))).

Definition HASH : N := 35.

(** The text before the fragment. *)
Fixpoint before_hash (href : jsstring) : jsstring :=
  match href with
  | [] => []
  | c :: rest => if c =? HASH then [] else c :: before_hash rest
  end.

(** The text after the first question mark. *)
Fixpoint after_question (href : jsstring) : jsstring :=
  match href with
  | [] => []
  | c :: rest => if c =? QUESTION then rest else after_question rest
  end.

(** [searchParams] of an URL of the sample origin: the query is what
    stands between the first question mark and the fragment. The URL
    parser percent-encodes some of its units, which the urlencoded
    parser decodes again, so the text is parsed as it stands. *)
Definition sample_url_query (href : jsstring) : list (jsstring * jsstring) :=
  urlencoded_parse (after_question (before_hash (url_clean href))).

(** The text before the first question mark. *)
Fixpoint before_question (href : jsstring) : jsstring :=
  match href with
  | [] => []
  | c :: rest => if c =? QUESTION then [] else c :: before_question rest
  end.

Definition is_slash (c : N) : bool := (c =? SLASH) || (c =? BACKSLASH).

Fixpoint skip_slashes (s : jsstring) : jsstring :=
  match s with
  | c :: rest => if is_slash c then skip_slashes rest else s
  | [] => []
  end.

(** The authority: what stands before the next slash, backslash,
    question mark or fragment. *)
Fixpoint authority_of (s : jsstring) : jsstring :=
  match s with
  | c :: rest =>
      if is_slash c || (c =? QUESTION) || (c =? HASH) then []
      else c :: authority_of rest
  | [] => []
  end.

(** The location of a page of the sample origin after a history call
    with an URL the router passes, for a path and a query the URL parser
    leaves as they are: the fragment is cut, an authority is passed
    over, the path ends at the first question mark. *)
Definition sample_url_parts (url : jsstring) : jsstring * jsstring :=
  let u := before_hash (url_clean url) in
  let rest :=
    match u with
    | c1 :: c2 :: r =>
        if is_slash c1 && is_slash c2
        then drop (length (authority_of (skip_slashes r))) (skip_slashes r)
        else u
    | _ => u
    end in
  let p := before_question rest in
  (if truthy p then p else js "/",
   match after_question rest with [] => [] | q => QUESTION :: q end).

(** The history calls of a page of the sample origin, for the URLs the
    router passes, which start with a slash: an URL that starts with two
    slashes or backslashes names its own host, and every host not
    spelled [example.test] is taken as foreign. *)
Definition sample_history_throws (url : jsstring) : bool :=
  match url_clean url with
  | c1 :: c2 :: rest =>
      is_slash c1 && is_slash c2
      && negb (str_eqb (authority_of (skip_slashes rest)) (js "example.test"))
  | _ => false
  end.

Definition sample_cfg : config :=
  {| routes := sample_routes;
     fallback := None;
     has_store := true;
     BASE_PATH := [];
     origin := js "https://example.test";
     url_query := sample_url_query;
     url_parts := sample_url_parts;
     history_throws := sample_history_throws;
     nav_links := [Some (js "/"); Some (js "/users")] |}.

(** A fresh sample router on a page that has the root element. *)
Definition sample_world : world := initial sample_cfg true (js "/", js "").

(** ** Further notions used by the properties *)

(** A path that [normalizePath] returns as it is: it starts with a slash,
    is not ["/index.html"], and is the root or has no trailing slash. *)
Definition is_normal (p : jsstring) : bool :=
  startsWith p (js "/")
  && negb (str_eqb p (js "/index.html"))
  && ((length p =? 1)%nat || negb (endsWith p (js "/"))).

(** The initialiser of [BASE_PATH]. The argument tells what the document
    has: no [<base href>] element; one whose [href] the URL constructor
    rejects; or one whose URL has the given [pathname]. *)
Definition detect_base_path (base : option (option jsstring)) : jsstring :=
  match base with
  | None => []
  | Some None => []
  | Some (Some p) =>
      if (1 <? length p)%nat && endsWith p (js "/") then slice_0_m1 p else p
  end.

(** The inverse of the split of a template: literals and names put back
    together, a colon before each name. *)
Fixpoint rejoin (parts : list jsstring) : jsstring :=
  match parts with
  | [] => []
  | lit :: rest =>
      match rest with
      | name :: rest' => lit ++ COLON :: name ++ rejoin rest'
      | [] => lit
      end
  end.

(** Number of slashes of a path. *)
Definition slashes (s : jsstring) : nat :=
  length (List.filter (fun c => c =? SLASH) s).

(** What the page and the store can send to a router on their own. *)
Inductive trigger :=
| TClick (pathname search : jsstring)
| TPop
| TGo (value : go_value).

Definition trigger_event (t : trigger) : event :=
  match t with
  | TClick p s => EvClick p s
  | TPop => EvPop
  | TGo v => EvGo v
  end.


(** In the log of calls, latest first, every call of a boot function
    comes right after the call that empties the root element. *)
Fixpoint boot_guarded (cs : list call) : bool :=
  match cs with
  | [] => true
  | c :: rest =>
      match c with
      | CallBoot _ _ _ =>
          match rest with
          | ClearRoot :: _ => boot_guarded rest
          | _ => false
          end
      | _ => boot_guarded rest
      end
  end.

(** The signal of the latest controller is not aborted. *)
Definition controller_live (w : world) : Prop :=
  match navController w with
  | Some i => signals w !! i = Some false
  | None => True
  end.

(** What the steps of a navigation before its commit leave as it is: the
    navigation state, the history, the listeners, the request channel, a
    store that is not configured, the host's own state; signals are only
    added or aborted. *)
Record quiet (cfg : config) (w w' : world) : Prop := Quiet {
  q_current : current w' = current w;
  q_history : history w' = history w;
  q_listening : listening w' = listening w;
  q_subscribed : go_subscribed w' = go_subscribed w;
  q_throws : store_throws w' = store_throws w;
  q_location : location w' = location w;
  q_go : store w' !! "ui.route.go"%string = store w !! "ui.route.go"%string;
  q_store : has_store cfg = false -> store w' = store w;
  q_aborted : forall i, is_aborted i w = true -> is_aborted i w' = true;
  q_signals : (length (signals w) <= length (signals w'))%nat;
  q_calls : boot_guarded (calls w) = true -> boot_guarded (calls w') = true;
  q_live : controller_live w -> controller_live w';
  q_view : html_attrs w' !! "data-view"%string
           = html_attrs w !! "data-view"%string
}.

(** A step of a navigation ends before the commit or with it. *)
Definition quiet_or_commit (cfg : config) (f : frame) (w w' : world) : Prop :=
  quiet cfg w w' \/ exists v w0, quiet cfg w w0 /\ w' = commit cfg f v w0.


(** What an event does before a navigation starts: attach or detach the
    listeners, change the host's state, write the request channel of a
    subscribed store. *)
Record light (cfg : config) (w w' : world) : Prop := Light {
  l_current : current w' = current w;
  l_history : history w' = history w;
  l_signals : signals w' = signals w;
  l_subscribed : go_subscribed w' = true -> go_subscribed w = true;
  l_store : has_store cfg = false -> store w' = store w;
  l_calls : boot_guarded (calls w) = true -> boot_guarded (calls w') = true;
  l_live : controller_live w -> controller_live w';
  l_view : html_attrs w' !! "data-view"%string
           = html_attrs w !! "data-view"%string
}.

(** The sample router without a store. *)
Definition storeless_cfg : config :=
  {| routes := sample_routes;
     fallback := None;
     has_store := false;
     BASE_PATH := [];
     origin := js "https://example.test";
     url_query := sample_url_query;
     url_parts := sample_url_parts;
     history_throws := sample_history_throws;
     nav_links := [Some (js "/"); Some (js "/users")] |}.

(** *** Query strings *)

(** A Unicode scalar value. *)
Definition scalar (cp : N) : bool :=
  ((cp <? 0xD800) || (0xDFFF <? cp)) && (cp <? 0x110000).

(** A string of 16-bit code units. *)
Definition is_utf16 (s : jsstring) : bool := forallb (fun c => c <? 0x10000) s.

(** The units of a serialised component: unreserved characters, the
    plus sign, and percent escapes. *)
Definition form_unit (c : N) : bool :=
  (c <? 0x80) && negb (c =? AMPERSAND) && negb (c =? EQUALS)
  && negb (c =? QUESTION).

(** The pairs whose names and values are strings of 16-bit units. *)
Definition utf16_pairs (l : list (jsstring * jsstring)) : bool :=
  forallb (fun nv => is_utf16 nv.1 && is_utf16 nv.2) l.

(** One pair as the serialiser writes it. *)
Definition serialize_pair (nv : jsstring * jsstring) : jsstring :=
  serialize_component nv.1 ++ [EQUALS] ++ serialize_component nv.2.

(** An open UTF-8 sequence that can only end in a scalar value: whatever
    octets within bounds complete it. *)
Fixpoint open_ok (needed : nat) (cp lo hi : N) : Prop :=
  forall b, lo <= b <= hi ->
    match needed with
    | S (S n as m) => open_ok m (cp * 0x40 + (b - 0x80)) 0x80 0xBF
    | _ => scalar (cp * 0x40 + (b - 0x80)) = true
    end.

(** A string that is its own conversion to a USVString. *)
Definition is_usv (s : jsstring) : bool := is_utf16 s && str_eqb (to_usv s) s.

(** The pairs a [URLSearchParams] object holds. *)
Definition usv_pairs (l : list (jsstring * jsstring)) : bool :=
  forallb (fun nv => is_usv nv.1 && is_usv nv.2) l.

(** The patch entries whose keys and string values are strings of
    16-bit units. *)
Definition utf16_patch (patch : list (jsstring * patch_value)) : bool :=
  forallb (fun kv => is_utf16 kv.1 && is_utf16 (String_of kv.2)) patch.

(** The sample router on a page with [<base href="/">]. *)
Definition root_based_cfg : config :=
  {| routes := sample_routes;
     fallback := None;
     has_store := true;
     BASE_PATH := detect_base_path (Some (Some (js "/")));
     origin := js "https://example.test";
     url_query := sample_url_query;
     url_parts := sample_url_parts;
     history_throws := sample_history_throws;
     nav_links := [Some (js "/"); Some (js "/users")] |}.

(** A router under the base path ["/a"], with two routes whose paths
    differ by that prefix. *)
Definition based_cfg : config :=
  {| routes := [ Route (js "/about") (js "about") None;
                 Route (js "/bout") (js "bout") None ];
     fallback := None;
     has_store := true;
     BASE_PATH := detect_base_path (Some (Some (js "/a/")));
     origin := js "https://example.test";
     url_query := sample_url_query;
     url_parts := sample_url_parts;
     history_throws := sample_history_throws;
     nav_links := [] |}.

(** * Properties *)

(** ** Strings *)

Section JsStringFacts.

Lemma startsWith_spec s pre :
  startsWith s pre = true <-> exists t, s = pre ++ t.
Proof.
  revert s; induction pre as [|a pre IH]; intros s; simpl.
  - split; [intros _; by exists s | reflexivity].
  - destruct s as [|b s].
    + split; [discriminate|]. intros [t Ht]; discriminate.
    + rewrite andb_true_iff, N.eqb_eq, IH. split.
      * intros [-> [t ->]]. eauto.
      * intros [t Ht]. injection Ht as -> ->. eauto.
Qed.

Lemma endsWith_spec s suf :
  endsWith s suf = true <-> exists t, s = t ++ suf.
Proof.
  unfold endsWith. rewrite startsWith_spec. split.
  - intros [t Ht]. exists (rev t).
    apply (f_equal (@rev N)) in Ht.
    rewrite rev_involutive, rev_app_distr, rev_involutive in Ht. done.
  - intros [t ->]. exists (rev t). by rewrite rev_app_distr.
Qed.

Lemma endsWith_snoc s c d :
  endsWith (s ++ [c]) [d] = (d =? c).
Proof.
  unfold endsWith. rewrite rev_app_distr. simpl. by rewrite andb_true_r.
Qed.

Lemma endsWith_nil d : endsWith [] [d] = false.
Proof. reflexivity. Qed.

Lemma slice_0_m1_snoc s c : slice_0_m1 (s ++ [c]) = s.
Proof.
  unfold slice_0_m1. rewrite length_app. simpl.
  replace (length s + 1 - 1)%nat with (length s) by lia.
  by rewrite take_app_length.
Qed.

Lemma str_eqb_eq a b : str_eqb a b = true <-> a = b.
Proof. unfold str_eqb. by rewrite bool_decide_eq_true. Qed.

Lemma str_eqb_refl (k : jsstring) : str_eqb k k = true.
Proof. by apply str_eqb_eq. Qed.

Lemma str_eqb_false (a b : jsstring) : a <> b -> str_eqb a b = false.
Proof. intros H. unfold str_eqb. by rewrite bool_decide_eq_false_2. Qed.

End JsStringFacts.

(** ** Path normalisation *)

Example normalizePath_empty : normalizePath (js "") = js "/".
Proof. reflexivity. Qed.
Example normalizePath_users_slash : normalizePath (js "/users/") = js "/users".
Proof. reflexivity. Qed.
Example normalizePath_users_bare : normalizePath (js "users") = js "/users".
Proof. reflexivity. Qed.
Example normalizePath_index : normalizePath (js "/index.html") = js "/".
Proof. reflexivity. Qed.

(** The assertions of section 2 of the self-test. *)
Example self_test_normalizePath :
  normalizePath_opt None = js "/"
  /\ normalizePath (js "") = js "/"
  /\ normalizePath (js "/") = js "/"
  /\ normalizePath (js "/users") = js "/users"
  /\ normalizePath (js "/users/") = js "/users"
  /\ normalizePath (js "users") = js "/users"
  /\ normalizePath (js "/index.html") = js "/"
  /\ normalizePath (js "/a/b/c/") = js "/a/b/c".
Proof. repeat split; reflexivity. Qed.

Example stripBase_withBase :
  stripBase (js "/app") (js "/app/users") = js "/users"
  /\ stripBase (js "/app") (js "/app") = js "/"
  /\ stripBase (js "") (js "/users") = js "/users"
  /\ stripBase (js "/app") (js "/apple") = js "/le"
  /\ withBase (js "/app") (js "/users") = js "/app/users"
  /\ withBase (js "/app") (js "/") = js "/app"
  /\ withBase (js "") (js "/users") = js "/users".
Proof. repeat split; reflexivity. Qed.

(** *** How [normalizePath] acts on a path that already has its slash *)

Section NormalizePathFacts.

Lemma index_html_last r c :
  SLASH :: r ++ [c] = js "/index.html" -> c = 108.
Proof.
  intros H. apply (f_equal (@rev N)) in H.
  simpl in H. rewrite rev_app_distr in H. simpl in H.
  vm_compute (rev (js "index.html")) in H. by injection H.
Qed.

Lemma normalizePath_root : normalizePath [SLASH] = [SLASH].
Proof. reflexivity. Qed.

(** One trailing slash is removed. *)
Lemma normalizePath_trailing r :
  normalizePath (SLASH :: r ++ [SLASH]) = SLASH :: r.
Proof.
  unfold normalizePath. rewrite N.eqb_refl. cbv zeta.
  destruct (str_eqb _ _) eqn:E.
  - apply str_eqb_eq, index_html_last in E. discriminate.
  - change (SLASH :: r ++ [SLASH]) with ((SLASH :: r) ++ [SLASH]).
    change (js "/") with [SLASH].
    rewrite endsWith_snoc, N.eqb_refl, slice_0_m1_snoc.
    rewrite length_app. simpl.
    destruct (1 <? S (length r + 1))%nat eqn:L; [done|].
    apply Nat.ltb_ge in L. lia.
Qed.

(** A path without a trailing slash, other than ["/index.html"], is kept. *)
Lemma normalizePath_keep r c :
  c <> SLASH -> SLASH :: r ++ [c] <> js "/index.html" ->
  normalizePath (SLASH :: r ++ [c]) = SLASH :: r ++ [c].
Proof.
  intros Hc Hne. unfold normalizePath. rewrite N.eqb_refl. cbv zeta.
  destruct (str_eqb _ _) eqn:E.
  - by apply str_eqb_eq in E.
  - change (SLASH :: r ++ [c]) with ((SLASH :: r) ++ [c]).
    change (js "/") with [SLASH].
    rewrite endsWith_snoc.
    destruct (SLASH =? c) eqn:Ec.
    + apply N.eqb_eq in Ec. congruence.
    + by rewrite andb_false_r.
Qed.

Lemma with_leading_slash_cons c t :
  exists r, with_leading_slash (c :: t) = SLASH :: r.
Proof.
  simpl. destruct (c =? SLASH) eqn:E.
  - apply N.eqb_eq in E. subst. eauto.
  - eauto.
Qed.

Lemma normalizePath_with_leading_slash p :
  p <> [] -> normalizePath p = normalizePath (with_leading_slash p).
Proof.
  destruct p as [|c t]; [done|]. intros _.
  simpl with_leading_slash. destruct (c =? SLASH) eqn:E; [done|].
  unfold normalizePath at 1. rewrite E. cbv zeta.
  unfold normalizePath. by rewrite N.eqb_refl.
Qed.

(** The result always starts with a slash. *)
Lemma normalizePath_starts_slash p :
  exists r, normalizePath p = SLASH :: r.
Proof.
  destruct p as [|c t]; [by exists []|].
  rewrite normalizePath_with_leading_slash by done.
  destruct (with_leading_slash_cons c t) as [r ->].
  destruct (decide (SLASH :: r = js "/index.html")) as [->|Hne];
    [by exists []|].
  destruct r as [|x r0 _] using rev_ind; [by exists []|].
  destruct (decide (x = SLASH)) as [->|Hx].
  - rewrite normalizePath_trailing. eauto.
  - rewrite normalizePath_keep by done. eauto.
Qed.

End NormalizePathFacts.


(** *** Stability under a second normalisation *)

Lemma endsWith_two (l : jsstring) (y x a b : N) :
  endsWith ((l ++ [y]) ++ [x]) [a; b] = (b =? x) && (a =? y).
Proof.
  unfold endsWith. rewrite !rev_app_distr. simpl. by rewrite andb_true_r.
Qed.

Lemma renormalizes_cons c t :
  renormalizes (c :: t) =
  let p1 := with_leading_slash (c :: t) in
  str_eqb p1 (js "/index.html/")
  || ((2 <? length p1)%nat && endsWith p1 (js "//")).
Proof. reflexivity. Qed.

Lemma normalizePath_slash_stable_iff r :
  normalizePath (normalizePath (SLASH :: r)) = normalizePath (SLASH :: r)
  <-> (str_eqb (SLASH :: r) (js "/index.html/")
       || ((2 <? length (SLASH :: r))%nat && endsWith (SLASH :: r) (js "//")))
      = false.
Proof.
  destruct r as [|x r0 _] using rev_ind; [done|].
  destruct (decide (x = SLASH)) as [->|Hx].
  - rewrite normalizePath_trailing.
    destruct r0 as [|y r1 _] using rev_ind; [done|].
    change (js "//") with [SLASH; SLASH].
    change (SLASH :: (r1 ++ [y]) ++ [SLASH]) with ((SLASH :: r1 ++ [y]) ++ [SLASH]).
    change (SLASH :: r1 ++ [y]) with ((SLASH :: r1) ++ [y]).
    rewrite endsWith_two, N.eqb_refl, andb_true_l.
    replace (2 <? length (((SLASH :: r1) ++ [y]) ++ [SLASH]))%nat with true;
      cycle 1.
    { symmetry. apply Nat.ltb_lt. rewrite !length_app. simpl. lia. }
    change ((SLASH :: r1) ++ [y]) with (SLASH :: r1 ++ [y]).
    rewrite andb_true_l.
    destruct (decide (y = SLASH)) as [->|Hy].
    + rewrite normalizePath_trailing, N.eqb_refl, orb_true_r. split; [|done].
      intros H. injection H as H.
      apply (f_equal (@length N)) in H. rewrite length_app in H. simpl in H. lia.
    + replace (SLASH =? y) with false by (symmetry; apply N.eqb_neq; congruence).
      rewrite orb_false_r.
      destruct (decide (SLASH :: r1 ++ [y] = js "/index.html")) as [E|Hne].
      * rewrite E. vm_compute. split; discriminate.
      * rewrite normalizePath_keep by done. split; [intros _|done].
        apply not_true_is_false. intros E%str_eqb_eq. apply Hne.
        change (js "/index.html/") with (js "/index.html" ++ [SLASH]) in E.
        by apply (app_inj_tail (SLASH :: r1 ++ [y]) (js "/index.html")) in E as [E _].
  - assert (Hfalse : (str_eqb (SLASH :: r0 ++ [x]) (js "/index.html/")
       || ((2 <? length (SLASH :: r0 ++ [x]))%nat
           && endsWith (SLASH :: r0 ++ [x]) (js "//"))) = false).
    { apply orb_false_intro.
      - apply not_true_is_false. intros E%str_eqb_eq.
        change (js "/index.html/") with (js "/index.html" ++ [SLASH]) in E.
        apply (app_inj_tail (SLASH :: r0) (js "/index.html")) in E as [_ E].
        done.
      - apply andb_false_intro2.
        apply not_true_is_false. intros [t E]%endsWith_spec.
        change (js "//") with ([SLASH] ++ [SLASH]) in E.
        rewrite (assoc_L (++)) in E.
        apply (app_inj_tail (SLASH :: r0) (t ++ [SLASH])) in E as [_ E].
        done. }
    rewrite Hfalse. split; [done|intros _].
    destruct (decide (SLASH :: r0 ++ [x] = js "/index.html")) as [->|Hne];
      [done|].
    by rewrite !normalizePath_keep.
Qed.

Lemma normalizePath_stable_iff (p : jsstring) :
  normalizePath (normalizePath p) = normalizePath p
  <-> renormalizes p = false.
Proof.
  destruct p as [|c t]; [done|].
  rewrite renormalizes_cons. cbv zeta.
  rewrite (normalizePath_with_leading_slash (c :: t)) by done.
  destruct (with_leading_slash_cons c t) as [r ->].
  apply normalizePath_slash_stable_iff.
Qed.

(** C4, as the spec states it, fails: a path ending in two slashes loses
    one slash per call, so normalising twice differs from normalising
    once on ["/a//"]. *)
Lemma normalizePath_not_idempotent :
  normalizePath (normalizePath (js "/a//")) = js "/a"
  /\ normalizePath (js "/a//") = js "/a/"
  /\ ~ (forall p, normalizePath (normalizePath p) = normalizePath p).
Proof.
  split; [reflexivity|]. split; [reflexivity|].
  intros H. specialize (H (js "/a//")). vm_compute in H. discriminate.
Qed.

(** C4, amended: [normalizePath(normalizePath(p)) = normalizePath(p)]
    holds exactly for the inputs that, with their leading slash in place,
    are not ["/index.html/"] and do not end in two slashes preceded by at
    least one more unit ([renormalizes p = false]). *)
Theorem normalizePath_idempotent_iff (p : jsstring) :
  normalizePath (normalizePath p) = normalizePath p
  <-> renormalizes p = false.
Proof. apply normalizePath_stable_iff. Qed.

(** In particular a path with at most one trailing slash, other than
    ["/index.html/"] and ["index.html/"], is normalised once and for all. *)
Corollary normalizePath_idempotent_single_slash (p : jsstring) :
  endsWith p (js "//") = false ->
  with_leading_slash p <> js "/index.html/" ->
  normalizePath (normalizePath p) = normalizePath p.
Proof.
  intros Hends Hidx. apply normalizePath_stable_iff.
  unfold renormalizes. cbv zeta. apply orb_false_intro.
  - apply not_true_is_false. by intros E%str_eqb_eq.
  - apply andb_false_intro2, not_true_is_false.
    intros [u E]%endsWith_spec.
    destruct p as [|c t]; [by destruct u|].
    simpl in E. destruct (c =? SLASH) eqn:Ec.
    + assert (endsWith (c :: t) (js "//") = true) as Hc
        by (apply endsWith_spec; eauto). congruence.
    + destruct u as [|a u].
      * simpl in E. injection E as E _. subst c. done.
      * injection E as _ E.
        assert (endsWith (c :: t) (js "//") = true) as Hc
          by (apply endsWith_spec; eauto). congruence.
Qed.

(** ** Pattern compiler *)

Section PatternExamples.

Example compile_root :
  compilePattern (js "/") = Compiled (js "^/$") [].
Proof. reflexivity. Qed.

Example compile_users_id :
  compilePattern (js "/users/:id")
  = Compiled (js "^/users/([^/]+)$") [js "id"].
Proof. reflexivity. Qed.

Example compile_two_params :
  compilePattern (js "/users/:id/posts/:postId")
  = Compiled (js "^/users/([^/]+)/posts/([^/]+)$") [js "id"; js "postId"].
Proof. reflexivity. Qed.

Example compile_escapes :
  regex (compilePattern (js "/a.b/(x)/:id+")) = js "^/a\.b/\(x\)/([^/]+)\+$".
Proof. reflexivity. Qed.

Example match_users_42 :
  str_match (js "/users/42") (regex (compilePattern (js "/users/:id")))
  = Some [js "42"].
Proof. reflexivity. Qed.

Example match_users_none :
  str_match (js "/users/") (regex (compilePattern (js "/users/:id"))) = None.
Proof. reflexivity. Qed.

Example match_posts :
  str_match (js "/users/1/posts/99")
    (regex (compilePattern (js "/users/:id/posts/:postId")))
  = Some [js "1"; js "99"].
Proof. reflexivity. Qed.

Example match_adjacent_groups :
  str_match (js "/abc") (regex (compilePattern (js "/:a:b")))
  = Some [js "ab"; js "c"].
Proof. reflexivity. Qed.

Example match_backtracks :
  str_match (js "/files/a.b.c")
    (regex (compilePattern (js "/files/:name.:ext")))
  = Some [js "a.b"; js "c"].
Proof. reflexivity. Qed.

Example special_characters :
  List.filter is_regex_special (map N.of_nat (seq 0 128))
  = js "$()*+.?[\]^{|}".
Proof. reflexivity. Qed.

(** The assertions of section 1 of the self-test. *)
Example self_test_compilePattern :
  let r1 := compilePattern (js "/") in
  let r2 := compilePattern (js "/users") in
  let r3 := compilePattern (js "/users/:id") in
  let r4 := compilePattern (js "/users/:id/posts/:postId") in
  let r5 := compilePattern (js "/posts/:id/edit") in
  regex_test (regex r1) (js "/") = true
  /\ length (paramNames r1) = 0%nat
  /\ regex_test (regex r1) (js "/foo") = false
  /\ regex_test (regex r2) (js "/users") = true
  /\ regex_test (regex r2) (js "/users/1") = false
  /\ regex_test (regex r2) (js "/") = false
  /\ regex_test (regex r3) (js "/users/42") = true
  /\ paramNames r3 !! 0%nat = Some (js "id")
  /\ str_match (js "/users/42") (regex r3) = Some [js "42"]
  /\ regex_test (regex r3) (js "/users") = false
  /\ regex_test (regex r3) (js "/users/") = false
  /\ regex_test (regex r4) (js "/users/1/posts/99") = true
  /\ paramNames r4 = [js "id"; js "postId"]
  /\ str_match (js "/users/1/posts/99") (regex r4) = Some [js "1"; js "99"]
  /\ regex_test (regex r5) (js "/posts/5/edit") = true
  /\ regex_test (regex r5) (js "/posts/5") = false.
Proof. vm_compute. repeat split; reflexivity. Qed.

End PatternExamples.

(** *** Splitting a template *)

Section SplitFacts.

Lemma ident_start_char c : is_ident_start c = true -> is_ident_char c = true.
Proof.
  unfold is_ident_start, is_ident_char.
  rewrite !orb_true_iff. tauto.
Qed.

Lemma colon_not_ident_start : is_ident_start COLON = false.
Proof. reflexivity. Qed.

Lemma colon_not_ident_char : is_ident_char COLON = false.
Proof. reflexivity. Qed.

Lemma ident_run_app name rest :
  forallb is_ident_char name = true -> ends_identifier rest = true ->
  ident_run (name ++ rest) = name.
Proof.
  intros Hn Hr. induction name as [|c name IH]; simpl in *.
  - destruct rest as [|d rest]; [done|]. simpl in *.
    by destruct (is_ident_char d).
  - apply andb_true_iff in Hn as [-> Hn]. by rewrite IH.
Qed.

Lemma ident_run_all s : forallb is_ident_char (ident_run s) = true.
Proof.
  induction s as [|c s IH]; [done|]. simpl.
  destruct (is_ident_char c) eqn:E; [|done]. simpl. by rewrite E.
Qed.

Lemma ident_run_split s :
  s = ident_run s ++ drop (length (ident_run s)) s
  /\ ends_identifier (drop (length (ident_run s)) s) = true.
Proof.
  induction s as [|c s [IH1 IH2]]; [done|]. simpl.
  destruct (is_ident_char c) eqn:E; simpl.
  - split; [by f_equal|done].
  - by rewrite E.
Qed.

Lemma split_go_skip name rest piece :
  split_go (length name) piece (name ++ rest) = split_go 0 piece rest.
Proof. induction name as [|c name IH]; [by destruct rest|done]. Qed.

Lemma token_at_literal c lit rest :
  has_token (c :: lit) = false -> literal_end rest ->
  token_at (c :: lit ++ rest) = None.
Proof.
  intros Hlit Hrest. destruct lit as [|d lit]; simpl in *.
  - destruct Hrest as [->|[r ->]]; [done|].
    by rewrite colon_not_ident_start, andb_false_r.
  - apply orb_false_iff in Hlit as [-> _]. done.
Qed.

Lemma has_token_tail c lit : has_token (c :: lit) = false -> has_token lit = false.
Proof.
  simpl. destruct lit; [done|]. by intros [_ ?]%orb_false_iff.
Qed.

Lemma split_go_literal lit rest piece :
  has_token lit = false -> literal_end rest ->
  split_go 0 piece (lit ++ rest) = split_go 0 (piece ++ lit) rest.
Proof.
  intros Hlit Hrest. revert piece.
  induction lit as [|c lit IH]; intros piece.
  - by rewrite app_nil_r.
  - change ((c :: lit) ++ rest) with (c :: lit ++ rest).
    cbn [split_go]. rewrite token_at_literal by done.
    rewrite IH by (by eapply has_token_tail).
    by rewrite <- (assoc_L (++)).
Qed.

Lemma split_go_token name rest piece :
  is_identifier name = true -> ends_identifier rest = true ->
  split_go 0 piece (COLON :: name ++ rest) = piece :: name :: split_go 0 [] rest.
Proof.
  intros Hname Hrest. destruct name as [|d name]; [done|].
  simpl in Hname. apply andb_true_iff in Hname as [Hd Hname].
  assert (Hrun : ident_run ((d :: name) ++ rest) = d :: name).
  { apply ident_run_app; [|done]. simpl.
    by rewrite (ident_start_char _ Hd). }
  cbn [split_go token_at]. change (d :: name ++ rest) with ((d :: name) ++ rest).
  cbn [app]. rewrite N.eqb_refl, Hd. cbn [andb].
  change (d :: name ++ rest) with ((d :: name) ++ rest).
  rewrite Hrun. by rewrite split_go_skip.
Qed.

Lemma flat_map_literal_end (segs : list (jsstring * jsstring)) :
  literal_end (flat_map (fun seg => COLON :: seg.1 ++ seg.2) segs).
Proof. destruct segs; [by left|right; simpl; eauto]. Qed.

Lemma ends_identifier_app lit rest :
  ends_identifier lit = true -> literal_end rest ->
  ends_identifier (lit ++ rest) = true.
Proof.
  intros Hl Hr. destruct lit; [|done]. simpl.
  by destruct Hr as [->|[r ->]].
Qed.

Lemma split_go_template lit0 segs piece :
  wf_template lit0 segs = true ->
  split_go 0 piece (template_text lit0 segs)
  = (piece ++ lit0) :: flat_map (fun seg => [seg.1; seg.2]) segs.
Proof.
  unfold wf_template, template_text. revert lit0 piece.
  induction segs as [|[name lit] segs IH]; intros lit0 piece
    [Hlit0%negb_true_iff Hsegs]%andb_true_iff.
  - cbn [flat_map]. rewrite split_go_literal; [done|done|by left].
  - simpl in Hsegs. apply andb_true_iff in Hsegs as [Hseg Hsegs].
    unfold wf_segment in Hseg. simpl in Hseg.
    apply andb_true_iff in Hseg as [[Hname Hlit]%andb_true_iff Hend].
    rewrite split_go_literal; [|done|apply flat_map_literal_end].
    cbn [flat_map app]. rewrite <- (assoc_L (++)).
    rewrite split_go_token; [|done|].
    + cbn [fst snd]. rewrite IH; [done|]. by rewrite Hlit, Hsegs.
    + apply ends_identifier_app; [done|apply flat_map_literal_end].
Qed.

Lemma split_params_template lit0 segs :
  wf_template lit0 segs = true ->
  split_params (template_text lit0 segs)
  = lit0 :: flat_map (fun seg => [seg.1; seg.2]) segs.
Proof. intros H. unfold split_params. by rewrite split_go_template. Qed.

End SplitFacts.

(** *** The compiled source and its parse *)

Section CompileFacts.

Lemma map_parts_cons i part rest names :
  map_parts i (part :: rest) names
  = if (i mod 2 =? 1)%nat then
      let '(out, names') := map_parts (S i) rest (names ++ [part]) in
      (SEGMENT_GROUP :: out, names')
    else
      let '(out, names') := map_parts (S i) rest names in
      (escapeRegex part :: out, names').
Proof. reflexivity. Qed.

Lemma map_parts_segments i (segs : list (jsstring * jsstring)) lit0 names :
  (i mod 2 = 0)%nat ->
  map_parts i (lit0 :: flat_map (fun seg => [seg.1; seg.2]) segs) names
  = (escapeRegex lit0
       :: flat_map (fun seg => [SEGMENT_GROUP; escapeRegex seg.2]) segs,
     names ++ map fst segs).
Proof.
  revert i lit0 names.
  induction segs as [|[name lit] segs IH]; intros i lit0 names Hi.
  - cbn [flat_map map_parts map]. rewrite Hi. cbn [Nat.eqb].
    by rewrite app_nil_r.
  - cbn [flat_map app fst snd].
    assert (H1 : (S i mod 2 = 1)%nat).
    { replace (S i) with (1 + i)%nat by done.
      rewrite Nat.Div0.add_mod, Hi by done. done. }
    assert (H2 : (S (S i) mod 2 = 0)%nat).
    { replace (S (S i)) with (2 + i)%nat by done.
      rewrite Nat.Div0.add_mod, Hi by done. done. }
    rewrite map_parts_cons, Hi. cbn [Nat.eqb].
    rewrite map_parts_cons, H1. cbn [Nat.eqb].
    rewrite (IH (S (S i)) lit (names ++ [name]) H2).
    cbn [map fst]. by rewrite <- (assoc_L (++)).
Qed.

(** The compiled value of a well-formed decomposition. *)
Lemma compilePattern_template lit0 segs :
  wf_template lit0 segs = true ->
  compilePattern (template_text lit0 segs)
  = {| regex := js "^" ++ (escapeRegex lit0
          ++ flat_map (fun seg => SEGMENT_GROUP ++ escapeRegex seg.2) segs)
          ++ js "$";
       paramNames := map fst segs |}.
Proof.
  intros Hwf. unfold compilePattern.
  rewrite split_params_template, map_parts_segments by done.
  cbn [app]. f_equal. f_equal. cbn [concat]. f_equal. f_equal.
  clear. induction segs as [|[name lit] segs IH]; [done|].
  cbn [flat_map concat app fst snd]. rewrite IH.
  by rewrite <- (assoc_L (++)).
Qed.

Lemma special_cases c :
  is_regex_special c = false ->
  (c =? CARET) = false /\ (c =? DOLLAR) = false /\ (c =? BACKSLASH) = false
  /\ (40 =? c) = false.
Proof.
  intros H. repeat split; apply N.eqb_neq; intros Heq; subst c;
    by vm_compute in H.
Qed.

Lemma parse_go_escape lit rest :
  parse_go 0 (escapeRegex lit ++ rest)
  = (fun prog => map RChar lit ++ prog) <$> parse_go 0 rest.
Proof.
  induction lit as [|c lit IH].
  - simpl. by destruct (parse_go 0 rest).
  - cbn [escapeRegex flat_map]. fold (escapeRegex lit).
    rewrite <- (assoc_L (++)).
    destruct (is_regex_special c) eqn:E.
    + cbn [app parse_go]. rewrite E.
      change (BACKSLASH =? CARET) with false.
      change (BACKSLASH =? DOLLAR) with false.
      change (BACKSLASH =? BACKSLASH) with true. cbn match.
      rewrite IH. by destruct (parse_go 0 rest).
    + destruct (special_cases c E) as (E1 & E2 & E3 & E4).
      cbn [app parse_go]. rewrite E1, E2, E3, E.
      change SEGMENT_GROUP with (40 :: js "[^/]+)").
      cbn [startsWith]. rewrite E4. cbn [andb].
      rewrite IH. by destruct (parse_go 0 rest).
Qed.

Lemma parse_go_segment rest :
  parse_go 0 (SEGMENT_GROUP ++ rest) = cons RSegment <$> parse_go 0 rest.
Proof. reflexivity. Qed.

Lemma parse_go_segments (segs : list (jsstring * jsstring)) rest :
  parse_go 0
    (flat_map (fun seg => SEGMENT_GROUP ++ escapeRegex seg.2) segs ++ rest)
  = (fun prog =>
       flat_map (fun seg => RSegment :: map RChar seg.2) segs ++ prog)
    <$> parse_go 0 rest.
Proof.
  induction segs as [|[name lit] segs IH].
  - simpl. by destruct (parse_go 0 rest).
  - cbn [flat_map fst snd]. rewrite <- !(assoc_L (++)).
    rewrite parse_go_segment, parse_go_escape, IH.
    destruct (parse_go 0 rest); [|done]. simpl.
    by rewrite <- (assoc_L (++)).
Qed.

(** Every compiled source lies in the modelled pattern syntax, and parses
    to the anchored sequence of literals and groups. *)
Lemma parse_regex_template lit0 segs :
  wf_template lit0 segs = true ->
  parse_regex (regex (compilePattern (template_text lit0 segs)))
  = Some (template_prog lit0 segs).
Proof.
  intros Hwf. rewrite compilePattern_template by done.
  cbn [regex]. unfold parse_regex.
  change (js "^" ++ ?x) with (CARET :: x).
  cbn [parse_go]. change (CARET =? CARET) with true. cbn match.
  rewrite <- (assoc_L (++)), parse_go_escape, parse_go_segments.
  reflexivity.
Qed.

Lemma group_count_chars lit prog :
  group_count (map RChar lit ++ prog) = group_count prog.
Proof. induction lit; [done|]. simpl. done. Qed.

Lemma group_count_template lit0 segs :
  group_count (template_prog lit0 segs) = length segs.
Proof.
  unfold template_prog. cbn [group_count]. rewrite group_count_chars.
  induction segs as [|[name lit] segs IH]; [done|].
  cbn [flat_map app group_count length fst snd].
  rewrite <- (assoc_L (++)), group_count_chars. by rewrite IH.
Qed.

End CompileFacts.

(** *** Every template has a decomposition *)

Section Decomposition.

Lemma token_at_Some s name :
  token_at s = Some name ->
  exists rest, s = COLON :: name ++ rest
    /\ is_identifier name = true /\ ends_identifier rest = true.
Proof.
  destruct s as [|c [|d s]]; [done..|]. cbn [token_at].
  destruct (c =? COLON) eqn:Ec; [|done].
  destruct (is_ident_start d) eqn:Ed; [|done].
  cbn [andb]. intros [= <-]. apply N.eqb_eq in Ec as ->.
  destruct (ident_run_split (d :: s)) as [Hs Hend].
  exists (drop (length (ident_run (d :: s))) (d :: s)).
  split; [by f_equal|]. split; [|done].
  pose proof (ident_run_all (d :: s)) as Hall.
  cbn [ident_run] in *. rewrite (ident_start_char _ Ed) in *.
  cbn [is_identifier]. rewrite Ed. cbn [forallb] in Hall.
  by apply andb_true_iff in Hall as [_ ->].
Qed.

Lemma has_token_cons2 c d s :
  has_token (c :: d :: s)
  = ((c =? COLON) && is_ident_start d) || has_token (d :: s).
Proof. reflexivity. Qed.

Lemma template_decomposition_len n :
  forall t, length t = n ->
  exists lit0 segs,
    wf_template lit0 segs = true /\ template_text lit0 segs = t.
Proof.
  induction n as [n IH] using lt_wf_ind. intros t Hlen.
  destruct t as [|c t]; [by exists [], []|].
  destruct (token_at (c :: t)) as [name|] eqn:Etok.
  - apply token_at_Some in Etok as (rest & Ht & Hname & Hend).
    injection Ht as -> ->.
    destruct (IH (length rest)) with (t := rest) as (lit & segs & Hwf & <-).
    { simpl in Hlen. rewrite length_app in Hlen. lia. }
    { done. }
    exists [], ((name, lit) :: segs).
    unfold wf_template in *. apply andb_true_iff in Hwf as [Hlit Hsegs].
    split; [|by unfold template_text; cbn; rewrite <- (assoc_L (++))].
    cbn [has_token negb forallb andb]. unfold wf_segment at 1. cbn [fst snd].
    rewrite Hname, Hlit, Hsegs. cbn [andb]. rewrite andb_true_r.
    unfold template_text in Hend. destruct lit; [done|exact Hend].
  - destruct (IH (length t)) with (t := t) as (lit & segs & Hwf & Ht);
      [simpl in Hlen; lia|done|].
    exists (c :: lit), segs. unfold wf_template in *.
    apply andb_true_iff in Hwf as [Hlit%negb_true_iff Hsegs].
    split; [|by unfold template_text in *; simpl; rewrite Ht].
    rewrite Hsegs, andb_true_r. apply negb_true_iff.
    destruct lit as [|d lit]; [done|].
    rewrite has_token_cons2, Hlit, orb_false_r.
    rewrite <- Ht in Etok. unfold template_text in Etok.
    cbn [app token_at] in Etok.
    by destruct ((c =? COLON) && is_ident_start d).
Qed.

Lemma template_decomposition t :
  exists lit0 segs,
    wf_template lit0 segs = true /\ template_text lit0 segs = t.
Proof. by apply (template_decomposition_len (length t)). Qed.

End Decomposition.

(** *** Matching a compiled pattern *)

Section MatchFacts.

Lemma rmatch_flag prog b s :
  Forall (fun n => n <> RStart) prog -> rmatch prog b s = rmatch prog false s.
Proof.
  intros Hprog. revert b s.
  induction Hprog as [|n prog Hn _ IH]; intros b s; [done|].
  destruct n; [done| |done|done].
  simpl. destruct s; [apply IH|done].
Qed.

Lemma rmatch_chars lit prog s :
  rmatch (map RChar lit ++ prog) false s
  = if startsWith s lit then rmatch prog false (drop (length lit) s) else None.
Proof.
  revert s. induction lit as [|c lit IH]; intros s; [done|].
  destruct s as [|d s]; [done|]. simpl.
  destruct (c =? d); [apply IH|done].
Qed.

Lemma try_lengths_Some k s n caps :
  try_lengths k s n = Some caps ->
  exists m caps', (1 <= m <= n)%nat /\ caps = take m s :: caps'
    /\ k (drop m s) = Some caps'.
Proof.
  induction n as [|n IH]; [done|]. simpl.
  destruct (k (drop (S n) s)) as [caps'|] eqn:E.
  - intros [= <-]. exists (S n), caps'. repeat split; [lia|lia|done].
  - intros (m & caps' & Hm & -> & Hk)%IH.
    exists m, caps'. repeat split; [lia|lia|done].
Qed.

Lemma try_lengths_is_Some k s n m :
  (1 <= m <= n)%nat -> is_Some (k (drop m s)) -> is_Some (try_lengths k s n).
Proof.
  intros Hm Hk. induction n as [|n IH]; [lia|]. simpl.
  destruct (k (drop (S n) s)) as [caps'|] eqn:E; [done|].
  apply IH. destruct (decide (m = S n)) as [->|]; [|lia].
  rewrite E in Hk. by destruct Hk.
Qed.

Lemma non_slash_run_take m s :
  (m <= length (non_slash_run s))%nat ->
  forallb (fun c => negb (c =? SLASH)) (take m s) = true
  /\ length (take m s) = m.
Proof.
  revert m. induction s as [|c s IH]; intros m Hm; simpl in Hm.
  - by replace m with 0%nat by lia.
  - destruct m as [|m]; [done|].
    destruct (c =? SLASH) eqn:E; simpl in Hm; [lia|].
    destruct (IH m) as [IH1 IH2]; [lia|]. simpl. by rewrite E, IH1, IH2.
Qed.

Lemma non_slash_run_prefix cap s :
  forallb (fun c => negb (c =? SLASH)) cap = true ->
  (length cap <= length (non_slash_run (cap ++ s)))%nat.
Proof.
  induction cap as [|c cap IH]; simpl; [lia|].
  intros [Hc Hcap]%andb_true_iff. apply negb_true_iff in Hc. rewrite Hc.
  simpl. specialize (IH Hcap). lia.
Qed.

Lemma template_body_cons lit0 name lit segs :
  template_body lit0 ((name, lit) :: segs)
  = map RChar lit0 ++ RSegment :: template_body lit segs.
Proof.
  unfold template_body. cbn [flat_map fst snd app].
  by rewrite <- (assoc_L (++)).
Qed.

Lemma template_body_no_start lit0 segs :
  Forall (fun n => n <> RStart) (template_body lit0 segs).
Proof.
  unfold template_body. rewrite !Forall_app. split_and!.
  - apply Forall_forall. by intros n (c & -> & _)%list_elem_of_fmap.
  - induction segs as [|[name lit] segs IH]; [done|].
    cbn [flat_map fst snd]. constructor; [done|].
    apply Forall_app. split; [|done].
    apply Forall_forall. by intros n (c & -> & _)%list_elem_of_fmap.
  - by constructor.
Qed.

Lemma template_body_sound segs : forall lit0 s caps,
  rmatch (template_body lit0 segs) false s = Some caps ->
  length caps = length segs
  /\ Forall (fun cap => is_segment cap = true) caps
  /\ s = fill lit0 (map snd segs) caps.
Proof.
  induction segs as [|[name lit] segs IH]; intros lit0 s caps.
  - unfold template_body. cbn [flat_map app]. rewrite rmatch_chars.
    destruct (startsWith s lit0) eqn:E; [|done].
    apply startsWith_spec in E as [t ->]. rewrite drop_app_length.
    destruct t; [|done]. simpl. intros [= <-]. by rewrite app_nil_r.
  - rewrite template_body_cons, rmatch_chars.
    destruct (startsWith s lit0) eqn:E; [|done].
    apply startsWith_spec in E as [t ->]. rewrite drop_app_length.
    cbn [rmatch].
    intros (m & caps' & Hm & -> & Hk)%try_lengths_Some.
    apply IH in Hk as (Hlen & Hsegs & Hfill).
    destruct (non_slash_run_take m t) as [Hrun Hlenm]; [lia|].
    split; [by simpl; rewrite Hlen|]. split.
    + constructor; [|done]. unfold is_segment. rewrite Hrun, andb_true_r.
      destruct (take m t); [simpl in Hlenm; lia|done].
    + cbn [map snd fill]. rewrite <- Hfill. by rewrite take_drop.
Qed.

Lemma template_body_complete segs : forall lit0 s caps,
  length caps = length segs ->
  Forall (fun cap => is_segment cap = true) caps ->
  s = fill lit0 (map snd segs) caps ->
  is_Some (rmatch (template_body lit0 segs) false s).
Proof.
  induction segs as [|[name lit] segs IH]; intros lit0 s caps Hlen Hcaps ->.
  - destruct caps; [|done]. unfold template_body. cbn [flat_map app map fill].
    rewrite rmatch_chars.
    replace (startsWith lit0 lit0) with true
      by (symmetry; apply startsWith_spec; exists []; by rewrite app_nil_r).
    by rewrite drop_all.
  - destruct caps as [|cap caps]; [done|].
    apply Forall_cons in Hcaps as [Hcap Hcaps].
    cbn [map snd fill]. rewrite template_body_cons, rmatch_chars.
    replace (startsWith _ lit0) with true
      by (symmetry; apply startsWith_spec; eauto).
    rewrite drop_app_length. cbn [rmatch].
    apply andb_true_iff in Hcap as [Hne Hrun].
    apply (try_lengths_is_Some _ _ _ (length cap)).
    + split; [destruct cap; [done|simpl; lia]|].
      by apply non_slash_run_prefix.
    + rewrite drop_app_length. apply (IH lit _ caps); [|done..].
      simpl in Hlen. lia.
Qed.

Lemma exec_from_anchored_later prog s : exec_from (RStart :: prog) false s = None.
Proof. induction s as [|c s IH]; [done|]. simpl. exact IH. Qed.

(** An anchored pattern can only match at index 0. *)
Lemma exec_from_template lit0 segs s :
  exec_from (template_prog lit0 segs) true s
  = rmatch (template_body lit0 segs) false s.
Proof.
  change (template_prog lit0 segs) with (RStart :: template_body lit0 segs).
  destruct s as [|c s]; cbn [exec_from rmatch].
  - rewrite (rmatch_flag _ true) by apply template_body_no_start.
    by destruct (rmatch _ _ _).
  - rewrite (rmatch_flag _ true) by apply template_body_no_start.
    rewrite exec_from_anchored_later. by destruct (rmatch _ _ _).
Qed.

Lemma str_match_template lit0 segs s :
  wf_template lit0 segs = true ->
  str_match s (regex (compilePattern (template_text lit0 segs)))
  = rmatch (template_body lit0 segs) false s.
Proof.
  intros Hwf. unfold str_match. rewrite parse_regex_template by done.
  cbn [mbind option_bind]. apply exec_from_template.
Qed.

End MatchFacts.

(** *** The compiler's contract *)

(** C3: for a template made of a first literal and [k] parameter tokens,
    each followed by a literal, [compilePattern] returns the [k] names in
    left-to-right order and a pattern that parses to the start anchor, the
    literals unit by unit (every syntax character escaped), one group of
    one or more non-slash units per token, and the end anchor: [k] capture
    groups. The pattern matches exactly the paths obtained by putting one
    non-empty slash-free segment in place of each token, and with no token
    it matches the template text and nothing else. *)
Theorem compilePattern_tokens lit0 segs :
  wf_template lit0 segs = true ->
  let c := compilePattern (template_text lit0 segs) in
  paramNames c = map fst segs
  /\ length (paramNames c) = length segs
  /\ parse_regex (regex c) = Some (template_prog lit0 segs)
  /\ group_count (template_prog lit0 segs) = length segs
  /\ (forall p caps,
        str_match p (regex c) = Some caps ->
        length caps = length segs
        /\ Forall (fun cap => is_segment cap = true) caps
        /\ p = fill lit0 (map snd segs) caps)
  /\ (forall p caps,
        length caps = length segs ->
        Forall (fun cap => is_segment cap = true) caps ->
        p = fill lit0 (map snd segs) caps ->
        is_Some (str_match p (regex c)))
  /\ (segs = [] ->
      paramNames c = []
      /\ forall p, regex_test (regex c) p = true <-> p = template_text lit0 segs).
Proof.
  intros Hwf c.
  assert (Hnames : paramNames c = map fst segs)
    by (unfold c; by rewrite compilePattern_template).
  split_and!.
  - done.
  - by rewrite Hnames, length_map.
  - by apply parse_regex_template.
  - apply group_count_template.
  - intros p caps. unfold c. rewrite str_match_template by done.
    apply template_body_sound.
  - intros p caps Hlen Hcaps Hp. unfold c.
    rewrite str_match_template by done.
    by apply (template_body_complete segs lit0 p caps).
  - intros ->. split; [by rewrite Hnames|].
    intros p. unfold regex_test, c.
    rewrite bool_decide_eq_true, str_match_template by done.
    unfold template_text. cbn [flat_map]. rewrite app_nil_r. split.
    + intros [caps Hcaps].
      by apply template_body_sound in Hcaps as (_ & _ & ->).
    + intros ->. by apply (template_body_complete [] lit0 lit0 []).
Qed.

Lemma compilePattern_tokens_witness :
  let lit0 := js "/users/" in
  let segs := [(js "id", js "/posts/"); (js "postId", js "")] in
  wf_template lit0 segs = true
  /\ template_text lit0 segs = js "/users/:id/posts/:postId"
  /\ paramNames (compilePattern (template_text lit0 segs))
     = [js "id"; js "postId"].
Proof.
  intros lit0 segs. split; [reflexivity|]. split; [reflexivity|].
  exact (proj1 (compilePattern_tokens lit0 segs eq_refl)).
Defined.

(** The decomposition of a template is the one its split computes, hence
    unique. *)
Lemma template_decomposition_unique lit0 segs lit0' segs' :
  wf_template lit0 segs = true -> wf_template lit0' segs' = true ->
  template_text lit0 segs = template_text lit0' segs' ->
  lit0 = lit0' /\ segs = segs'.
Proof.
  intros H1 H2 Heq.
  pose proof (split_params_template lit0 segs H1) as E1.
  pose proof (split_params_template lit0' segs' H2) as E2.
  rewrite Heq, E2 in E1. injection E1 as -> E1. split; [done|].
  clear -E1. revert segs E1.
  induction segs' as [|[n' l'] segs' IH]; intros [|[n l] segs] E;
    [done..|].
  cbn [flat_map fst snd app] in E. injection E as -> -> E.
  f_equal. by apply IH.
Qed.

(** ** Percent-decoding and route resolution *)

Section ResolveExamples.

Example decode_space : decodeURIComponent (js "hello%20world") = Some (js "hello world").
Proof. reflexivity. Qed.

Example decode_once : decodeURIComponent (js "a%2520b") = Some (js "a%20b").
Proof. reflexivity. Qed.

Example decode_two_octets : decodeURIComponent (js "%C3%A9") = Some [0xE9].
Proof. reflexivity. Qed.

Example decode_three_octets : decodeURIComponent (js "%E2%82%ACx") = Some [0x20AC; 120].
Proof. reflexivity. Qed.

Example decode_four_octets :
  decodeURIComponent (js "%F0%9F%98%80") = Some [0xD83D; 0xDE00].
Proof. reflexivity. Qed.

Example decode_lone_percent : decodeURIComponent (js "%") = None.
Proof. reflexivity. Qed.

Example decode_bad_hex : decodeURIComponent (js "%zz") = None.
Proof. reflexivity. Qed.

Example decode_overlong : decodeURIComponent (js "%C0%80") = None.
Proof. reflexivity. Qed.

Example decode_surrogate : decodeURIComponent (js "%ED%A0%80") = None.
Proof. reflexivity. Qed.

Example decode_truncated : decodeURIComponent (js "%E2%82") = None.
Proof. reflexivity. Qed.

Example resolve_post :
  resolve test_routes (Some test_fallback) (js "/users/1/posts/99")
  = Returned (Some (Resolved (Some (js "/users/:id/posts/:postId")) (js "post")
      None (<[js "postId" := js "99"]> (<[js "id" := js "1"]> ∅)))).
Proof. vm_compute. reflexivity. Qed.

Example resolve_fallback :
  resolve test_routes (Some test_fallback) (js "/nope")
  = Returned (Some (Resolved None (js "404") None ∅)).
Proof. reflexivity. Qed.

Example resolve_null :
  resolve test_routes None (js "/unknown") = Returned None.
Proof. reflexivity. Qed.

(** The assertions of sections 3 and 4 of the self-test. *)
Example self_test_resolve :
  let view_of pathname fb :=
    match resolve test_routes fb pathname with
    | Returned (Some r) => Some (rs_view r)
    | _ => None
    end in
  let param_of pathname name :=
    match resolve test_routes None pathname with
    | Returned (Some r) => rs_params r !! name
    | _ => None
    end in
  view_of (js "/") (Some test_fallback) = Some (js "home")
  /\ view_of (js "/users") (Some test_fallback) = Some (js "users")
  /\ view_of (js "/users/42") (Some test_fallback) = Some (js "user")
  /\ param_of (js "/users/42") (js "id") = Some (js "42")
  /\ view_of (js "/users/1/posts/99") (Some test_fallback) = Some (js "post")
  /\ param_of (js "/users/1/posts/99") (js "id") = Some (js "1")
  /\ param_of (js "/users/1/posts/99") (js "postId") = Some (js "99")
  /\ view_of (js "/unknown") (Some test_fallback) = Some (js "404")
  /\ resolve test_routes None (js "/unknown") = Returned None
  /\ param_of (js "/users/hello%20world") (js "id") = Some (js "hello world").
Proof. vm_compute. repeat split; reflexivity. Qed.

End ResolveExamples.

Section ResolveFacts.

Lemma obj_set_lookup_ne name v obj (k : jsstring) :
  k <> name -> obj_set name v obj !! k = obj !! k.
Proof.
  intros Hne. unfold obj_set. destruct (str_eqb _ _); [done|].
  by rewrite lookup_insert_ne.
Qed.

Lemma obj_set_lookup_eq name v obj :
  name <> js "__proto__" -> obj_set name v obj !! name = Some v.
Proof.
  intros Hne. unfold obj_set.
  destruct (str_eqb _ _) eqn:E; [by apply str_eqb_eq in E|].
  by rewrite lookup_insert_eq.
Qed.

Lemma obj_set_proto v obj : obj_set (js "__proto__") v obj = obj.
Proof. reflexivity. Qed.

Lemma params_of_notin names vals params (name : jsstring) :
  name ∉ names -> params_of names vals params !! name = params !! name.
Proof.
  unfold params_of. revert vals params.
  induction names as [|n names IH]; intros vals params Hn; [done|].
  destruct vals as [|v vals]; [done|].
  apply not_elem_of_cons in Hn as [Hne Hn]. cbn [zip zip_with foldl fst snd].
  rewrite IH by done. by rewrite obj_set_lookup_ne.
Qed.

Lemma params_of_last names vals params i (name : jsstring) :
  length names = length vals -> name <> js "__proto__" ->
  names !! i = Some name -> name ∉ drop (S i) names ->
  params_of names vals params !! name = vals !! i.
Proof.
  unfold params_of. revert vals params i.
  induction names as [|n names IH]; intros vals params i Hlen Hproto Hi Hlast;
    [done|].
  destruct vals as [|v vals]; [done|]. cbn [zip zip_with foldl fst snd].
  destruct i as [|i].
  - injection Hi as ->. simpl in Hlast.
    fold (params_of names vals (obj_set name v params)).
    rewrite params_of_notin by (by rewrite drop_0 in Hlast).
    by rewrite obj_set_lookup_eq.
  - simpl in Hi, Hlast. apply (IH vals _ i); [simpl in Hlen; lia|done..].
Qed.

Lemma params_of_dom names vals params (name : jsstring) :
  length names = length vals ->
  is_Some (params_of names vals params !! name)
  <-> (name ∈ names /\ name <> js "__proto__") \/ is_Some (params !! name).
Proof.
  unfold params_of. revert vals params.
  induction names as [|n names IH]; intros vals params Hlen.
  - simpl. rewrite elem_of_nil. tauto.
  - destruct vals as [|v vals]; [done|]. cbn [zip zip_with foldl fst snd].
    rewrite IH by (simpl in Hlen; lia). rewrite elem_of_cons.
    destruct (decide (name = n)) as [->|Hne].
    + destruct (decide (n = js "__proto__")) as [->|Hproto].
      * rewrite obj_set_proto. tauto.
      * rewrite obj_set_lookup_eq by done. split; [auto|].
        intros _. right. eauto.
    + rewrite obj_set_lookup_ne by done. tauto.
Qed.

(** The assignments succeed exactly when every capture decodes. *)
Lemma assign_params_mapM names : forall i caps params,
  length names = length (drop i caps) ->
  assign_params i names caps params
  = vals ← mapM decodeURIComponent (drop i caps);
    Some (params_of names vals params).
Proof.
  induction names as [|name names IH]; intros i caps params Hlen.
  - destruct (drop i caps); [done|done].
  - destruct (caps !! i) as [c|] eqn:Hc; cycle 1.
    { apply lookup_ge_None in Hc. rewrite drop_ge in Hlen by done. done. }
    rewrite (drop_S _ _ _ Hc) in *. cbn [assign_params mapM].
    rewrite Hc. change (default _ (Some c)) with c.
    destruct (decodeURIComponent c) as [v|]; [|done].
    cbn [mbind option_bind].
    rewrite IH by (simpl in Hlen; lia).
    by destruct (mapM decodeURIComponent (drop (S i) caps)).
Qed.

Lemma resolve_loop_skip fallback pre rest p :
  Forall (fun r => route_match r p = None) pre ->
  resolve_loop fallback (map compile_route (pre ++ rest)) p
  = resolve_loop fallback (map compile_route rest) p.
Proof.
  induction 1 as [|r pre Hr _ IH]; [done|].
  cbn [map app resolve_loop compile_route cr_pattern].
  unfold route_match in Hr. by rewrite Hr.
Qed.

(** A match of a compiled route yields one capture per parameter name. *)
Lemma route_match_length r p caps :
  route_match r p = Some caps ->
  length caps = length (paramNames (compilePattern (r_path r))).
Proof.
  unfold route_match.
  destruct (template_decomposition (r_path r)) as (lit0 & segs & Hwf & <-).
  rewrite str_match_template by done.
  intros (Hlen & _)%template_body_sound.
  rewrite compilePattern_template by done. cbn [paramNames].
  by rewrite length_map.
Qed.

End ResolveFacts.

(** C2 as stated fails: the first route matching ["/users/100%"] is
    ["/users/:id"], with the capture ["100%"], and [resolve] throws
    instead of returning that route's result. Besides, a parameter named
    [__proto__] gets no entry in the parameter object. *)
Lemma resolve_malformed_escape_throws :
  route_match (Route (js "/users/:id") (js "user") None)
    (normalizePath (js "/users/100%")) = Some [js "100%"]
  /\ resolve test_routes (Some test_fallback) (js "/users/100%")
     = Threw URIError
  /\ resolve [Route (js "/p/:__proto__") (js "p") None] None (js "/p/x")
     = Returned (Some (Resolved (Some (js "/p/:__proto__")) (js "p") None ∅)).
Proof. repeat split; reflexivity. Qed.

(** C2, amended: [resolve] normalises the pathname and takes the first
    route, in registration order, whose pattern matches. If every capture
    of that match percent-decodes, it returns that route's path, view and
    component with a parameter object whose keys are the parameter names
    (other than [__proto__], which assignment to a plain object ignores),
    each mapped to the decoding of its capture (the last occurrence wins
    for a repeated name); if some capture is malformed it throws URIError.
    If no route matches it returns the fallback's view with empty
    parameters, or null when there is no fallback. *)
Theorem resolve_first_match routes fallback pathname :
  let p := normalizePath pathname in
  (forall pre r post caps,
      routes = pre ++ r :: post ->
      Forall (fun r' => route_match r' p = None) pre ->
      route_match r p = Some caps ->
      let names := paramNames (compilePattern (r_path r)) in
      length caps = length names
      /\ match mapM decodeURIComponent caps with
         | Some vals =>
             exists params,
               resolve routes fallback pathname
               = Returned (Some (Resolved (Some (r_path r)) (r_view r)
                                   (r_component r) params))
               /\ (forall name,
                     is_Some (params !! name)
                     <-> name ∈ names /\ name <> js "__proto__")
               /\ (forall i name,
                     names !! i = Some name -> name ∉ drop (S i) names ->
                     name <> js "__proto__" ->
                     params !! name = vals !! i)
         | None => resolve routes fallback pathname = Threw URIError
         end)
  /\ (Forall (fun r => route_match r p = None) routes ->
      resolve routes fallback pathname = Returned (fallback_result <$> fallback)).
Proof.
  intros p. split.
  - intros pre r post caps -> Hpre Hr names.
    pose proof (route_match_length _ _ _ Hr) as Hlen. split; [done|].
    unfold resolve, compiled_routes. fold p.
    rewrite resolve_loop_skip by done.
    cbn [map resolve_loop compile_route cr_pattern cr_route].
    unfold route_match in Hr. rewrite Hr.
    rewrite assign_params_mapM by (by rewrite drop_0).
    rewrite drop_0.
    destruct (mapM decodeURIComponent caps) as [vals|] eqn:Hvals; [|done].
    cbn [mbind option_bind].
    apply length_mapM in Hvals.
    exists (params_of names vals ∅). split; [done|]. split.
    + intros name. rewrite params_of_dom by (unfold names; lia).
      rewrite lookup_empty. split; [intros [?|[? [=]]]; done|auto].
    + intros i name Hi Hlast Hproto.
      apply params_of_last; [unfold names; lia|done..].
  - intros Hall. unfold resolve, compiled_routes. fold p.
    rewrite <- (app_nil_r routes), resolve_loop_skip by done.
    by destruct fallback.
Qed.

Lemma resolve_first_match_witness :
  exists params,
    resolve test_routes None (js "/users/hello%20world")
    = Returned (Some (Resolved (Some (js "/users/:id")) (js "user") None params))
    /\ params !! js "id" = Some (js "hello world").
Proof.
  pose proof (proj1 (resolve_first_match test_routes None
                       (js "/users/hello%20world"))
      [Route (js "/") (js "home") None; Route (js "/users") (js "users") None]
      (Route (js "/users/:id") (js "user") None)
      [Route (js "/users/:id/posts/:postId") (js "post") None]
      [js "hello%20world"] eq_refl) as H.
  destruct H as [_ (params & Hres & _ & Hlook)].
  - repeat constructor.
  - reflexivity.
  - exists params. split; [exact Hres|].
    refine (Hlook 0%nat (js "id") eq_refl (not_elem_of_nil _) _).
    discriminate.
Defined.

(** ** Query strings *)

Section QueryExamples.

Example parse_two : usp_new (js "?q=hello&page=2")
  = [(js "q", js "hello"); (js "page", js "2")].
Proof. reflexivity. Qed.

Example parse_plus_and_escape : usp_new (js "a=b+c%21&&d")
  = [(js "a", js "b c!"); (js "d", js "")].
Proof. reflexivity. Qed.

Example parse_utf8 : usp_new (js "n=%C3%A9%E2%82%AC") = [(js "n", [0xE9; 0x20AC])].
Proof. reflexivity. Qed.

Example parse_bad_utf8 : usp_new (js "n=%C3x") = [(js "n", [0xFFFD; 120])].
Proof. reflexivity. Qed.

Example serialize_two :
  usp_toString [(js "a", js "b c!"); (js "d", [0xE9])] = js "a=b+c%21&d=%C3%A9".
Proof. reflexivity. Qed.

Example patch_adds_tab :
  patched_search (js "") [(js "tab", PString (js "posts"))] = js "?tab=posts".
Proof. reflexivity. Qed.

Example patch_removes_tab :
  patched_search (js "?tab=posts") [(js "tab", PNull)] = js "".
Proof. reflexivity. Qed.

Example patch_keeps_others :
  patched_search (js "?q=x&tab=posts&q=y") [(js "tab", PString (js "info"))]
  = js "?q=x&tab=info&q=y".
Proof. reflexivity. Qed.

End QueryExamples.

Section QueryFacts.

Implicit Types (l : list (jsstring * jsstring)) (k v : jsstring).

Lemma getAll_cons k nv l :
  usp_getAll k (nv :: l)
  = if str_eqb nv.1 (to_usv k) then nv.2 :: usp_getAll k l else usp_getAll k l.
Proof.
  unfold usp_getAll. cbn [List.filter]. by destruct (str_eqb _ _).
Qed.

(** Pairs of another name do not show under [k]. *)
Lemma getAll_without k name l :
  usp_getAll k
    (List.filter (fun nv => negb (str_eqb nv.1 name)) l)
  = if str_eqb name (to_usv k) then [] else usp_getAll k l.
Proof.
  induction l as [|nv l IH]; [by destruct (str_eqb _ _)|].
  cbn [List.filter]. destruct (str_eqb nv.1 name) eqn:E1; cbn [negb].
  - apply str_eqb_eq in E1. rewrite IH, getAll_cons, E1.
    by destruct (str_eqb name (to_usv k)).
  - rewrite !getAll_cons, IH.
    destruct (str_eqb name (to_usv k)) eqn:E2; [|done].
    apply str_eqb_eq in E2. rewrite <- E2, E1. done.
Qed.

Lemma getAll_delete k k' l :
  usp_getAll k (usp_delete k' l)
  = if str_eqb (to_usv k') (to_usv k) then [] else usp_getAll k l.
Proof. apply getAll_without. Qed.

Lemma getAll_set_go k name value l :
  usp_getAll k (usp_set_go name value l)
  = if str_eqb name (to_usv k) then [value] else usp_getAll k l.
Proof.
  induction l as [|nv l IH].
  - cbn [usp_set_go]. rewrite getAll_cons. cbn [fst snd].
    by destruct (str_eqb _ _).
  - cbn [usp_set_go]. destruct (str_eqb nv.1 name) eqn:E1.
    + apply str_eqb_eq in E1. rewrite !getAll_cons, getAll_without.
      cbn [fst snd]. rewrite E1. by destruct (str_eqb name (to_usv k)).
    + rewrite !getAll_cons, IH.
      destruct (str_eqb name (to_usv k)) eqn:E2; [|done].
      apply str_eqb_eq in E2. rewrite <- E2, E1. done.
Qed.

Lemma getAll_set k k' v l :
  usp_getAll k (usp_set k' v l)
  = if str_eqb (to_usv k') (to_usv k) then [to_usv v] else usp_getAll k l.
Proof. apply getAll_set_go. Qed.

(** One entry of the patch, seen from the key [k]. *)
Lemma getAll_patch_entry k kv l :
  usp_getAll k (apply_patch_entry l kv)
  = if str_eqb (to_usv kv.1) (to_usv k)
    then (if patch_removes kv.2 then [] else [to_usv (String_of kv.2)])
    else usp_getAll k l.
Proof.
  unfold apply_patch_entry. destruct (patch_removes kv.2).
  - apply getAll_delete.
  - apply getAll_set.
Qed.

(** Keys the patch does not mention keep their values. *)
Lemma getAll_patch_untouched k patch l :
  to_usv k ∉ map (fun kv => to_usv kv.1) patch ->
  usp_getAll k (apply_patch patch l) = usp_getAll k l.
Proof.
  unfold apply_patch. revert l.
  induction patch as [|kv patch IH]; intros l Hk; [done|].
  cbn [map] in Hk. apply not_elem_of_cons in Hk as [Hne Hk].
  cbn [foldl]. rewrite IH by done. rewrite getAll_patch_entry.
  by rewrite str_eqb_false.
Qed.

(** A key the patch mentions ends up removed or set. *)
Lemma getAll_patch_mentioned k pv patch l :
  NoDup (map (fun kv => to_usv kv.1) patch) ->
  (k, pv) ∈ patch ->
  usp_getAll k (apply_patch patch l)
  = if patch_removes pv then [] else [to_usv (String_of pv)].
Proof.
  unfold apply_patch. revert l.
  induction patch as [|kv patch IH]; intros l Hnd Hin;
    [by apply elem_of_nil in Hin|].
  cbn [map] in Hnd. apply NoDup_cons in Hnd as [Hfresh Hnd].
  cbn [foldl]. apply elem_of_cons in Hin as [<-|Hin].
  - fold (apply_patch patch (apply_patch_entry l (k, pv))).
    rewrite getAll_patch_untouched by done.
    rewrite getAll_patch_entry. cbn [fst snd]. by rewrite str_eqb_refl.
  - by apply IH.
Qed.

(** A string without surrogate code units is its own USVString. *)
Lemma to_usv_scalar (s : jsstring) :
  Forall (fun c => c < 0xD800 \/ (0xDFFF < c /\ c < 0x10000)) s ->
  to_usv s = s.
Proof.
  unfold to_usv, of_code_points. induction 1 as [|c s Hc _ IH]; [done|].
  cbn [code_points]. unfold in_range.
  assert ((0xD800 <=? c) && (c <=? 0xDBFF) = false) as ->.
  { apply andb_false_iff. destruct Hc as [?|[? ?]].
    - left. apply N.leb_gt. lia.
    - right. apply N.leb_gt. lia. }
  assert ((0xDC00 <=? c) && (c <=? 0xDFFF) = false) as ->.
  { apply andb_false_iff. destruct Hc as [?|[? ?]].
    - left. apply N.leb_gt. lia.
    - right. apply N.leb_gt. lia. }
  cbn [flat_map]. rewrite IH. unfold utf16_encode.
  assert ((c <? 0x10000) = true) as -> by (apply N.ltb_lt; lia).
  done.
Qed.

End QueryFacts.

(** ** Navigation engine *)

Section LedgerFacts.

Context {V : Type}.
Implicit Types (m : list (jsstring * V)) (k : jsstring) (v : V).

Lemma map_set_length m k v :
  length (map_set k v m)
  = if bool_decide (k ∈ m.*1) then length m else S (length m).
Proof.
  induction m as [|[k' v'] m IH]; [done|]. cbn [map_set fmap list_fmap fst].
  destruct (str_eqb k' k) eqn:E.
  - apply str_eqb_eq in E as ->.
    rewrite bool_decide_eq_true_2 by (by left). done.
  - assert (k' <> k) as Hne by (intros ->; by rewrite str_eqb_refl in E).
    cbn [length]. rewrite IH.
    rewrite (bool_decide_ext (k ∈ k' :: m.*1) (k ∈ m.*1));
      [by destruct (bool_decide _)|].
    rewrite elem_of_cons. split; [intros [Heq|?]; [congruence|done]|by right].
Qed.

Lemma map_set_length_le m k v : (length (map_set k v m) <= S (length m))%nat.
Proof. rewrite map_set_length. case_bool_decide; lia. Qed.

(** A key already present is updated where it stands. *)
Lemma map_set_keys_present m k v :
  k ∈ m.*1 -> (map_set k v m).*1 = m.*1.
Proof.
  induction m as [|[k' v'] m IH]; [by intros ?%elem_of_nil|].
  cbn [map_set fmap list_fmap fst]. intros Hk.
  destruct (str_eqb k' k) eqn:E.
  - by apply str_eqb_eq in E as ->.
  - cbn [fmap list_fmap fst]. f_equal. apply IH.
    apply elem_of_cons in Hk as [->|Hk]; [|done].
    by rewrite str_eqb_refl in E.
Qed.

(** A new key goes to the end. *)
Lemma map_set_fresh m k v : k ∉ m.*1 -> map_set k v m = m ++ [(k, v)].
Proof.
  induction m as [|[k' v'] m IH]; [done|].
  cbn [map_set fmap list_fmap fst]. intros [Hne Hk]%not_elem_of_cons.
  destruct (str_eqb k' k) eqn:E.
  - apply str_eqb_eq in E. congruence.
  - cbn [app]. f_equal. by apply IH.
Qed.

Lemma map_delete_head m k v : map_delete k ((k, v) :: m) = m.
Proof. cbn [map_delete]. by rewrite str_eqb_refl. Qed.

Lemma map_get_set m k v : map_get k (map_set k v m) = Some v.
Proof.
  induction m as [|[k' v'] m IH]; simpl.
  - by rewrite str_eqb_refl.
  - destruct (str_eqb k' k) eqn:E; simpl; [by rewrite str_eqb_refl|].
    by rewrite E.
Qed.

End LedgerFacts.

Section LedgerBound.

Implicit Types (m : list (jsstring * (Z * Z))).

(** What [ledger_save] does, case by case. *)
Lemma ledger_save_cases m p pos :
  (length m <= 50)%nat ->
  ((p ∈ m.*1) /\ ledger_save p pos m = map_set p pos m
     /\ (ledger_save p pos m).*1 = m.*1)
  \/ ((p ∉ m.*1) /\ (length m < 50)%nat
      /\ ledger_save p pos m = m ++ [(p, pos)])
  \/ ((p ∉ m.*1) /\ length m = 50%nat
      /\ ledger_save p pos m = drop 1 m ++ [(p, pos)]).
Proof.
  intros Hlen. unfold ledger_save. cbv zeta.
  destruct (decide (p ∈ m.*1)) as [Hin|Hnot].
  - left. pose proof (map_set_length m p pos) as Hl.
    rewrite bool_decide_eq_true_2 in Hl by done.
    replace (50 <? length (map_set p pos m))%nat with false
      by (symmetry; apply Nat.ltb_ge; lia).
    split; [done|]. split; [done|]. by apply map_set_keys_present.
  - right. rewrite map_set_fresh by done.
    destruct (decide (length m < 50)%nat) as [Hlt|Hge].
    + left. replace (50 <? length (m ++ [(p, pos)]))%nat with false
        by (symmetry; apply Nat.ltb_ge; rewrite length_app; simpl; lia).
      done.
    + right. replace (50 <? length (m ++ [(p, pos)]))%nat with true
        by (symmetry; apply Nat.ltb_lt; rewrite length_app; simpl; lia).
      split; [done|]. split; [lia|].
      destruct m as [|[k v] m]; [simpl in *; lia|].
      cbn [app]. by rewrite map_delete_head.
Qed.

Lemma ledger_save_bound m p pos :
  (length m <= 50)%nat -> (length (ledger_save p pos m) <= 50)%nat.
Proof.
  intros Hlen.
  destruct (ledger_save_cases m p pos Hlen)
    as [(Hin & -> & _)|[(_ & Hlt & ->)|(_ & Heq & ->)]].
  - rewrite map_set_length, bool_decide_eq_true_2 by done. lia.
  - rewrite length_app. simpl. lia.
  - rewrite length_app, length_drop. simpl. lia.
Qed.

End LedgerBound.

Section EngineFacts.

Variable cfg : config.

(** *** Which parts of the world each operation touches *)

Ltac world_ops :=
  unfold commit, store_setMany, store_set, scrollTo, setActiveNav, log_call,
    set_html_attr, host_step, same_router, committed in *.

Lemma same_router_refl w : same_router w w.
Proof. by repeat split. Qed.

Lemma same_router_trans w1 w2 w3 :
  same_router w1 w2 -> same_router w2 w3 -> same_router w1 w3.
Proof. unfold same_router. intros (?&?&?&?&?) (?&?&?&?&?). split_and!; congruence. Qed.

Lemma store_set_router k v w : same_router w (store_set cfg k v w).
Proof. world_ops. by destruct (_ && _). Qed.

Lemma log_call_router c w : same_router w (log_call c w).
Proof. done. Qed.

Lemma set_html_attr_router n v w : same_router w (set_html_attr n v w).
Proof. done. Qed.

Lemma host_step_router h w : same_router w (host_step h w).
Proof. by destruct h. Qed.

Lemma commit_router f v w :
  navController (commit cfg f v w) = navController w
  /\ signals (commit cfg f v w) = signals w
  /\ pending (commit cfg f v w) = pending w
  /\ scrollPositions (commit cfg f v w) = scrollPositions w
  /\ current (commit cfg f v w)
     = NavState (Some (rs_view (f_resolved f))) v (Some (f_appPath f))
         (f_searchStr f).
Proof.
  world_ops. cbn. repeat case_match; done.
Qed.

Lemma world_inv_same_router w w' :
  same_router w w' -> world_inv cfg w -> world_inv cfg w'.
Proof.
  intros (Hn & Hs & Hp & Hc & Hl) [I1 I2 I3 I4 I5 I6].
  split; rewrite ?Hn, ?Hs, ?Hp, ?Hc, ?Hl; done.
Qed.

(** *** The invariant is kept by every step *)

Lemma initial_inv root loc : world_inv cfg (initial cfg root loc).
Proof.
  split; cbn; try done; try (intros; lia).
  - by left.
Qed.

Lemma commit_inv f v w :
  world_inv cfg w -> frame_static cfg f -> world_inv cfg (commit cfg f v w).
Proof.
  intros [I1 I2 I3 I4 I5 I6] [F1 F2].
  destruct (commit_router f v w) as (Hn & Hs & Hp & Hl & Hc).
  split; rewrite ?Hn, ?Hs, ?Hp, ?Hc, ?Hl; cbn; try done.
  intros p [= <-]. by eexists.
Qed.

Lemma after_boot_inv f r w :
  world_inv cfg w -> frame_static cfg f ->
  world_inv cfg (after_boot cfg f r w).1.
Proof.
  intros Hw Hf. unfold after_boot. destruct r as [v|]; [|done].
  destruct (is_aborted _ _); [done|]. by apply commit_inv.
Qed.

Lemma suspend_inv f st w :
  world_inv cfg w -> frame_static cfg f ->
  (f_signal f < length (signals w))%nat ->
  world_inv cfg (suspend f st w).
Proof.
  intros [I1 I2 I3 I4 I5 I6] [F1 F2] Hsig.
  split; cbn; try done.
  apply Forall_app. split; [done|]. constructor; [|done]. by split.
Qed.

Lemma boot_step_inv f w :
  world_inv cfg w -> frame_static cfg f ->
  (f_signal f < length (signals w))%nat ->
  world_inv cfg (boot_step cfg f w).1.
Proof.
  intros Hw Hf Hsig. unfold boot_step. cbv zeta.
  assert (world_inv cfg (log_call ClearRoot w)) as Hw'
    by (eapply world_inv_same_router; [apply log_call_router|done]).
  destruct (rs_component _) as [c|]; [|by apply after_boot_inv].
  destruct (comp_boot c) as [[]|]; [| |by apply after_boot_inv].
  - apply suspend_inv; [|done..].
    eapply world_inv_same_router; [apply log_call_router|done].
  - eapply world_inv_same_router; [apply log_call_router|done].
Qed.

Lemma save_scroll_inv w : world_inv cfg w -> world_inv cfg (save_scroll w).
Proof.
  intros Hw. unfold save_scroll.
  destruct (path (current w)) as [p|]; [|done].
  destruct (truthy p); [|done].
  destruct Hw as [I1 I2 I3 I4 I5 I6].
  split; cbn; try done. by apply ledger_save_bound.
Qed.

Lemma save_scroll_router w :
  navController (save_scroll w) = navController w
  /\ signals (save_scroll w) = signals w
  /\ pending (save_scroll w) = pending w
  /\ current (save_scroll w) = current w.
Proof.
  unfold save_scroll. destruct (path (current w)) as [p|]; [|done].
  by destruct (truthy p).
Qed.

(** Aborting the controller in flight and creating the next one. *)
Lemma new_controller_inv w :
  world_inv cfg w ->
  let sw := new_controller (abort_in_flight w) in
  sw.1 = length (signals w)
  /\ world_inv cfg sw.2
  /\ length (signals sw.2) = S (length (signals w))
  /\ navController sw.2 = Some sw.1
  /\ current sw.2 = current w.
Proof.
  intros [I1 I2 I3 I4 I5 I6]. unfold new_controller, abort_in_flight.
  destruct (navController w) as [i|] eqn:Hn; cbn.
  - split; [apply length_insert|].
    split; [|split; [rewrite length_app, length_insert; simpl; lia|done]].
    split; cbn; try done.
    + intros j Hj Hne. rewrite length_app, length_insert in Hj. simpl in Hj.
      rewrite length_insert in Hne.
      assert (j < length (signals w))%nat as Hj'.
      { destruct (decide (j = length (signals w))); [congruence|lia]. }
      rewrite lookup_app_l by (by rewrite length_insert).
      destruct (decide (j = i)) as [->|Hji].
      * by rewrite list_lookup_insert_eq.
      * rewrite list_lookup_insert_ne by done. apply I1; [done|congruence].
    + intros j [= <-]. rewrite length_app, length_insert. simpl. lia.
    + eapply Forall_impl; [exact I3|]. intros f [Hf ?]. split; [|done].
      rewrite length_app, length_insert. lia.
  - split; [done|].
    split; [|split; [rewrite length_app; simpl; lia|done]].
    split; cbn; try done.
    + intros j Hj Hne. rewrite length_app in Hj. simpl in Hj.
      assert (j < length (signals w))%nat as Hj'.
      { destruct (decide (j = length (signals w))); [congruence|lia]. }
      rewrite lookup_app_l by done. apply I1; [done|congruence].
    + intros j [= <-]. rewrite length_app. simpl. lia.
    + eapply Forall_impl; [exact I3|]. intros f [Hf ?]. split; [|done].
      rewrite length_app. lia.
Qed.

Lemma search_string_ok s : search_ok (search_string s).
Proof.
  unfold search_string, search_ok.
  destruct (truthy s) eqn:Hs; [|by left]. cbn [andb].
  destruct (startsWith s (js "?")) eqn:E; [by right|]. by right.
Qed.

Lemma navigate_inv p o w :
  world_inv cfg w -> world_inv cfg (navigate cfg p o w).1.
Proof.
  intros Hw. unfold navigate.
  destruct (negb (root_present w)); [done|]. cbv zeta.
  destruct (resolve _ _ _) as [[r|]|e] eqn:Hres; [|done..].
  destruct (_ && _); [done|].
  destruct (new_controller_inv w Hw) as (Hsig & Hw1 & Hlen & Hnc & Hcur).
  destruct (new_controller (abort_in_flight w)) as [sig w1]. cbn [fst snd] in *.
  set (w2 := set_html_attr _ _ w1).
  set (w3 := store_set cfg _ _ w2).
  assert (same_router w1 w3) as H13.
  { eapply same_router_trans;
      [apply (set_html_attr_router "data-transitioning" (js "on") w1)|].
    apply store_set_router. }
  assert (world_inv cfg w3) as Hw3 by (by eapply world_inv_same_router).
  pose proof (save_scroll_inv w3 Hw3) as Hw4.
  destruct (save_scroll_router w3) as (Hn4 & Hs4 & Hp4 & Hc4).
  destruct H13 as (Hn3 & Hs3 & Hp3 & Hc3 & Hl3).
  set (w4 := save_scroll w3) in *.
  set (f := Frame sig AwaitUnboot _ _ r _ _).
  assert (frame_static cfg f) as Hf.
  { split; [|apply search_string_ok]. cbn [f_appPath f_resolved f].
    exact Hres. }
  assert (f_signal f < length (signals w4))%nat as Hfs.
  { cbn [f_signal f]. rewrite Hs4, Hs3, Hlen, Hsig. lia. }
  destruct (unboot (current w4)) as [h|]; [|by apply boot_step_inv].
  assert (world_inv cfg (log_call (CallUnboot h) w4)) as Hw5
    by (eapply world_inv_same_router; [apply log_call_router|done]).
  destruct (h_throws h); [by apply boot_step_inv|].
  by apply suspend_inv.
Qed.

Lemma navigateQuery_inv patch r w :
  world_inv cfg w -> world_inv cfg (navigateQuery cfg patch r w).1.
Proof. intros Hw. unfold navigateQuery. by apply navigate_inv. Qed.

Lemma navigatePath_inv p r w :
  world_inv cfg w -> world_inv cfg (navigatePath cfg p r w).1.
Proof. intros Hw. unfold navigatePath. by apply navigate_inv. Qed.

Lemma take_frame_Some sig fs f rest :
  take_frame sig fs = Some (f, rest) ->
  f ∈ fs /\ f_signal f = sig /\ (forall g, g ∈ rest -> g ∈ fs).
Proof.
  revert f rest. induction fs as [|g fs IH]; intros f rest; [done|].
  cbn [take_frame]. destruct (f_signal g =? sig)%nat eqn:E.
  - intros [= <- <-]. apply Nat.eqb_eq in E.
    split; [by left|]. split; [done|]. intros g' ?. by right.
  - destruct (take_frame sig fs) as [[f' rest']|]; [|done].
    cbn. intros [= <- <-]. destruct (IH f' rest' eq_refl) as (H1 & H2 & H3).
    split; [by right|]. split; [done|].
    intros g' [->|?]%elem_of_cons; [by left|right; auto].
Qed.

Lemma settle_inv sig r w : world_inv cfg w -> world_inv cfg (settle cfg sig r w).
Proof.
  intros Hw. unfold settle.
  destruct (take_frame sig (pending w)) as [[f rest]|] eqn:Htake; [|done].
  apply take_frame_Some in Htake as (Hin & _ & Hsub).
  pose proof (inv_frames _ _ Hw) as Hfr.
  rewrite Forall_forall in Hfr. destruct (Hfr f Hin) as [Hsig Hf].
  assert (world_inv cfg (set_pending rest w)) as Hw'.
  { destruct Hw as [I1 I2 I3 I4 I5 I6]. split; cbn; try done.
    apply Forall_forall. intros g Hg. apply Hfr. by apply Hsub. }
  unfold resume. destruct (f_stage f).
  - by apply boot_step_inv.
  - by apply after_boot_inv.
Qed.

Lemma stop_inv w : world_inv cfg w -> world_inv cfg (stop w).
Proof.
  intros Hw. unfold stop. cbv zeta.
  eapply world_inv_same_router; [|exact Hw].
  by destruct (unboot _).
Qed.

Lemma onGo_inv v w : world_inv cfg w -> world_inv cfg (onGo cfg v w).
Proof.
  intros Hw. unfold onGo. destruct (negb (go_truthy v)); [done|]. cbv zeta.
  assert (world_inv cfg (store_set cfg "ui.route.go" SNull w)) as Hw'
    by (eapply world_inv_same_router; [apply store_set_router|done]).
  destruct v as [s|o]; [by apply navigate_inv|].
  destruct (go_query o); [destruct (negb _)|];
    by (apply navigate_inv || apply navigateQuery_inv).
Qed.

Lemma step_inv w e : world_inv cfg w -> world_inv cfg (step cfg w e).
Proof.
  intros Hw. destruct e; cbn [step].
  - by apply navigate_inv.
  - by apply navigateQuery_inv.
  - by apply navigatePath_inv.
  - unfold start. cbv zeta. apply navigate_inv.
    by eapply world_inv_same_router; [|exact Hw].
  - by apply stop_inv.
  - destruct (listening w); [|done]. by apply navigate_inv.
  - destruct (listening w); [|done]. by apply navigate_inv.
  - destruct (_ && _); [|done].
    assert (world_inv cfg
              (set_store (<["ui.route.go"%string := SRequest value]> (store w)) w))
      as Hw' by (by eapply world_inv_same_router; [|exact Hw]).
    destruct (go_subscribed w); [by apply onGo_inv|done].
  - by apply settle_inv.
  - eapply world_inv_same_router; [apply host_step_router|done].
Qed.

Lemma run_inv w es : world_inv cfg w -> world_inv cfg (run cfg w es).
Proof.
  revert w. induction es as [|e es IH]; intros w Hw; [done|].
  cbn. apply IH. by apply step_inv.
Qed.

(** Every state reached from a fresh router satisfies the invariant. *)
Lemma reachable_inv root loc es :
  world_inv cfg (run cfg (initial cfg root loc) es).
Proof. apply run_inv, initial_inv. Qed.

End EngineFacts.

(** ** The navigation sequence *)

Section NavigationFacts.

Variable cfg : config.

Lemma commit_signals f v w : signals (commit cfg f v w) = signals w.
Proof. by destruct (commit_router cfg f v w) as (_ & ? & _). Qed.

Lemma commit_navController f v w :
  navController (commit cfg f v w) = navController w.
Proof. by destruct (commit_router cfg f v w) as (? & _). Qed.

Lemma commit_scrollPositions f v w :
  scrollPositions (commit cfg f v w) = scrollPositions w.
Proof. by destruct (commit_router cfg f v w) as (_ & _ & _ & ? & _). Qed.

(** A navigation whose signal is aborted commits nothing when its boot
    settles. *)
Lemma after_boot_aborted f r w :
  is_aborted (f_signal f) w = true ->
  (after_boot cfg f r w).1 = w.
Proof. intros Hab. unfold after_boot. destruct r; [|done]. by rewrite Hab. Qed.

Lemma boot_step_aborted f w :
  is_aborted (f_signal f) w = true ->
  committed (boot_step cfg f w).1 = committed w.
Proof.
  intros Hab. unfold boot_step. cbv zeta.
  assert (is_aborted (f_signal f) (log_call ClearRoot w) = true) as Hab'
    by done.
  destruct (rs_component _) as [c|];
    [|by rewrite (after_boot_aborted f _ _ Hab')].
  destruct (comp_boot c) as [[]|]; [reflexivity|reflexivity|].
  by rewrite (after_boot_aborted f _ _ Hab').
Qed.

Lemma resume_aborted f r w :
  is_aborted (f_signal f) w = true ->
  committed (resume cfg f r w).1 = committed w.
Proof.
  intros Hab. unfold resume. destruct (f_stage f).
  - by apply boot_step_aborted.
  - by rewrite (after_boot_aborted f r w Hab).
Qed.

Lemma settle_aborted sig r w :
  is_aborted sig w = true -> committed (settle cfg sig r w) = committed w.
Proof.
  intros Hab. unfold settle.
  destruct (take_frame sig (pending w)) as [[f rest]|] eqn:Htake; [|done].
  apply take_frame_Some in Htake as (_ & <- & _).
  by rewrite (resume_aborted f r (set_pending rest w) Hab).
Qed.

(** Once a navigation has its signal, nothing it does changes
    [navController], the signals or the ledger. *)
Lemma after_boot_controller f r w :
  navController (after_boot cfg f r w).1 = navController w
  /\ signals (after_boot cfg f r w).1 = signals w
  /\ scrollPositions (after_boot cfg f r w).1 = scrollPositions w.
Proof.
  unfold after_boot. destruct r; [|done]. destruct (is_aborted _ _); [done|].
  cbn [fst]. by rewrite commit_navController, commit_signals,
    commit_scrollPositions.
Qed.

Lemma boot_step_controller f w :
  navController (boot_step cfg f w).1 = navController w
  /\ signals (boot_step cfg f w).1 = signals w
  /\ scrollPositions (boot_step cfg f w).1 = scrollPositions w.
Proof.
  unfold boot_step. cbv zeta.
  destruct (rs_component _) as [c|];
    [|apply (after_boot_controller f _ (log_call ClearRoot w))].
  destruct (comp_boot c) as [[]|];
    [done|done|apply (after_boot_controller f _ (log_call ClearRoot w))].
Qed.

(** The shape of a call of [navigate]: it leaves the world alone, or it
    starts a navigation, which then holds the latest controller. *)
Lemma navigate_cases p o w :
  (navigate cfg p o w).1 = w
  \/ (navController (navigate cfg p o w).1 = Some (length (signals w))
      /\ scrollPositions (navigate cfg p o w).1 = scrollPositions (save_scroll w)).
Proof.
  unfold navigate. destruct (negb (root_present w)); [by left|]. cbv zeta.
  destruct (resolve _ _ _) as [[r|]|e]; [|by left..].
  destruct (_ && _); [by left|]. right.
  unfold new_controller. cbv zeta.
  set (w1 := set_navController _ _).
  set (w4 := save_scroll _).
  assert (navController w4 = Some (length (signals w))
          /\ scrollPositions w4 = scrollPositions (save_scroll w)) as [Hn Hl].
  { unfold w4, save_scroll, store_set, set_html_attr, w1, abort_in_flight.
    destruct (navController w); destruct (has_store cfg && _);
      cbn; rewrite ?length_insert;
      destruct (path (current w)) as [q|]; try done;
      destruct (truthy q); done. }
  set (f := Frame _ _ _ _ _ _ _).
  destruct (unboot (current w4)) as [h|].
  - destruct (h_throws h).
    + destruct (boot_step_controller f (log_call (CallUnboot h) w4))
        as (-> & _ & ->). done.
    + done.
  - destruct (boot_step_controller f w4) as (-> & _ & ->). done.
Qed.

(** A step that is not the settling of a promise changes the committed
    state only by starting a navigation. *)
Lemma step_cases e w :
  committed (step cfg w e) = committed w
  \/ (exists sig r, e = EvSettle sig r)
  \/ navController (step cfg w e) = Some (length (signals w)).
Proof.
  assert (Hnav : forall p o w',
            committed w' = committed w -> signals w' = signals w ->
            committed (navigate cfg p o w').1 = committed w
            \/ navController (navigate cfg p o w').1
               = Some (length (signals w))).
  { intros p o w' Hc Hs. destruct (navigate_cases p o w') as [->|[Hn _]].
    - by left.
    - right. by rewrite Hn, Hs. }
  assert (Hcall : forall p o w',
            committed w' = committed w -> signals w' = signals w ->
            committed (navigate cfg p o w').1 = committed w
            \/ (exists sig r, e = EvSettle sig r)
            \/ navController (navigate cfg p o w').1
               = Some (length (signals w))).
  { intros p o w' Hc Hs. destruct (Hnav p o w' Hc Hs); auto. }
  destruct e; cbn [step].
  - by apply Hcall.
  - unfold navigateQuery. cbv zeta. by apply Hcall.
  - unfold navigatePath. cbv zeta. by apply Hcall.
  - unfold start. cbv zeta. by apply Hcall.
  - left. unfold stop. cbn. destruct (unboot (current w)); reflexivity.
  - destruct (listening w); [|by left]. unfold onClick. by apply Hcall.
  - destruct (listening w); [|by left]. unfold onPop. by apply Hcall.
  - destruct (_ && _); [|by left].
    set (w1 := set_store _ w).
    assert (committed w1 = committed w /\ signals w1 = signals w) as [Hc1 Hs1].
    { split; [|done]. unfold committed, route_store, w1. cbn.
      by rewrite delete_insert_eq. }
    destruct (go_subscribed w); [|by left].
    unfold onGo. destruct (negb (go_truthy value)); [by left|]. cbv zeta.
    set (w2 := store_set cfg _ _ w1).
    assert (committed w2 = committed w /\ signals w2 = signals w) as [Hc2 Hs2].
    { rewrite <- Hc1, <- Hs1. unfold w2, store_set.
      destruct (has_store cfg && _); [|done]. split; [|done].
      unfold committed, route_store. cbn. by rewrite delete_insert_eq. }
    destruct value as [s|o]; [by apply Hcall|].
    destruct (go_query o) as [q|]; [destruct (negb _)|];
      [unfold navigateQuery; cbv zeta|..]; by apply Hcall.
  - right. left. eauto.
  - left. destruct h; reflexivity.
Qed.

Lemma search_string_fixed s : search_ok s -> search_string s = s.
Proof.
  unfold search_ok, search_string. intros [->|Hs]; [done|].
  rewrite Hs. by destruct s.
Qed.

End NavigationFacts.

(** *** Supersession *)


Lemma commit_effects cfg f v w :
  current (commit cfg f v w)
  = NavState (Some (rs_view (f_resolved f))) v (Some (f_appPath f))
      (f_searchStr f)
  /\ history (commit cfg f v w)
     = (f_replace f, history_url cfg f) :: history w
  /\ (has_store cfg = true -> store_throws w = false ->
      store (commit cfg f v w) !! "ui.route.view"%string
      = Some (SString (rs_view (f_resolved f)))
      /\ store (commit cfg f v w) !! "ui.route.path"%string
         = Some (SString (f_appPath f))
      /\ store (commit cfg f v w) !! "ui.route.params"%string
         = Some (SObject (rs_params (f_resolved f)))
      /\ store (commit cfg f v w) !! "ui.route.transitioning"%string
         = Some (SBool false))
  /\ (history_throws cfg (history_url cfg f) = false ->
      html_attrs (commit cfg f v w) !! "data-transitioning"%string
      = Some (js "off")
      /\ html_attrs (commit cfg f v w) !! "data-view"%string
         = Some (rs_view (f_resolved f)))
  /\ (commit_outcome cfg f = Returned tt ->
      FocusRoot ∈ calls (commit cfg f v w))
  /\ (history_throws cfg (history_url cfg f) = true ->
      html_attrs (commit cfg f v w) = html_attrs w
      /\ calls (commit cfg f v w) = calls w
      /\ scroll (commit cfg f v w) = scroll w
      /\ location (commit cfg f v w) = location w).
Proof.
  unfold commit, commit_outcome, store_setMany, scrollTo, setActiveNav,
    log_call, set_html_attr. cbn.
  split_and!.
  - repeat case_match; done.
  - repeat case_match; done.
  - intros -> ->. cbn. repeat case_match; cbn;
      rewrite ?lookup_insert_eq; split_and!; try done;
      repeat (rewrite lookup_insert_ne by done); by rewrite lookup_insert_eq.
  - intros ->. repeat case_match; cbn; split;
      try apply lookup_insert_eq;
      by rewrite lookup_insert_ne, lookup_insert_eq.
  - intros H. destruct (history_throws _ _); [done|].
    destruct (nav_throws cfg); [done|].
    repeat case_match; cbn; repeat constructor.
  - intros ->. by repeat case_match.
Qed.

(** C1: in every state a router can reach, (1) when the promise awaited by
    a navigation settles and that navigation's signal has been aborted,
    the navigation state, the history calls and the route facts in the
    store stay exactly as they are: the navigation stops there; (2) a
    settling promise changes any of the three only for the navigation
    that holds the latest controller, whose signal is not aborted; (3)
    every suspended navigation other than the latest has its signal
    aborted; (4) any other step changes any of the three only by
    starting a navigation, which is then the latest. *)
Theorem supersession_guard cfg root loc es :
  let w := run cfg (initial cfg root loc) es in
  (forall sig r,
      is_aborted sig w = true ->
      committed (settle cfg sig r w) = committed w)
  /\ (forall sig r,
        committed (settle cfg sig r w) <> committed w ->
        navController w = Some sig /\ is_aborted sig w = false)
  /\ (forall f,
        f ∈ pending w -> navController w <> Some (f_signal f) ->
        is_aborted (f_signal f) w = true)
  /\ (forall e,
        committed (step cfg w e) <> committed w ->
        (exists sig r, e = EvSettle sig r)
        \/ navController (step cfg w e) = Some (length (signals w))).
Proof.
  intros w. pose proof (reachable_inv cfg root loc es) as Hinv. fold w in Hinv.
  assert (Hlate : forall f, f ∈ pending w ->
            navController w <> Some (f_signal f) ->
            is_aborted (f_signal f) w = true).
  { intros f Hf Hne. pose proof (inv_frames _ _ Hinv) as Hfr.
    rewrite Forall_forall in Hfr. destruct (Hfr f Hf) as [Hsig _].
    unfold is_aborted. by rewrite (inv_latest _ _ Hinv _ Hsig Hne). }
  split_and!.
  - intros sig r. apply settle_aborted.
  - intros sig r Hchg.
    destruct (is_aborted sig w) eqn:Hab.
    { by rewrite settle_aborted in Hchg. }
    split; [|done]. unfold settle in Hchg.
    destruct (take_frame sig (pending w)) as [[f rest]|] eqn:Htake; [|done].
    apply take_frame_Some in Htake as (Hin & <- & _).
    destruct (decide (navController w = Some (f_signal f))) as [|Hne]; [done|].
    rewrite (Hlate f Hin Hne) in Hab. done.
  - exact Hlate.
  - intros e Hchg. by destruct (step_cases cfg e w) as [Heq|[Hs|Hn]]; auto.
Qed.

Lemma supersession_guard_witness :
  let es := [EvNavigate (js "/users/1") default_opts;
             EvNavigate (js "/users/2") default_opts;
             EvSettle 1 (Fulfilled None)] in
  let w := run sample_cfg sample_world es in
  is_aborted 0 w = true
  /\ path (current w) = Some (js "/users/2")
  /\ history w = [(false, js "/users/2")]
  /\ committed (settle sample_cfg 0 (Fulfilled (Some (Handle 7 false))) w)
     = committed w.
Proof.
  intros es w. split; [reflexivity|]. split; [reflexivity|].
  split; [reflexivity|].
  apply (proj1 (supersession_guard sample_cfg true (js "/", js "") es)).
  reflexivity.
Defined.

(** The race of the specification, run step by step: A starts, B starts
    before A's boot is done, B's boot is done first, then A's. Only B is
    committed. *)
Example supersession_race :
  let w := run sample_cfg sample_world
             [EvNavigate (js "/users/1") default_opts;
              EvNavigate (js "/users/2") default_opts;
              EvSettle 1 (Fulfilled None);
              EvSettle 0 (Fulfilled None)] in
  getCurrent w = (Some (js "user"), Some (js "/users/2"), js "")
  /\ history w = [(false, js "/users/2")]
  /\ store w !! "ui.route.path"%string = Some (SString (js "/users/2"))
  /\ store w !! "ui.route.params"%string
     = Some (SObject (<[js "id" := js "2"]> ∅))
  /\ store w !! "ui.route.transitioning"%string = Some (SBool false)
  /\ pending w = [].
Proof. vm_compute. repeat split; reflexivity. Qed.

(** *** Failure of a collaborator *)

(** A rejected boot ends [navigate] on the spot, whatever the state. *)
Lemma after_boot_rejected cfg f w :
  after_boot cfg f Rejected w = (w, Completed (Threw CollaboratorError)).
Proof. reflexivity. Qed.

Lemma settle_boot_rejected cfg sig w f rest :
  take_frame sig (pending w) = Some (f, rest) -> f_stage f = AwaitBoot ->
  settle cfg sig Rejected w = set_pending rest w.
Proof. intros Htake Hst. unfold settle, resume. by rewrite Htake, Hst. Qed.

(** C5 fails on the code: [await component.boot(...)] is not guarded. For
    the only navigation in flight, whose boot rejects, nothing after the
    boot runs: no history call, no focus and no scroll, [current] still
    describes the state before the navigation, and the transition that
    was signalled at the start is never ended. *)
Theorem boot_rejection_short_circuits :
  let w0 := sample_world in
  let w1 := step sample_cfg w0 (EvNavigate (js "/users/1") default_opts) in
  let w2 := step sample_cfg w1 (EvSettle 0 Rejected) in
  is_resolved sample_cfg (js "/users/1")
  /\ navController w2 = Some 0%nat /\ is_aborted 0 w2 = false
  /\ pending w2 = []
  /\ current w2 = current w0
  /\ history w2 = []
  /\ calls w2 = [CallBoot (Component 2 (Some BootAsync))
                   (<[js "id" := js "1"]> ∅) 0; ClearRoot]
  /\ html_attrs w2 !! "data-transitioning"%string = Some (js "on")
  /\ store w2 !! "ui.route.transitioning"%string = Some (SBool true).
Proof.
  vm_compute. split; [by eexists|]. repeat split; reflexivity.
Qed.

(** The guarded collaborator calls, for comparison: a store whose
    methods throw and an unmount that rejects do not stop the sequence. *)
Lemma store_failure_swallowed cfg f v w :
  store_throws w = true ->
  commit_outcome cfg f = Returned tt ->
  store (commit cfg f v w) = store w
  /\ history (commit cfg f v w)
     = (f_replace f, history_url cfg f) :: history w
  /\ FocusRoot ∈ calls (commit cfg f v w)
  /\ html_attrs (commit cfg f v w) !! "data-transitioning"%string
     = Some (js "off").
Proof.
  intros Hthrows Hout. unfold commit_outcome in Hout.
  unfold commit, store_setMany, scrollTo, setActiveNav,
    log_call, set_html_attr. cbn. rewrite Hthrows, andb_false_r.
  destruct (history_throws _ _); [done|].
  destruct (nav_throws cfg); [done|].
  repeat case_match; cbn; split_and!; try done;
    try apply lookup_insert_eq; repeat constructor.
Qed.

Lemma unboot_failure_swallowed cfg f w :
  f_stage f = AwaitUnboot ->
  resume cfg f Rejected w = resume cfg f (Fulfilled None) w.
Proof. intros Hst. unfold resume. by rewrite Hst. Qed.

(** *** Stopping the router *)



(** *** Navigating to the route already shown *)

(** C7: in every state a router can reach, a call of [navigate] whose
    base-stripped, normalised target path is the current path and whose
    search string (as given, or with its question mark prefixed) is the
    current search changes nothing at all: no collaborator is called, no
    history call is made, the store and the navigation state stay as they
    are, and no navigation is left in flight. The call does not suspend,
    and it returns normally whenever the root element exists. *)
Theorem navigate_same_route_noop cfg root loc es pathname o :
  let w := run cfg (initial cfg root loc) es in
  path (current w)
  = Some (normalizePath (stripBase (BASE_PATH cfg) pathname)) ->
  opt_search o = search (current w)
  \/ search_string (opt_search o) = search (current w) ->
  (navigate cfg pathname o w).1 = w
  /\ (navigate cfg pathname o w).2 <> Suspended
  /\ (root_present w = true ->
      (navigate cfg pathname o w).2 = Completed (Returned tt)).
Proof.
  intros w Hpath Hsearch.
  pose proof (reachable_inv cfg root loc es) as Hinv. fold w in Hinv.
  assert (search_string (opt_search o) = search (current w)) as Hs.
  { destruct Hsearch as [Hraw|Hs]; [|done].
    rewrite Hraw. apply search_string_fixed, (inv_search _ _ Hinv). }
  destruct (inv_path _ _ Hinv _ Hpath) as [r Hr].
  unfold navigate. destruct (root_present w); cbn [negb]; [|done].
  cbv zeta. rewrite Hr, Hs.
  rewrite bool_decide_eq_true_2 by done. rewrite str_eqb_refl. done.
Qed.

Lemma navigate_same_route_noop_witness :
  let es := [EvNavigate (js "/users/1") (NavOpts false (js "tab=posts") false);
             EvSettle 0 (Fulfilled None)] in
  let w := run sample_cfg sample_world es in
  getCurrent w = (Some (js "user"), Some (js "/users/1"), js "?tab=posts")
  /\ (navigate sample_cfg (js "users/1/") (NavOpts true (js "?tab=posts") true) w).1
     = w.
Proof.
  intros es w. split; [reflexivity|].
  apply (navigate_same_route_noop sample_cfg true (js "/", js "") es
           (js "users/1/") (NavOpts true (js "?tab=posts") true)).
  - reflexivity.
  - left. reflexivity.
Defined.

(** *** The scroll ledger *)

(** C9: in every state a router can reach the ledger holds at most 50
    entries. A call of [navigate] leaves it alone or records the scroll
    offset of the outgoing path, and recording works as follows: a path
    already in the ledger keeps its place (no entry is added or evicted);
    a new path is appended; and when that would make 51 entries the first
    one, the oldest inserted, is dropped. *)
Theorem scroll_ledger_bounded cfg root loc es :
  let w := run cfg (initial cfg root loc) es in
  let m := scrollPositions w in
  (length m <= 50)%nat
  /\ (forall pathname o,
        let m' := scrollPositions (navigate cfg pathname o w).1 in
        (length m' <= 50)%nat
        /\ (m' = m
            \/ exists p, path (current w) = Some p
                 /\ m' = ledger_save p (scroll w) m))
  /\ (forall p pos,
        ((p ∈ m.*1) ->
           (ledger_save p pos m).*1 = m.*1
           /\ map_get p (ledger_save p pos m) = Some pos)
        /\ ((p ∉ m.*1) -> (length m < 50)%nat ->
              ledger_save p pos m = m ++ [(p, pos)])
        /\ ((p ∉ m.*1) -> length m = 50%nat ->
              ledger_save p pos m = drop 1 m ++ [(p, pos)])).
Proof.
  intros w m.
  pose proof (reachable_inv cfg root loc es) as Hinv. fold w in Hinv.
  pose proof (inv_ledger _ _ Hinv) as Hlen. fold m in Hlen.
  split; [done|]. split.
  - intros pathname o m'. split.
    + apply (inv_ledger cfg). by apply navigate_inv.
    + unfold m'. destruct (navigate_cases cfg pathname o w) as [->|[_ ->]];
        [by left|].
      unfold save_scroll. destruct (path (current w)) as [p|]; [|by left].
      destruct (truthy p); [|by left]. right. by exists p.
  - intros p pos.
    destruct (ledger_save_cases m p pos Hlen)
      as [(Hin & Heq & Hkeys)|[(Hout & Hlt & Heq)|(Hout & Hfull & Heq)]].
    + split_and!; [|done|done]. intros _. split; [done|].
      rewrite Heq. apply map_get_set.
    + split_and!; [done| |intros _ ?; lia]. done.
    + split_and!; [done|intros _ ?; lia|]. done.
Qed.

Lemma scroll_ledger_bounded_witness :
  let es := [EvNavigate (js "/a") default_opts; EvHost (HostScroll 0 120)] in
  let w := run sample_cfg sample_world es in
  scrollPositions w = []
  /\ ledger_save (js "/a") (0, 120)%Z (scrollPositions w)
     = [(js "/a", (0, 120)%Z)]
  /\ scrollPositions (navigate sample_cfg (js "/") default_opts w).1
     = [(js "/a", (0, 120)%Z)].
Proof.
  intros es w. split; [reflexivity|]. split; [|reflexivity].
  apply (proj1 (proj2 (proj2 (proj2 (scroll_ledger_bounded sample_cfg true
           (js "/", js "") es)) (js "/a") (0, 120)%Z))).
  - apply not_elem_of_nil.
  - vm_compute. lia.
Defined.

(** Eviction at the bound, on a ledger of 50 paths: the first one goes. *)
Example ledger_evicts_oldest :
  let m := map (fun i => ([SLASH; 48 + N.of_nat i], (0, 0)%Z)) (seq 0 50) in
  length m = 50%nat
  /\ ledger_save (js "/new") (1, 2)%Z m = drop 1 m ++ [(js "/new", (1, 2)%Z)]
  /\ ledger_save [SLASH; 48] (1, 2)%Z m = ([SLASH; 48], (1, 2)%Z) :: drop 1 m.
Proof. vm_compute. repeat split; reflexivity. Qed.

(** *** Malformed escapes *)

(** C10: [resolve] is not total. On ["/users/%"] and on ["/users/%zz"] the
    route ["/users/:id"] matches, the capture is a malformed escape, and
    [resolve] throws URIError; a [navigate] to such a path throws the
    same error and changes nothing. *)
Theorem resolve_throws_on_malformed_escape :
  resolve test_routes (Some test_fallback) (js "/users/%") = Threw URIError
  /\ resolve test_routes (Some test_fallback) (js "/users/%zz") = Threw URIError
  /\ route_match (Route (js "/users/:id") (js "user") None) (js "/users/%")
     = Some [js "%"]
  /\ decodeURIComponent (js "%") = None
  /\ decodeURIComponent (js "%zz") = None
  /\ navigate sample_cfg (js "/users/%") default_opts sample_world
     = (sample_world, Completed (Threw URIError))
  /\ exists pathname,
       resolve [Route (js "/users/:id") (js "user") None] None pathname
       = Threw URIError.
Proof.
  split_and!; try reflexivity. by exists (js "/users/%").
Qed.

(** *** Patching the query *)

Section NavigateQueryFacts.

Variable cfg : config.

Lemma after_boot_current f r w :
  current (after_boot cfg f r w).1 = current w
  \/ path (current (after_boot cfg f r w).1) = Some (f_appPath f).
Proof.
  unfold after_boot. destruct r; [|by left].
  destruct (is_aborted _ _); [by left|]. right. cbn [fst].
  by destruct (commit_router cfg f v w) as (_ & _ & _ & _ & ->).
Qed.

Lemma boot_step_current f w :
  current (boot_step cfg f w).1 = current w
  \/ path (current (boot_step cfg f w).1) = Some (f_appPath f).
Proof.
  unfold boot_step. cbv zeta.
  destruct (rs_component _) as [c|];
    [|apply (after_boot_current f _ (log_call ClearRoot w))].
  destruct (comp_boot c) as [[]|];
    [by left|by left|apply (after_boot_current f _ (log_call ClearRoot w))].
Qed.

(** After a call of [navigate] the current path is what it was, or the
    target of the call. *)
Lemma navigate_current p o w :
  current (navigate cfg p o w).1 = current w
  \/ path (current (navigate cfg p o w).1)
     = Some (normalizePath (stripBase (BASE_PATH cfg) p)).
Proof.
  unfold navigate. destruct (negb (root_present w)); [by left|]. cbv zeta.
  destruct (resolve _ _ _) as [[r|]|e]; [|by left..].
  destruct (_ && _); [by left|].
  unfold new_controller. cbv zeta.
  set (w4 := save_scroll _).
  assert (current w4 = current w) as Hc.
  { unfold w4, save_scroll, store_set, set_html_attr, abort_in_flight.
    destruct (navController w); destruct (has_store cfg && _); cbn;
      destruct (path (current w)) as [q|]; try done;
      destruct (truthy q); done. }
  set (f := Frame _ _ _ _ _ _ _).
  destruct (unboot (current w4)) as [h|].
  - destruct (h_throws h); [|by left].
    destruct (boot_step_current f (log_call (CallUnboot h) w4)) as [-> | ->];
      [by left|by right].
  - destruct (boot_step_current f w4) as [-> | ->]; [by left|by right].
Qed.

End NavigateQueryFacts.

(** [navigateQuery] hands the current path to [navigate], which strips
    the base path and normalises once more. After [navigate("/a//")] the
    current path is ["/a/"] (one slash removed, the route ["/a"]
    resolved), and a patch of the query moves it to ["/a"]. *)
Lemma navigateQuery_changes_path :
  let w := run sample_cfg sample_world [EvNavigate (js "/a//") default_opts] in
  let w' := (navigateQuery sample_cfg [(js "tab", PString (js "posts"))]
               None w).1 in
  path (current w) = Some (js "/a/")
  /\ path (current w') = Some (js "/a")
  /\ search (current w') = js "?tab=posts"
  /\ path (current w') <> path (current w).
Proof. vm_compute. repeat split; try reflexivity. discriminate. Qed.

(** C8: [navigateQuery] does not always keep the path, against its own
    description ("Patch query parameters without changing the path").
    Under the base path ["/a"] a router is on the route ["/about"];
    [navigateQuery({tab: 'posts'})] passes that application path to
    [navigate], which takes the base path off a second time, resolves
    ["/bout"] and commits it: the view, the path and the URL in the
    history are those of another route. Without a route ["/bout"] the
    same call resolves nothing and the query is not patched at all. *)
Theorem navigateQuery_moves_path :
  let w := run based_cfg (initial based_cfg true (js "/a/about", js ""))
             [EvNavigate (js "/a/about") default_opts] in
  let patch := [(js "tab", PString (js "posts"))] in
  let w' := (navigateQuery based_cfg patch None w).1 in
  let lone := {| routes := [Route (js "/about") (js "about") None];
                 fallback := None;
                 has_store := true;
                 BASE_PATH := BASE_PATH based_cfg;
                 origin := origin based_cfg;
                 url_query := sample_url_query;
                 url_parts := sample_url_parts;
                 history_throws := sample_history_throws;
                 nav_links := [] |} in
  let u := run lone (initial lone true (js "/a/about", js ""))
             [EvNavigate (js "/a/about") default_opts] in
  BASE_PATH based_cfg = js "/a"
  /\ getCurrent w = (Some (js "about"), Some (js "/about"), js "")
  /\ history w = [(false, js "/a/about")]
  /\ stripBase (js "/a") (js "/about") = js "/bout"
  /\ getCurrent w' = (Some (js "bout"), Some (js "/bout"), js "?tab=posts")
  /\ history w' = [(true, js "/a/bout?tab=posts"); (false, js "/a/about")]
  /\ path (current w') <> path (current w)
  /\ getCurrent u = (Some (js "about"), Some (js "/about"), js "")
  /\ navigateQuery lone patch None u = (u, Completed (Returned tt)).
Proof. vm_compute. repeat split; try reflexivity. discriminate. Qed.

(** What holds of the merge: [navigateQuery] parses the current search string and goes
    through the patch, whose keys are distinct: a key mapped to [null],
    [undefined] or [""] ends with no value, any other key with exactly
    its value coerced to a string, and a key the patch does not mention
    keeps the values it had. It then calls [navigate] with the current
    path as pathname, the merged query (with a question mark unless it
    is empty) as search, and the replace option, true by default. When
    base-stripping and normalisation leave the current path as it is,
    the path after the call is that same path. *)
Theorem navigateQuery_merges cfg w patch replace :
  NoDup (map (fun kv => to_usv kv.1) patch) ->
  let cur := usp_new (strip_question (search (current w))) in
  let merged := apply_patch patch cur in
  let prefixed :=
    if truthy (usp_toString merged) then QUESTION :: usp_toString merged
    else [] in
  (forall k v,
      (k, v) ∈ patch ->
      usp_getAll k merged
      = if patch_removes v then [] else [to_usv (String_of v)])
  /\ (forall k,
        to_usv k ∉ map (fun kv => to_usv kv.1) patch ->
        usp_getAll k merged = usp_getAll k cur)
  /\ (forall p,
        path (current w) = Some p -> truthy p = true ->
        navigateQuery cfg patch replace w
        = navigate cfg p (NavOpts (default true replace) prefixed false) w
        /\ (normalizePath (stripBase (BASE_PATH cfg) p) = p ->
            path (current (navigateQuery cfg patch replace w).1) = Some p)).
Proof.
  intros Hnd cur merged prefixed. split_and!.
  - intros k v Hin. by apply getAll_patch_mentioned.
  - intros k Hk. by apply getAll_patch_untouched.
  - intros p Hp Htruthy.
    assert (navigateQuery cfg patch replace w
            = navigate cfg p (NavOpts (default true replace) prefixed false) w)
      as Heq.
    { unfold navigateQuery. cbv zeta. by rewrite Hp, Htruthy. }
    split; [done|]. intros Hfix. rewrite Heq.
    destruct (navigate_current cfg p
                (NavOpts (default true replace) prefixed false) w) as [-> | ->];
      [done|by rewrite Hfix].
Qed.

Lemma navigateQuery_merges_witness :
  let w := run sample_cfg sample_world
             [EvNavigate (js "/search") (NavOpts false (js "?q=x&tab=posts") false);
              EvSettle 0 (Fulfilled None)] in
  let patch := [(js "tab", PNull); (js "page", POther (js "2"))] in
  let merged :=
    apply_patch patch (usp_new (strip_question (search (current w)))) in
  search (current w) = js "?q=x&tab=posts"
  /\ usp_getAll (js "tab") merged = []
  /\ usp_getAll (js "page") merged = [js "2"]
  /\ usp_getAll (js "q") merged = [js "x"]
  /\ path (current (navigateQuery sample_cfg patch None w).1)
     = Some (js "/search").
Proof.
  intros w patch merged.
  assert (NoDup (map (fun kv : jsstring * patch_value => to_usv kv.1) patch))
    as Hnd.
  { apply (bool_decide_unpack _). vm_compute. exact I. }
  destruct (navigateQuery_merges sample_cfg w patch None Hnd)
    as (Hin & Hout & Hnav).
  split; [reflexivity|].
  split; [exact (Hin (js "tab") PNull ltac:(repeat constructor))|].
  split; [exact (Hin (js "page") (POther (js "2")) ltac:(repeat constructor))|].
  split; [reflexivity|].
  exact (proj2 (Hnav (js "/search") eq_refl eq_refl) eq_refl).
Defined.

(** The scenario of the specification: on ["/search"] without a query,
    patching [tab] to ["posts"] gives the search ["?tab=posts"] through a
    replaced history entry, and patching it to [null] gives the empty
    search again. *)
Example navigateQuery_scenario :
  let w1 := run sample_cfg sample_world
              [EvNavigate (js "/search") default_opts;
               EvSettle 0 (Fulfilled None);
               EvNavigateQuery [(js "tab", PString (js "posts"))] None;
               EvSettle 1 (Fulfilled None)] in
  let w2 := run sample_cfg w1
              [EvNavigateQuery [(js "tab", PNull)] None;
               EvSettle 2 (Fulfilled None)] in
  getCurrent w1 = (Some (js "search"), Some (js "/search"), js "?tab=posts")
  /\ history w1 = [(true, js "/search?tab=posts"); (false, js "/search")]
  /\ store w1 !! "ui.route.query"%string
     = Some (SObject (<[js "tab" := js "posts"]> ∅))
  /\ getCurrent w2 = (Some (js "search"), Some (js "/search"), js "")
  /\ store w2 !! "ui.route.query"%string = Some (SObject ∅).
Proof. vm_compute. repeat split; reflexivity. Qed.

(** * Further properties of the code *)

(** ** Paths *)

Section PathProperties.

Lemma stripBase_after_withBase base p :
  startsWith p (js "/") = true -> stripBase base (withBase base p) = p.
Proof.
  intros Hp. unfold withBase, stripBase.
  destruct base as [|b base]; [done|]. cbn [truthy negb andb].
  destruct (str_eqb p (js "/")) eqn:E.
  - apply str_eqb_eq in E as ->.
    replace (startsWith (b :: base) (b :: base)) with true
      by (symmetry; apply startsWith_spec; exists []; by rewrite app_nil_r).
    unfold slice_from. by rewrite drop_all.
  - rewrite Hp. change ((b :: base) ++ [] ++ p) with ((b :: base) ++ p).
    generalize (b :: base). intros B.
    replace (startsWith (B ++ p) B) with true
      by (symmetry; apply startsWith_spec; eauto).
    unfold slice_from. rewrite drop_app_length.
    destruct p as [|c p]; [done|]. cbn [truthy]. by rewrite Hp.
Qed.

(** X1: The base path is put in front of a normalised path and taken off
    again without loss, whatever the base path. *)
Theorem stripBase_withBase_normalized (base p : jsstring) :
  stripBase base (withBase base (normalizePath p)) = normalizePath p.
Proof.
  apply stripBase_after_withBase.
  destruct (normalizePath_starts_slash p) as [r ->]. reflexivity.
Qed.

Lemma is_normal_cons r :
  is_normal (SLASH :: r)
  = negb (str_eqb (SLASH :: r) (js "/index.html"))
    && ((length r =? 0)%nat || negb (endsWith (SLASH :: r) (js "/"))).
Proof. reflexivity. Qed.

(** X2: The paths [normalizePath] leaves alone are exactly the normal ones;
    every result starts with a slash. *)
Theorem normalizePath_fixed_points (p : jsstring) :
  (normalizePath p = p <-> is_normal p = true)
  /\ startsWith (normalizePath p) (js "/") = true.
Proof.
  split; cycle 1.
  { destruct (normalizePath_starts_slash p) as [r ->]. reflexivity. }
  destruct p as [|c t]; [done|].
  destruct (decide (c = SLASH)) as [->|Hc]; cycle 1.
  { split.
    - intros H. destruct (normalizePath_starts_slash (c :: t)) as [r Hr].
      rewrite H in Hr. by injection Hr.
    - unfold is_normal. cbn [startsWith js].
      change (js "/") with [SLASH]. cbn [startsWith].
      replace (SLASH =? c) with false by (symmetry; apply N.eqb_neq; congruence).
      done. }
  rewrite is_normal_cons.
  destruct t as [|x r _] using rev_ind; [done|].
  change (js "/") with [SLASH].
  change (SLASH :: r ++ [x]) with ((SLASH :: r) ++ [x]).
  rewrite endsWith_snoc, length_app. cbn [length app].
  replace (length r + 1 =? 0)%nat with false
    by (symmetry; apply Nat.eqb_neq; lia).
  cbn [orb].
  destruct (decide (x = SLASH)) as [->|Hx].
  - rewrite normalizePath_trailing, N.eqb_refl, andb_false_r.
    split; [|done]. intros H. injection H as H.
    apply (f_equal (@length N)) in H. rewrite length_app in H. simpl in H. lia.
  - replace (SLASH =? x) with false by (symmetry; apply N.eqb_neq; congruence).
    cbn [negb]. rewrite andb_true_r.
    destruct (decide (SLASH :: r ++ [x] = js "/index.html")) as [E|Hne].
    + rewrite E. done.
    + rewrite normalizePath_keep by done.
      rewrite str_eqb_false by done. done.
Qed.

(** X22: A document with [<base href="/">] gives the base path ["/"], which is
    truthy: [withBase] then puts a second slash in front of every path
    but the root, so the URL handed to the history starts with two
    slashes; [stripBase] leaves such paths as they are. *)
Theorem root_base_doubles_slash (p : jsstring) :
  startsWith p (js "/") = true -> p <> js "/" ->
  detect_base_path (Some (Some (js "/"))) = js "/"
  /\ withBase (js "/") p = SLASH :: p
  /\ startsWith (withBase (js "/") p) (js "//") = true
  /\ forall cfg f,
       BASE_PATH cfg = js "/" -> f_appPath f = p ->
       startsWith (history_url cfg f) (js "//") = true.
Proof.
  intros Hp Hne. split; [reflexivity|].
  assert (withBase (js "/") p = SLASH :: p) as Hw.
  { unfold withBase. change (truthy (js "/")) with true. cbn [negb].
    rewrite str_eqb_false by done. by rewrite Hp. }
  destruct p as [|c p]; [done|].
  change (js "/") with [SLASH] in Hp. cbn [startsWith] in Hp.
  apply andb_prop in Hp as [Hc%N.eqb_eq _]. subst c.
  split; [exact Hw|]. split; [by rewrite Hw|].
  intros cfg f Hbase Hf. unfold history_url. rewrite Hbase, Hf, Hw.
  reflexivity.
Qed.

Lemma root_base_doubles_slash_witness :
  startsWith (js "/users") (js "/") = true
  /\ withBase (js "/") (js "/users") = js "//users".
Proof.
  split; [reflexivity|].
  apply (root_base_doubles_slash (js "/users")); [reflexivity|done].
Defined.

End PathProperties.

(** ** Patterns *)

Section PatternProperties.

Lemma rejoin_template (segs : list (jsstring * jsstring)) : forall lit0,
  rejoin (lit0 :: flat_map (fun seg => [seg.1; seg.2]) segs)
  = template_text lit0 segs.
Proof.
  unfold template_text.
  induction segs as [|[name lit] segs IH]; intros lit0.
  - cbn. by rewrite app_nil_r.
  - cbn [flat_map app fst snd rejoin]. cbn [rejoin] in IH. rewrite IH.
    by rewrite <- app_assoc.
Qed.

(** X3: Splitting a route pattern at its parameter tokens loses nothing: the
    parts, with a colon put back before each name, are the pattern. *)
Theorem split_params_rejoin (t : jsstring) : rejoin (split_params t) = t.
Proof.
  destruct (template_decomposition t) as (lit0 & segs & Hwf & <-).
  rewrite split_params_template by done. apply rejoin_template.
Qed.

Lemma wf_template_names lit0 segs :
  wf_template lit0 segs = true ->
  Forall (fun name => is_identifier name = true) (map fst segs).
Proof.
  unfold wf_template. intros [_ H]%andb_prop.
  induction segs as [|seg segs IH]; [constructor|].
  cbn in H. apply andb_prop in H as [Hs H].
  constructor; [|by apply IH].
  unfold wf_segment in Hs. by apply andb_prop in Hs as [[? _]%andb_prop _].
Qed.

(** X4: Whatever the pattern, the compiled source is one the pattern parser
    accepts, it has as many capture groups as names, each name is an
    identifier, and the split has one literal more than names. *)
Theorem compilePattern_wellformed (t : jsstring) :
  let c := compilePattern t in
  (exists prog, parse_regex (regex c) = Some prog
     /\ group_count prog = length (paramNames c))
  /\ Forall (fun name => is_identifier name = true) (paramNames c)
  /\ length (split_params t) = S (2 * length (paramNames c)).
Proof.
  destruct (template_decomposition t) as (lit0 & segs & Hwf & <-).
  cbn zeta. split; [|split].
  - exists (template_prog lit0 segs). rewrite parse_regex_template by done.
    split; [done|]. rewrite group_count_template.
    rewrite compilePattern_template by done. cbn. by rewrite length_map.
  - rewrite compilePattern_template by done. cbn.
    by apply (wf_template_names lit0).
  - rewrite split_params_template, compilePattern_template by done.
    cbn [paramNames length]. rewrite length_map. f_equal.
    clear Hwf. induction segs as [|seg segs IH]; [done|].
    cbn [flat_map app length]. rewrite IH. lia.
Qed.

Lemma slashes_app a b : slashes (a ++ b) = (slashes a + slashes b)%nat.
Proof. unfold slashes. by rewrite List.filter_app, length_app. Qed.

Lemma slashes_none s :
  forallb (fun c => negb (c =? SLASH)) s = true -> slashes s = 0%nat.
Proof.
  unfold slashes. induction s as [|c s IH]; [done|].
  cbn. intros [Hc Hs]%andb_prop.
  destruct (c =? SLASH); [done|]. by apply IH.
Qed.

Lemma ident_char_not_slash c : is_ident_char c = true -> (c =? SLASH) = false.
Proof.
  unfold is_ident_char, is_ident_start, in_range, SLASH.
  destruct (c =? 47) eqn:E; [|done].
  apply N.eqb_eq in E as ->. done.
Qed.

Lemma slashes_identifier name : is_identifier name = true -> slashes name = 0%nat.
Proof.
  intros H. apply slashes_none.
  destruct name as [|c rest]; [done|].
  cbn in H. apply andb_prop in H as [Hc Hr]. cbn [forallb].
  rewrite (ident_char_not_slash c) by by apply ident_start_char.
  cbn. induction rest as [|d rest IH]; [done|].
  cbn in Hr. apply andb_prop in Hr as [Hd Hr]. cbn.
  rewrite (ident_char_not_slash d) by done. cbn. by apply IH.
Qed.

Lemma slashes_fill (segs : list (jsstring * jsstring)) : forall lit0 caps,
  length caps = length segs ->
  Forall (fun cap => is_segment cap = true) caps ->
  Forall (fun name => is_identifier name = true) (map fst segs) ->
  slashes (fill lit0 (map snd segs) caps) = slashes (template_text lit0 segs).
Proof.
  unfold template_text.
  induction segs as [|[name lit] segs IH]; intros lit0 caps Hlen Hcaps Hnames.
  - destruct caps; [|done]. cbn. by rewrite app_nil_r.
  - destruct caps as [|cap caps]; [done|].
    apply Forall_cons in Hcaps as [Hcap Hcaps].
    cbn [map fst snd] in Hnames. apply Forall_cons in Hnames as [Hname Hnames].
    cbn [map fill flat_map fst snd].
    change (COLON :: name ++ lit) with ([COLON] ++ name ++ lit).
    rewrite <- !app_assoc, !slashes_app.
    rewrite (IH lit caps) by (done || (cbn in Hlen; lia)).
    rewrite slashes_app, (slashes_identifier name) by done.
    unfold is_segment in Hcap. apply andb_prop in Hcap as [_ Hcap].
    rewrite (slashes_none cap) by done. reflexivity.
Qed.

(** X5: A path matches a route pattern only if it has exactly as many slashes
    as the pattern: a parameter never spans two path segments. *)
Theorem match_same_depth (t p : jsstring) (caps : list jsstring) :
  str_match p (regex (compilePattern t)) = Some caps ->
  slashes p = slashes t
  /\ length caps = length (paramNames (compilePattern t)).
Proof.
  destruct (template_decomposition t) as (lit0 & segs & Hwf & <-).
  rewrite str_match_template by done. intros H.
  apply template_body_sound in H as (Hlen & Hcaps & ->).
  rewrite compilePattern_template by done. cbn [paramNames].
  rewrite length_map. split; [|done].
  apply slashes_fill; [done|done|]. by apply (wf_template_names lit0).
Qed.

Lemma match_same_depth_witness :
  str_match (js "/users/42") (regex (compilePattern (js "/users/:id")))
  = Some [js "42"]
  /\ slashes (js "/users/42") = slashes (js "/users/:id").
Proof.
  split; [reflexivity|].
  apply (match_same_depth (js "/users/:id") (js "/users/42") [js "42"]).
  reflexivity.
Defined.

End PatternProperties.

(** ** Resolution *)

Section ResolveProperties.

Lemma decode_percent_free s :
  Forall (fun c => c <> PERCENT) s -> decodeURIComponent s = Some s.
Proof.
  unfold decodeURIComponent.
  induction 1 as [|c s Hc _ IH]; [done|].
  cbn [decode_go].
  replace (c =? PERCENT) with false by (symmetry; by apply N.eqb_neq).
  by rewrite IH.
Qed.

Lemma assign_params_percent_free names : forall i caps params,
  Forall (Forall (fun c => c <> PERCENT)) caps ->
  is_Some (assign_params i names caps params).
Proof.
  induction names as [|name names IH]; intros i caps params Hcaps; [by eexists|].
  cbn [assign_params].
  assert (Forall (fun c => c <> PERCENT) (default (js "undefined") (caps !! i)))
    as Hv.
  { destruct (caps !! i) as [cap|] eqn:E; cbn [default].
    - by apply (Forall_lookup_1 _ _ _ _ Hcaps E).
    - apply (bool_decide_unpack _). vm_compute. exact I. }
  rewrite (decode_percent_free _ Hv). cbn. by apply IH.
Qed.

Lemma fill_percent_free (lits : list jsstring) : forall lit0 caps,
  length caps = length lits ->
  Forall (fun c => c <> PERCENT) (fill lit0 lits caps) ->
  Forall (Forall (fun c => c <> PERCENT)) caps.
Proof.
  induction lits as [|l lits IH]; intros lit0 caps Hlen H.
  - destruct caps; [constructor|done].
  - destruct caps as [|cap caps]; [done|].
    cbn [fill] in H. apply Forall_app in H as [_ H].
    apply Forall_app in H as [Hcap H].
    constructor; [done|]. apply (IH l); [cbn in Hlen; lia|done].
Qed.

Lemma normalizePath_percent_free p :
  Forall (fun c => c <> PERCENT) p ->
  Forall (fun c => c <> PERCENT) (normalizePath p).
Proof.
  intros Hp. assert (Forall (fun c => c <> PERCENT) (js "/")) as Hroot
    by (by repeat constructor).
  destruct p as [|c t]; [done|].
  unfold normalizePath.
  set (p1 := if c =? SLASH then c :: t else SLASH :: c :: t).
  assert (Forall (fun c => c <> PERCENT) p1) as Hp1.
  { unfold p1. destruct (c =? SLASH); [done|]. by constructor. }
  destruct (str_eqb p1 (js "/index.html")); [done|].
  destruct ((1 <? length p1)%nat && endsWith p1 (js "/")); [|done].
  unfold slice_0_m1. by apply Forall_take.
Qed.

Lemma route_match_percent_free r p caps :
  Forall (fun c => c <> PERCENT) p ->
  route_match r p = Some caps ->
  Forall (Forall (fun c => c <> PERCENT)) caps.
Proof.
  unfold route_match. intros Hp.
  destruct (template_decomposition (r_path r)) as (lit0 & segs & Hwf & <-).
  rewrite str_match_template by done. intros H.
  apply template_body_sound in H as (Hlen & _ & ->).
  apply (fill_percent_free (map snd segs) lit0); [|done].
  by rewrite length_map.
Qed.

(** X6: [resolve] returns, and does not throw, on every path without a
    percent sign; with a fallback configured it then returns a route. *)
Theorem resolve_returns_without_percent routes fallback pathname :
  Forall (fun c => c <> PERCENT) pathname ->
  exists r, resolve routes fallback pathname = Returned r
    /\ (is_Some fallback -> is_Some r).
Proof.
  intros Hp%normalizePath_percent_free. unfold resolve, compiled_routes.
  generalize dependent (normalizePath pathname). intros p Hp.
  induction routes as [|r routes IH].
  - cbn. destruct fallback as [fb|]; eexists; (split; [done|]).
    + by eexists.
    + by intros [? ?].
  - cbn [map resolve_loop compile_route cr_pattern cr_route].
    destruct (str_match p (regex (compilePattern (r_path r)))) as [caps|] eqn:E;
      [|done].
    destruct (assign_params_percent_free
                (paramNames (compilePattern (r_path r))) 0 caps ∅) as [ps ->].
    { by apply (route_match_percent_free r p). }
    eexists; split; [done|]. by eexists.
Qed.

Lemma resolve_returns_without_percent_witness :
  exists r, resolve test_routes (Some test_fallback) (js "/users/42") = Returned r
    /\ (is_Some (Some test_fallback) -> is_Some r).
Proof.
  apply (resolve_returns_without_percent test_routes (Some test_fallback)
           (js "/users/42")).
  apply (bool_decide_unpack _). vm_compute. exact I.
Defined.

End ResolveProperties.

(** ** Query strings *)

Section QueryProperties.

Ltac nlia := zify; Z.to_euclidean_division_equations; lia.

Ltac decide_cmp_by tac :=
  match goal with
  | |- context [?a <? ?b] =>
      first [ replace (a <? b) with true by (symmetry; apply N.ltb_lt; tac)
            | replace (a <? b) with false by (symmetry; apply N.ltb_ge; tac) ]
  | |- context [?a <=? ?b] =>
      first [ replace (a <=? b) with true by (symmetry; apply N.leb_le; tac)
            | replace (a <=? b) with false by (symmetry; apply N.leb_gt; tac) ]
  | |- context [?a =? ?b] =>
      first [ replace (a =? b) with true by (symmetry; apply N.eqb_eq; tac)
            | replace (a =? b) with false by (symmetry; apply N.eqb_neq; tac) ]
  end.

Ltac crunch_by tac :=
  repeat first [decide_cmp_by tac
               | progress cbn [andb orb app utf8_decode_go]].

Ltac crunch := crunch_by nlia.

Lemma scalar_spec cp :
  scalar cp = true <-> (cp < 0xD800 \/ 0xDFFF < cp) /\ cp < 0x110000.
Proof.
  unfold scalar. rewrite andb_true_iff, orb_true_iff, !N.ltb_lt. tauto.
Qed.

Lemma utf8_decode_encode_cp cp rest :
  scalar cp = true ->
  utf8_decode_go None (utf8_encode_cp cp ++ rest)
  = cp :: utf8_decode_go None rest.
Proof.
  intros [Hs Hb]%scalar_spec. unfold utf8_encode_cp.
  destruct (N.ltb_spec cp 0x80); [|destruct (N.ltb_spec cp 0x800);
    [|destruct (N.ltb_spec cp 0x10000)]];
    cbn [app utf8_decode_go]; unfold utf8_lead, in_range.
  - crunch_by lia. done.
  - set (a := cp / 0x40). set (d := cp mod 0x40).
    assert (cp = a * 0x40 + d /\ d < 0x40) as [Hcp Hd] by (unfold a, d; nlia).
    clearbody a d. subst cp.
    crunch_by lia. f_equal. lia.
  - set (a := cp / 0x1000). set (c := (cp / 0x40) mod 0x40).
    set (d := cp mod 0x40).
    assert (cp = a * 0x1000 + c * 0x40 + d /\ c < 0x40 /\ d < 0x40)
      as (Hcp & Hc & Hd) by (unfold a, c, d; nlia).
    clearbody a c d. subst cp.
    destruct (N.eq_dec a 0) as [E0|E0]; destruct (N.eq_dec a 0xD) as [ED|ED];
      crunch_by lia; f_equal; lia.
  - set (a := cp / 0x40000). set (b := (cp / 0x1000) mod 0x40).
    set (c := (cp / 0x40) mod 0x40). set (d := cp mod 0x40).
    assert (cp = a * 0x40000 + b * 0x1000 + c * 0x40 + d
            /\ b < 0x40 /\ c < 0x40 /\ d < 0x40)
      as (Hcp & Hb' & Hc & Hd) by (unfold a, b, c, d; nlia).
    clearbody a b c d. subst cp.
    destruct (N.eq_dec a 0) as [E0|E0]; destruct (N.eq_dec a 4) as [E4|E4];
      crunch_by lia; f_equal; lia.
Qed.

Lemma utf8_decode_encode cps :
  Forall (fun cp => scalar cp = true) cps ->
  utf8_decode_go None (flat_map utf8_encode_cp cps) = cps.
Proof.
  induction 1 as [|cp cps Hcp _ IH]; [done|].
  cbn [flat_map]. by rewrite utf8_decode_encode_cp, IH.
Qed.

Lemma utf8_encode_cp_bytes cp :
  scalar cp = true -> Forall (fun b => b < 256) (utf8_encode_cp cp).
Proof.
  intros [Hs Hb]%scalar_spec. unfold utf8_encode_cp.
  destruct (N.ltb_spec cp 0x80); [|destruct (N.ltb_spec cp 0x800);
    [|destruct (N.ltb_spec cp 0x10000)]];
    repeat constructor; nlia.
Qed.

Lemma hex_digit_upper d : d < 16 -> hex_digit (hex_upper d) = Some d.
Proof.
  intros Hd. unfold hex_upper, hex_digit, in_range.
  destruct (N.ltb_spec d 10); crunch; f_equal; nlia.
Qed.

Lemma parse_hex_octet_upper b :
  b < 256 -> parse_hex_octet (hex_upper (b / 16)) (hex_upper (b mod 16)) = Some b.
Proof.
  intros Hb. unfold parse_hex_octet.
  rewrite !hex_digit_upper by nlia. cbn. f_equal. nlia.
Qed.

Lemma hex_upper_range d :
  d < 16 -> 48 <= hex_upper d <= 57 \/ 65 <= hex_upper d <= 70.
Proof. intros Hd. unfold hex_upper. destruct (N.ltb_spec d 10); nlia. Qed.

Lemma form_unit_spec c :
  form_unit c = true
  <-> c < 0x80 /\ c <> AMPERSAND /\ c <> EQUALS /\ c <> QUESTION.
Proof.
  unfold form_unit. rewrite !andb_true_iff, !negb_true_iff, N.ltb_lt, !N.eqb_neq.
  tauto.
Qed.

Lemma serialize_byte_cases b :
  b < 256 ->
  (b = SPACE /\ serialize_byte b = [PLUS])
  \/ (b <> PLUS /\ b <> PERCENT /\ form_unit b = true /\ serialize_byte b = [b])
  \/ serialize_byte b = [PERCENT; hex_upper (b / 16); hex_upper (b mod 16)].
Proof.
  intros Hb. unfold serialize_byte.
  destruct (N.eqb_spec b SPACE) as [->|Hsp]; [by left|].
  destruct (_ || _) eqn:E; [|by right; right].
  right; left. repeat split; try done.
  - intros ->. done.
  - intros ->. done.
  - apply form_unit_spec. unfold in_range in E.
    rewrite !orb_true_iff, !andb_true_iff, !N.eqb_eq, !N.leb_le in E.
    unfold AMPERSAND, EQUALS, QUESTION. lia.
Qed.

Lemma serialize_byte_units b :
  b < 256 -> Forall (fun c => form_unit c = true) (serialize_byte b).
Proof.
  intros Hb.
  pose proof (hex_upper_range (b / 16)) as H1.
  pose proof (hex_upper_range (b mod 16)) as H2.
  destruct (serialize_byte_cases b Hb) as [[_ ->]|[(_ & _ & Hf & ->)| ->]].
  - by repeat constructor.
  - by repeat constructor.
  - assert (forall d, 48 <= d <= 57 \/ 65 <= d <= 70 -> form_unit d = true)
      as Hd.
    { intros d Hd. apply form_unit_spec.
      unfold AMPERSAND, EQUALS, QUESTION. lia. }
    constructor; [done|]. constructor; [apply Hd, H1; nlia|].
    constructor; [apply Hd, H2; nlia|constructor].
Qed.

Lemma serialize_byte_decode b rest :
  b < 256 ->
  percent_decode_go 0 (plus_to_space (serialize_byte b ++ rest))
  = b :: percent_decode_go 0 (plus_to_space rest).
Proof.
  intros Hb. unfold plus_to_space. rewrite map_app.
  pose proof (hex_upper_range (b / 16)) as H1.
  pose proof (hex_upper_range (b mod 16)) as H2.
  destruct (serialize_byte_cases b Hb) as [[-> ->]|[(Hp & Hc & _ & ->)| ->]].
  - reflexivity.
  - cbn [map app percent_decode_go].
    rewrite (proj2 (N.eqb_neq b PLUS)) by done.
    by rewrite (proj2 (N.eqb_neq b PERCENT)) by done.
  - cbn [map app].
    rewrite (proj2 (N.eqb_neq (hex_upper (b / 16)) PLUS))
      by (unfold PLUS; nlia).
    rewrite (proj2 (N.eqb_neq (hex_upper (b mod 16)) PLUS))
      by (unfold PLUS; nlia).
    change (PERCENT =? PLUS) with false. cbn [percent_decode_go].
    rewrite N.eqb_refl, parse_hex_octet_upper by done.
    reflexivity.
Qed.

Lemma percent_decode_serialize bytes :
  Forall (fun b => b < 256) bytes ->
  percent_decode (plus_to_space (flat_map serialize_byte bytes)) = bytes.
Proof.
  unfold percent_decode. induction 1 as [|b bytes Hb _ IH]; [done|].
  cbn [flat_map]. by rewrite serialize_byte_decode, IH.
Qed.

Lemma code_points_scalar_len n : forall s,
  (length s <= n)%nat -> is_utf16 s = true ->
  Forall (fun cp => scalar cp = true) (code_points s).
Proof.
  induction n as [|n IH]; intros s Hlen Hs.
  { destruct s; [constructor|cbn in Hlen; lia]. }
  destruct s as [|c s]; [constructor|].
  cbn in Hlen. cbn in Hs. apply andb_prop in Hs as [Hc%N.ltb_lt Hs].
  cbn [code_points]. unfold in_range.
  destruct (N.leb_spec 0xD800 c); cbn [andb].
  - destruct (N.leb_spec c 0xDBFF); cbn [andb].
    + destruct s as [|d s].
      { by repeat constructor. }
      cbn in Hs. apply andb_prop in Hs as [Hd%N.ltb_lt Hs'].
      destruct (N.leb_spec 0xDC00 d); cbn [andb].
      * destruct (N.leb_spec d 0xDFFF).
        -- constructor; [apply scalar_spec; nlia|].
           apply IH; [cbn in Hlen; lia|done].
        -- constructor; [done|].
           apply IH; [cbn in *; lia|]. cbn. rewrite Hs'.
           by rewrite (proj2 (N.ltb_lt d _)) by done.
      * constructor; [done|].
        apply IH; [cbn in *; lia|]. cbn. rewrite Hs'.
        by rewrite (proj2 (N.ltb_lt d _)) by done.
    + destruct (N.leb_spec 0xDC00 c); cbn [andb].
      * destruct (N.leb_spec c 0xDFFF).
        -- constructor; [done|]. apply IH; [lia|done].
        -- constructor; [apply scalar_spec; lia|]. apply IH; [lia|done].
      * lia.
  - destruct (N.leb_spec 0xDC00 c); [lia|]. cbn [andb].
    constructor; [apply scalar_spec; lia|]. apply IH; [lia|done].
Qed.

Lemma code_points_scalar s :
  is_utf16 s = true -> Forall (fun cp => scalar cp = true) (code_points s).
Proof. by apply (code_points_scalar_len (length s)). Qed.

Lemma utf8_encode_bytes s :
  is_utf16 s = true -> Forall (fun b => b < 256) (utf8_encode s).
Proof.
  intros Hs%code_points_scalar. unfold utf8_encode.
  induction Hs as [|cp cps Hcp _ IH]; [constructor|].
  cbn. apply Forall_app. split; [by apply utf8_encode_cp_bytes|done].
Qed.

Lemma decode_serialize_component s :
  is_utf16 s = true -> decode_component (serialize_component s) = to_usv s.
Proof.
  intros Hs. unfold decode_component, serialize_component.
  rewrite percent_decode_serialize by by apply utf8_encode_bytes.
  unfold utf8_decode, utf8_encode, to_usv.
  by rewrite utf8_decode_encode by by apply code_points_scalar.
Qed.

Lemma serialize_component_units s :
  is_utf16 s = true ->
  Forall (fun c => form_unit c = true) (serialize_component s).
Proof.
  intros Hs%utf8_encode_bytes. unfold serialize_component.
  induction Hs as [|b bytes Hb _ IH]; [constructor|].
  cbn. apply Forall_app. split; [by apply serialize_byte_units|done].
Qed.

Lemma code_points_ascii s :
  Forall (fun c => c < 0x80) s -> code_points s = s.
Proof.
  induction 1 as [|c s Hc _ IH]; [done|].
  cbn [code_points]. unfold in_range. crunch. by rewrite IH.
Qed.

Lemma utf8_encode_ascii s :
  Forall (fun c => c < 0x80) s -> utf8_encode s = s.
Proof.
  intros Hs. unfold utf8_encode. rewrite code_points_ascii by done.
  induction Hs as [|c s Hc _ IH]; [done|].
  cbn [flat_map]. rewrite IH. unfold utf8_encode_cp.
  by rewrite (proj2 (N.ltb_lt c 0x80)) by done.
Qed.

Lemma split_on_app sep c : forall piece s,
  Forall (fun x => x <> sep) c ->
  split_on sep piece (c ++ s) = split_on sep (piece ++ c) s.
Proof.
  induction c as [|x c IH]; intros piece s Hc.
  - by rewrite app_nil_r.
  - apply Forall_cons in Hc as [Hx Hc]. cbn [app split_on].
    rewrite (proj2 (N.eqb_neq x sep)) by done.
    rewrite IH by done. by rewrite <- app_assoc.
Qed.

Lemma split_on_join sep (comps : list (list N)) :
  Forall (Forall (fun x => x <> sep)) comps ->
  split_on sep [] (join [sep] comps)
  = match comps with [] => [[]] | _ => comps end.
Proof.
  induction 1 as [|c comps Hc Hcomps IH]; [done|].
  destruct comps as [|c' comps].
  - cbn [join]. rewrite <- (app_nil_r c) at 1.
    by rewrite split_on_app by done.
  - change (join [sep] (c :: c' :: comps))
      with (c ++ sep :: join [sep] (c' :: comps)).
    rewrite split_on_app by done. cbn [split_on app].
    by rewrite N.eqb_refl, IH.
Qed.

Lemma split_pair_app a : forall name v,
  Forall (fun x => x <> EQUALS) a ->
  split_pair name (a ++ EQUALS :: v) = (name ++ a, v).
Proof.
  induction a as [|x a IH]; intros name v Ha.
  - cbn. by rewrite app_nil_r.
  - apply Forall_cons in Ha as [Hx Ha]. cbn [app split_pair].
    rewrite (proj2 (N.eqb_neq x EQUALS)) by done.
    rewrite IH by done. by rewrite <- app_assoc.
Qed.

Lemma form_units_weaken (P : N -> Prop) s :
  (forall c, form_unit c = true -> P c) ->
  Forall (fun c => form_unit c = true) s -> Forall P s.
Proof. intros HP Hs. eapply Forall_impl; [exact Hs|exact HP]. Qed.

Lemma serialize_pair_units nv :
  is_utf16 nv.1 = true -> is_utf16 nv.2 = true ->
  Forall (fun c => c < 0x80 /\ c <> AMPERSAND /\ c <> QUESTION)
    (serialize_pair nv).
Proof.
  intros H1 H2. unfold serialize_pair.
  apply Forall_app. split; [|apply Forall_app; split].
  - apply (form_units_weaken _ _); [|by apply serialize_component_units].
    intros c Hc%form_unit_spec. tauto.
  - repeat constructor; done.
  - apply (form_units_weaken _ _); [|by apply serialize_component_units].
    intros c Hc%form_unit_spec. tauto.
Qed.

Lemma urlencoded_serialize_units l :
  utf16_pairs l = true ->
  Forall (fun c => c < 0x80 /\ c <> QUESTION) (urlencoded_serialize l).
Proof.
  unfold urlencoded_serialize. fold serialize_pair.
  induction l as [|nv l IH]; [constructor|].
  cbn [utf16_pairs forallb]. intros [[H1 H2]%andb_prop Hl]%andb_prop.
  specialize (IH Hl).
  assert (Forall (fun c => c < 0x80 /\ c <> QUESTION) (serialize_pair nv)) as Hnv.
  { eapply Forall_impl; [by apply serialize_pair_units|]. cbn. tauto. }
  destruct l as [|nv' l]; [exact Hnv|].
  change (join [AMPERSAND] (map serialize_pair (nv :: nv' :: l)))
    with (serialize_pair nv ++ [AMPERSAND]
            ++ join [AMPERSAND] (map serialize_pair (nv' :: l))).
  apply Forall_app. split; [done|]. apply Forall_app. split; [|done].
  by repeat constructor.
Qed.

Lemma parse_pair nv :
  is_utf16 nv.1 = true -> is_utf16 nv.2 = true ->
  match serialize_pair nv with
  | [] => []
  | _ => let '(n, v) := split_pair [] (serialize_pair nv) in
         [(decode_component n, decode_component v)]
  end = [(to_usv nv.1, to_usv nv.2)].
Proof.
  intros H1 H2. unfold serialize_pair.
  destruct (serialize_component nv.1 ++ [EQUALS] ++ serialize_component nv.2)
    as [|x r] eqn:E.
  { by destruct (serialize_component nv.1). }
  rewrite <- E. cbn [app]. rewrite split_pair_app.
  - cbn [app]. by rewrite !decode_serialize_component.
  - apply (form_units_weaken _ _); [|by apply serialize_component_units].
    intros c Hc%form_unit_spec. tauto.
Qed.

Lemma parse_serialize_pairs (l : list (jsstring * jsstring)) :
  utf16_pairs l = true ->
  urlencoded_parse (urlencoded_serialize l)
  = map (fun nv => (to_usv nv.1, to_usv nv.2)) l.
Proof.
  intros Hl.
  unfold urlencoded_parse.
  rewrite utf8_encode_ascii; cycle 1.
  { eapply Forall_impl; [by apply urlencoded_serialize_units|]. cbn. tauto. }
  unfold urlencoded_serialize. fold serialize_pair.
  rewrite split_on_join; cycle 1.
  { clear -Hl. induction l as [|nv l IH]; [constructor|].
    cbn [utf16_pairs forallb] in Hl.
    apply andb_prop in Hl as [[H1 H2]%andb_prop Hl].
    cbn [map]. constructor; [|by apply IH].
    eapply Forall_impl; [by apply serialize_pair_units|]. cbn. tauto. }
  destruct l as [|nv0 l0]; [done|].
  set (l := nv0 :: l0) in *. change (map serialize_pair l) with
    (serialize_pair nv0 :: map serialize_pair l0) at 1.
  cbv iota. clearbody l. clear nv0 l0.
  induction l as [|nv l IH]; [done|].
  cbn [utf16_pairs forallb] in Hl.
  apply andb_prop in Hl as [[H1 H2]%andb_prop Hl].
  cbn [map flat_map]. rewrite (parse_pair nv H1 H2), (IH Hl). done.
Qed.

Lemma usp_new_toString (l : list (jsstring * jsstring)) :
  utf16_pairs l = true ->
  usp_new (usp_toString l) = urlencoded_parse (urlencoded_serialize l).
Proof.
  intros Hl. unfold usp_new, usp_toString.
  pose proof (urlencoded_serialize_units l Hl) as Hu.
  destruct (urlencoded_serialize l) as [|c rest] eqn:E; [done|].
  apply Forall_cons in Hu as [[_ Hc] _].
  by rewrite (proj2 (N.eqb_neq c QUESTION)) by done.
Qed.

(** X19: The query string [URLSearchParams] writes is read back as the same
    pairs: parsing the serialisation of a list of pairs gives the pairs,
    each string converted to a USVString, with or without the question
    mark in front. *)
Theorem urlencoded_round_trip (l : list (jsstring * jsstring)) :
  utf16_pairs l = true ->
  urlencoded_parse (urlencoded_serialize l)
  = map (fun nv => (to_usv nv.1, to_usv nv.2)) l
  /\ usp_new (QUESTION :: usp_toString l)
     = map (fun nv => (to_usv nv.1, to_usv nv.2)) l
  /\ usp_new (usp_toString l) = map (fun nv => (to_usv nv.1, to_usv nv.2)) l.
Proof.
  intros Hl. pose proof (parse_serialize_pairs l Hl) as Hmain.
  split; [exact Hmain|]. split.
  - unfold usp_new, usp_toString. rewrite N.eqb_refl. exact Hmain.
  - rewrite usp_new_toString by done. exact Hmain.
Qed.

Lemma utf8_lead_ok b :
  match utf8_lead b with
  | LeadEmit cp => scalar cp = true
  | LeadNeed cp n lo hi => open_ok n cp lo hi
  | LeadError => True
  end.
Proof.
  unfold utf8_lead, in_range.
  destruct (N.leb_spec b 0x7F); [apply scalar_spec; lia|].
  destruct (N.leb_spec 0xC2 b), (N.leb_spec b 0xDF); cbn [andb].
  { intros b1 Hb1. apply scalar_spec. lia. }
  { destruct (N.leb_spec 0xE0 b), (N.leb_spec b 0xEF); cbn [andb]; try lia.
    - destruct (N.eqb_spec b 0xE0), (N.eqb_spec b 0xED);
        intros b1 Hb1 b2 Hb2; apply scalar_spec; lia.
    - destruct (N.leb_spec 0xF0 b), (N.leb_spec b 0xF4); cbn [andb]; try done.
      destruct (N.eqb_spec b 0xF0), (N.eqb_spec b 0xF4);
        intros b1 Hb1 b2 Hb2 b3 Hb3; apply scalar_spec; lia. }
  { destruct (N.leb_spec 0xE0 b); [lia|]. cbn [andb].
    destruct (N.leb_spec 0xF0 b); [lia|]. done. }
  { lia. }
Qed.

Lemma utf8_decode_go_scalar bytes : forall open,
  match open with
  | Some (cp, n, lo, hi) => open_ok n cp lo hi
  | None => True
  end ->
  Forall (fun cp => scalar cp = true) (utf8_decode_go open bytes).
Proof.
  induction bytes as [|b rest IH]; intros open Hopen.
  - cbn. destruct open; by repeat constructor.
  - cbn [utf8_decode_go].
    assert (Forall (fun cp => scalar cp = true)
              match utf8_lead b with
              | LeadEmit cp => cp :: utf8_decode_go None rest
              | LeadNeed cp n lo hi => utf8_decode_go (Some (cp, n, lo, hi)) rest
              | LeadError => REPLACEMENT :: utf8_decode_go None rest
              end) as Hfresh.
    { pose proof (utf8_lead_ok b) as Hl. destruct (utf8_lead b).
      - constructor; [done|by apply IH].
      - by apply IH.
      - constructor; [done|by apply IH]. }
    destruct open as [[[[cp needed] lo] hi]|]; [|exact Hfresh].
    unfold in_range.
    destruct (N.leb_spec lo b) as [Hlo|Hlo], (N.leb_spec b hi) as [Hhi|Hhi];
      cbn [andb]; try (constructor; [done|exact Hfresh]).
    destruct needed as [|[|n]]; cbn in Hopen;
      specialize (Hopen b (conj Hlo Hhi)).
    + constructor; [done|by apply IH].
    + constructor; [done|by apply IH].
    + by apply IH.
Qed.

Lemma code_points_of_code_points cps :
  Forall (fun cp => scalar cp = true) cps ->
  code_points (of_code_points cps) = cps.
Proof.
  induction 1 as [|cp cps [Hs Hb]%scalar_spec _ IH]; [done|].
  unfold of_code_points in *. cbn [flat_map]. unfold utf16_encode.
  destruct (N.ltb_spec cp 0x10000); cbn [app code_points]; unfold in_range.
  - destruct Hs; crunch; f_equal; exact IH.
  - crunch. f_equal; [nlia|exact IH].
Qed.

Lemma of_code_points_utf16 cps :
  Forall (fun cp => scalar cp = true) cps -> is_utf16 (of_code_points cps) = true.
Proof.
  induction 1 as [|cp cps [Hs Hb]%scalar_spec _ IH]; [done|].
  unfold of_code_points, is_utf16 in *. cbn [flat_map].
  rewrite forallb_app, IH, andb_true_r. unfold utf16_encode.
  destruct (N.ltb_spec cp 0x10000); cbn [forallb]; crunch; done.
Qed.

Lemma of_code_points_usv cps :
  Forall (fun cp => scalar cp = true) cps -> is_usv (of_code_points cps) = true.
Proof.
  intros H. unfold is_usv, to_usv.
  rewrite of_code_points_utf16, code_points_of_code_points by done.
  by rewrite str_eqb_refl.
Qed.

Lemma to_usv_usv s : is_utf16 s = true -> is_usv (to_usv s) = true.
Proof. intros H. by apply of_code_points_usv, code_points_scalar. Qed.

Lemma decode_component_usv bytes : is_usv (decode_component bytes) = true.
Proof.
  unfold decode_component, utf8_decode.
  by apply of_code_points_usv, utf8_decode_go_scalar.
Qed.

Lemma urlencoded_parse_usv input : usv_pairs (urlencoded_parse input) = true.
Proof.
  unfold urlencoded_parse, usv_pairs.
  induction (split_on AMPERSAND [] (utf8_encode input)) as [|bytes l IH]; [done|].
  cbn [flat_map]. rewrite forallb_app, IH, andb_true_r.
  destruct bytes as [|b bytes]; [done|].
  destruct (split_pair [] (b :: bytes)) as [n v]. cbn.
  by rewrite !decode_component_usv.
Qed.

Lemma usp_new_usv init : usv_pairs (usp_new init) = true.
Proof. apply urlencoded_parse_usv. Qed.

Lemma usv_pairs_filter (P : jsstring * jsstring -> bool) l :
  usv_pairs l = true -> usv_pairs (List.filter P l) = true.
Proof.
  unfold usv_pairs. induction l as [|nv l IH]; [done|].
  cbn. intros [Hnv Hl]%andb_prop. destruct (P nv); cbn; [|by apply IH].
  by rewrite Hnv, IH.
Qed.

Lemma usv_pairs_set_go name value l :
  is_usv name = true -> is_usv value = true ->
  usv_pairs l = true -> usv_pairs (usp_set_go name value l) = true.
Proof.
  intros Hn Hv. induction l as [|nv l IH].
  - intros _. cbn. by rewrite Hn, Hv.
  - cbn [usp_set_go]. intros Hl.
    pose proof Hl as Hl'. cbn in Hl'. apply andb_prop in Hl' as [Hnv Hl'].
    destruct (str_eqb nv.1 name).
    + cbn. rewrite Hn, Hv. cbn. by apply usv_pairs_filter.
    + cbn. rewrite Hnv. cbn. by apply IH.
Qed.

Lemma apply_patch_usv patch : forall l,
  utf16_patch patch = true -> usv_pairs l = true ->
  usv_pairs (apply_patch patch l) = true.
Proof.
  unfold apply_patch.
  induction patch as [|kv patch IH]; intros l Hp Hl; [done|].
  cbn in Hp. apply andb_prop in Hp as [[Hk Hv]%andb_prop Hp].
  cbn [foldl]. apply IH; [done|].
  unfold apply_patch_entry. destruct (patch_removes kv.2).
  - by apply usv_pairs_filter.
  - apply usv_pairs_set_go; [by apply to_usv_usv..|done].
Qed.

Lemma usv_pairs_utf16 l : usv_pairs l = true -> utf16_pairs l = true.
Proof.
  unfold usv_pairs, utf16_pairs. induction l as [|nv l IH]; [done|].
  cbn. intros [[H1 H2]%andb_prop Hl]%andb_prop.
  unfold is_usv in H1, H2.
  apply andb_prop in H1 as [-> _]. apply andb_prop in H2 as [-> _].
  by rewrite IH.
Qed.

Lemma usv_pairs_fixed l :
  usv_pairs l = true -> map (fun nv => (to_usv nv.1, to_usv nv.2)) l = l.
Proof.
  unfold usv_pairs. induction l as [|[n v] l IH]; [done|].
  cbn [map forallb fst snd]. intros [[H1 H2]%andb_prop Hl]%andb_prop.
  unfold is_usv in H1, H2.
  apply andb_prop in H1 as [_ H1%str_eqb_eq].
  apply andb_prop in H2 as [_ H2%str_eqb_eq].
  by rewrite H1, H2, IH.
Qed.

(** The search string [navigateQuery] computes carries the merged
    parameters faithfully: read again the way the next [navigateQuery]
    reads [current.search], it gives exactly the patched list. *)
Theorem patched_search_reparsed (s : jsstring) patch :
  utf16_patch patch = true ->
  usp_new (strip_question (patched_search s patch))
  = apply_patch patch (usp_new (strip_question s)).
Proof.
  intros Hp. unfold patched_search.
  set (merged := apply_patch patch (usp_new (strip_question s))).
  assert (usv_pairs merged = true) as Hm
    by (apply apply_patch_usv; [done|apply usp_new_usv]).
  pose proof (usp_new_toString merged (usv_pairs_utf16 _ Hm)) as H.
  rewrite (parse_serialize_pairs merged (usv_pairs_utf16 _ Hm)) in H.
  rewrite usv_pairs_fixed in H by done.
  destruct (usp_toString merged) as [|c rest] eqn:E; cbn [truthy].
  - exact H.
  - cbn [strip_question]. by rewrite N.eqb_refl.
Qed.

End QueryProperties.

(** ** The navigation engine *)

Section EngineProperties.

Variable cfg : config.

Lemma quiet_refl w : quiet cfg w w.
Proof. by constructor. Qed.

Lemma quiet_trans w1 w2 w3 : quiet cfg w1 w2 -> quiet cfg w2 w3 -> quiet cfg w1 w3.
Proof.
  intros [] []. constructor; try congruence.
  - intros H. rewrite q_store1 by done. by apply q_store0.
  - intros i Hi. by apply q_aborted1, q_aborted0.
  - lia.
  - intros H. by apply q_calls1, q_calls0.
  - intros H. by apply q_live1, q_live0.
Qed.

Lemma quiet_log_call c w :
  match c with CallBoot _ _ _ => False | _ => True end ->
  quiet cfg w (log_call c w).
Proof. intros Hc. constructor; try done. by destruct c. Qed.

Lemma quiet_set_html_attr (n : string) v w :
  n <> "data-view"%string -> quiet cfg w (set_html_attr n v w).
Proof.
  intros Hn. constructor; try done. cbn. by rewrite lookup_insert_ne.
Qed.

Lemma quiet_set_pending fs w : quiet cfg w (set_pending fs w).
Proof. by constructor. Qed.

Lemma quiet_suspend f st w : quiet cfg w (suspend f st w).
Proof. by constructor. Qed.

Lemma quiet_store_set (k : string) v w :
  k <> "ui.route.go"%string -> quiet cfg w (store_set cfg k v w).
Proof.
  intros Hk. unfold store_set.
  destruct (has_store cfg) eqn:Hs; [|apply quiet_refl].
  destruct (store_throws w); [apply quiet_refl|]. cbn.
  constructor; try done; cbn.
  - by rewrite lookup_insert_ne.
  - congruence.
Qed.

Lemma quiet_save_scroll w : quiet cfg w (save_scroll w).
Proof.
  unfold save_scroll. destruct (path (current w)) as [p|]; [|apply quiet_refl].
  destruct (truthy p); [|apply quiet_refl]. by constructor.
Qed.

Lemma quiet_renew w : quiet cfg w (new_controller (abort_in_flight w)).2.
Proof.
  assert (forall i, is_aborted i w = true ->
            is_aborted i (abort_in_flight w) = true) as Hab.
  { intros i. unfold abort_in_flight, is_aborted.
    destruct (navController w) as [j|]; [|done]. cbn.
    destruct (decide (i = j)) as [->|Hne].
    - destruct (signals w !! j) eqn:E; [|done]. intros _.
      rewrite list_lookup_insert_eq; [done|]. by eapply lookup_lt_Some.
    - by rewrite list_lookup_insert_ne. }
  assert (length (signals (abort_in_flight w)) = length (signals w)) as Hlen.
  { unfold abort_in_flight. destruct (navController w); [|done].
    cbn. by rewrite length_insert. }
  constructor; try (unfold abort_in_flight; by destruct (navController w)).
  - intros i Hi%Hab. unfold is_aborted in *. cbn.
    destruct (signals (abort_in_flight w) !! i) eqn:E; [|done].
    by rewrite (lookup_app_l_Some _ _ _ _ E).
  - cbn. rewrite length_app, Hlen. lia.
  - intros _. unfold controller_live. cbn.
    rewrite lookup_app_r by lia. by rewrite Nat.sub_diag.
Qed.

Lemma commit_quiet f v w :
  listening (commit cfg f v w) = listening w
  /\ go_subscribed (commit cfg f v w) = go_subscribed w
  /\ store_throws (commit cfg f v w) = store_throws w
  /\ signals (commit cfg f v w) = signals w
  /\ store (commit cfg f v w) !! "ui.route.go"%string
     = store w !! "ui.route.go"%string
  /\ (has_store cfg = false -> store (commit cfg f v w) = store w)
  /\ boot_guarded (calls (commit cfg f v w)) = boot_guarded (calls w).
Proof.
  unfold commit, store_setMany, scrollTo, setActiveNav, log_call, set_html_attr.
  cbn.
  destruct (has_store cfg) eqn:Hs, (store_throws w) eqn:Ht,
    (history_throws cfg _), (nav_throws cfg), (f_restoreScroll f);
    cbn; try destruct (map_get _ _) as [[x y]|]; cbn; rewrite ?Ht;
    repeat split; try done; by rewrite !lookup_insert_ne.
Qed.

Lemma after_boot_shape f r w : quiet_or_commit cfg f w (after_boot cfg f r w).1.
Proof.
  unfold after_boot. destruct r as [v|]; [|left; apply quiet_refl].
  destruct (is_aborted (f_signal f) w); [left; apply quiet_refl|].
  right. exists v, w. split; [apply quiet_refl|done].
Qed.

Lemma quiet_or_commit_pre f w w1 w' :
  quiet cfg w w1 -> quiet_or_commit cfg f w1 w' -> quiet_or_commit cfg f w w'.
Proof.
  intros H [H'|(v & w0 & H' & ->)].
  - left. by eapply quiet_trans.
  - right. exists v, w0. split; [by eapply quiet_trans|done].
Qed.

Lemma boot_step_shape f w : quiet_or_commit cfg f w (boot_step cfg f w).1.
Proof.
  unfold boot_step.
  assert (quiet_or_commit cfg f w
            (after_boot cfg f (Fulfilled None) (log_call ClearRoot w)).1) as Hab.
  { eapply quiet_or_commit_pre; [|apply after_boot_shape]. by apply quiet_log_call. }
  destruct (rs_component (f_resolved f)) as [c|]; [|exact Hab].
  destruct (comp_boot c) as [[]|]; [| |exact Hab]; left; by constructor.
Qed.

Lemma resume_shape f r w : quiet_or_commit cfg f w (resume cfg f r w).1.
Proof.
  unfold resume. destruct (f_stage f);
    [apply boot_step_shape|apply after_boot_shape].
Qed.

Lemma settle_shape sig r w :
  quiet cfg w (settle cfg sig r w)
  \/ exists f v w0, f ∈ pending w /\ quiet cfg w w0
       /\ settle cfg sig r w = commit cfg f v w0.
Proof.
  unfold settle. destruct (take_frame sig (pending w)) as [[f rest]|] eqn:E;
    [|left; apply quiet_refl].
  apply take_frame_Some in E as (Hin & _ & _).
  destruct (quiet_or_commit_pre f w (set_pending rest w) _
              (quiet_set_pending rest w) (resume_shape f r _))
    as [H|(v & w0 & H & Heq)]; [by left|].
  right. by exists f, v, w0.
Qed.

Lemma navigate_shape p o w :
  quiet cfg w (navigate cfg p o w).1
  \/ exists f v w0, quiet cfg w w0
       /\ (navigate cfg p o w).1 = commit cfg f v w0
       /\ f_appPath f = normalizePath (stripBase (BASE_PATH cfg) p)
       /\ f_searchStr f = search_string (opt_search o)
       /\ f_replace f = opt_replace o
       /\ is_resolved cfg (f_appPath f).
Proof.
  unfold navigate.
  destruct (root_present w); cbn [negb]; [|left; apply quiet_refl].
  set (appPath := normalizePath (stripBase (BASE_PATH cfg) p)).
  destruct (resolve _ _ appPath) as [[r|]|e] eqn:Hres;
    [|left; apply quiet_refl..].
  destruct (_ && _); [left; apply quiet_refl|].
  destruct (new_controller (abort_in_flight w)) as [sig w1] eqn:Hnc.
  assert (quiet cfg w w1) as Hq1.
  { replace w1 with (new_controller (abort_in_flight w)).2 by by rewrite Hnc.
    apply quiet_renew. }
  set (w2 := save_scroll _).
  assert (quiet cfg w w2) as Hq2.
  { eapply quiet_trans; [exact Hq1|]. unfold w2.
    eapply quiet_trans; [|apply quiet_save_scroll].
    eapply quiet_trans; [|by apply quiet_store_set].
    by apply quiet_set_html_attr. }
  set (f := Frame sig AwaitUnboot appPath _ r _ _).
  assert (forall w3, quiet cfg w w3 ->
            quiet cfg w (boot_step cfg f w3).1
            \/ exists f' v w0, quiet cfg w w0
                 /\ (boot_step cfg f w3).1 = commit cfg f' v w0
                 /\ f_appPath f' = appPath
                 /\ f_searchStr f' = search_string (opt_search o)
                 /\ f_replace f' = opt_replace o
                 /\ is_resolved cfg (f_appPath f')) as Hboot.
  { intros w3 Hq3.
    destruct (quiet_or_commit_pre f w w3 _ Hq3 (boot_step_shape f w3))
      as [H|(v & w0 & H & Heq)]; [by left|].
    right. exists f, v, w0. split; [done|]. split; [done|].
    repeat split. unfold is_resolved. exists r. exact Hres. }
  destruct (unboot (current w2)) as [h|]; [|by apply Hboot].
  destruct (h_throws h).
  - apply Hboot. eapply quiet_trans; [exact Hq2|]. by apply quiet_log_call.
  - left. eapply quiet_trans; [exact Hq2|].
    eapply quiet_trans; [|apply quiet_suspend]. by apply quiet_log_call.
Qed.

Lemma light_refl w : light cfg w w.
Proof. by constructor. Qed.

Lemma navigateQuery_shape patch r w :
  quiet cfg w (navigateQuery cfg patch r w).1
  \/ exists f v w0, quiet cfg w w0
       /\ (navigateQuery cfg patch r w).1 = commit cfg f v w0.
Proof.
  unfold navigateQuery.
  destruct (navigate_shape
    match path (current w) with
    | Some p => if truthy p then p
                else normalizePath (stripBase (BASE_PATH cfg) (location w).1)
    | None => normalizePath (stripBase (BASE_PATH cfg) (location w).1)
    end
    (NavOpts (default true r) (patched_search (search (current w)) patch) false)
    w) as [H|(f & v & w0 & H & Heq & _ & _ & _ & Hr)]; [by left|].
  right. by exists f, v, w0.
Qed.

Lemma navigate_shape_weak p o w :
  quiet cfg w (navigate cfg p o w).1
  \/ exists f v w0, quiet cfg w w0
       /\ (navigate cfg p o w).1 = commit cfg f v w0.
Proof.
  destruct (navigate_shape p o w) as [H|(f & v & w0 & H & Heq & _ & _ & _ & Hr)];
    [by left|].
  right. by exists f, v, w0.
Qed.

Lemma onGo_shape v w :
  has_store cfg = true ->
  exists w1, light cfg w w1
    /\ (quiet cfg w1 (onGo cfg v w)
        \/ exists f u w0, quiet cfg w1 w0
             /\ onGo cfg v w = commit cfg f u w0).
Proof.
  intros Hs. unfold onGo. destruct (go_truthy v); cbn [negb].
  2:{ exists w. split; [apply light_refl|left; apply quiet_refl]. }
  exists (store_set cfg "ui.route.go" SNull w). split.
  { unfold store_set. destruct (has_store cfg && negb (store_throws w));
      [|apply light_refl].
    constructor; try done. congruence. }
  destruct v as [s|o]; [apply navigate_shape_weak|].
  destruct (go_query o) as [q|]; [|apply navigate_shape_weak].
  destruct (negb _); [apply navigateQuery_shape|apply navigate_shape_weak].
Qed.

Lemma step_shape w e :
  exists w1, light cfg w w1
    /\ (quiet cfg w1 (step cfg w e)
        \/ exists f v w0, quiet cfg w1 w0
             /\ step cfg w e = commit cfg f v w0).
Proof.
  destruct e as [p o|patch r|p r| | |p s| |v|sig r|h]; cbn [step].
  - exists w. split; [apply light_refl|apply navigate_shape_weak].
  - exists w. split; [apply light_refl|apply navigateQuery_shape].
  - exists w. split; [apply light_refl|apply navigate_shape_weak].
  - exists (set_listening true w). split; [by constructor|].
    apply navigate_shape_weak.
  - exists (stop w). split; [|left; apply quiet_refl].
    unfold stop. destruct (unboot (current _)); constructor; done.
  - destruct (listening w).
    + exists w. split; [apply light_refl|apply navigate_shape_weak].
    + exists w. split; [apply light_refl|left; apply quiet_refl].
  - destruct (listening w).
    + exists w. split; [apply light_refl|apply navigate_shape_weak].
    + exists w. split; [apply light_refl|left; apply quiet_refl].
  - destruct (has_store cfg) eqn:Hs; cbn [andb].
    2:{ exists w. split; [apply light_refl|left; apply quiet_refl]. }
    destruct (store_throws w); cbn [negb].
    { exists w. split; [apply light_refl|left; apply quiet_refl]. }
    destruct (go_subscribed w).
    2:{ eexists. split; [|left; apply quiet_refl].
        constructor; cbn; try done. congruence. }
    destruct (onGo_shape v
      (set_store (<["ui.route.go"%string := SRequest v]> (store w)) w) Hs)
      as (w1 & Hl & H).
    exists w1. split; [|exact H].
    destruct Hl. constructor; cbn in *; try congruence; done.
  - exists w. split; [apply light_refl|].
    destruct (settle_shape sig r w) as [H|(f & v & w0 & Hin & H & Heq)];
      [by left|].
    right. by exists f, v, w0.
  - exists (host_step h w). split; [|left; apply quiet_refl].
    destruct h; by constructor.
Qed.

Lemma step_aborted w e i :
  is_aborted i w = true -> is_aborted i (step cfg w e) = true.
Proof.
  intros Hi. destruct (step_shape w e) as (w1 & Hl & H).
  assert (is_aborted i w1 = true) as Hi1.
  { unfold is_aborted in *. by rewrite (l_signals _ _ _ Hl). }
  destruct H as [Hq|(f & v & w0 & Hq & ->)].
  - by apply (q_aborted _ _ _ Hq).
  - unfold is_aborted. rewrite commit_signals.
    by apply (q_aborted _ _ _ Hq).
Qed.

Lemma run_aborted es : forall w i,
  is_aborted i w = true -> is_aborted i (run cfg w es) = true.
Proof.
  induction es as [|e es IH]; intros w i Hi; [done|].
  cbn. apply IH. by apply step_aborted.
Qed.

(** X7: An aborted signal stays aborted whatever happens next, and the
    navigation that holds it changes nothing committed when it is
    resumed, however late. *)
Theorem abort_is_permanent w es i :
  is_aborted i w = true ->
  is_aborted i (run cfg w es) = true
  /\ forall r, committed (settle cfg i r (run cfg w es))
              = committed (run cfg w es).
Proof.
  intros Hi. pose proof (run_aborted es w i Hi) as H.
  split; [done|]. intros r. by apply settle_aborted.
Qed.

Lemma storeless_step w e :
  has_store cfg = false ->
  go_subscribed w = false ->
  go_subscribed (step cfg w e) = false /\ store (step cfg w e) = store w.
Proof.
  intros Hs Hsub. destruct (step_shape w e) as (w1 & Hl & H).
  assert (go_subscribed w1 = false /\ store w1 = store w) as [Hsub1 Hst1].
  { split; [|by apply (l_store _ _ _ Hl)].
    destruct (go_subscribed w1) eqn:E; [|done].
    rewrite (l_subscribed _ _ _ Hl) in Hsub; done. }
  destruct H as [Hq|(f & v & w0 & Hq & ->)].
  - rewrite (q_subscribed _ _ _ Hq), (q_store _ _ _ Hq) by done. done.
  - destruct (commit_quiet f v w0) as (_ & -> & _ & _ & _ & -> & _); [|done].
    rewrite (q_subscribed _ _ _ Hq), (q_store _ _ _ Hq) by done. done.
Qed.

(** X8: A router created without a store never writes one: in every state it
    reaches the store is as it was, and the request channel is not
    subscribed. *)
Theorem storeless_router_never_writes root loc es :
  has_store cfg = false ->
  store (run cfg (initial cfg root loc) es) = ∅
  /\ go_subscribed (run cfg (initial cfg root loc) es) = false.
Proof.
  intros Hs.
  assert (forall w, go_subscribed w = false ->
            store (run cfg w es) = store w
            /\ go_subscribed (run cfg w es) = false) as Hrun.
  { induction es as [|e es' IH]; intros w Hsub; [done|].
    change (run cfg w (e :: es')) with (run cfg (step cfg w e) es').
    destruct (storeless_step w e Hs Hsub) as [Hsub' Hst'].
    destruct (IH _ Hsub') as [H1 H2]. by rewrite H1, H2. }
  apply (Hrun (initial cfg root loc)). exact Hs.
Qed.




Lemma silent_triggers (ts : list trigger) : forall w,
  listening w = false -> go_subscribed w = false ->
  set_store (store w) (run cfg w (map trigger_event ts)) = w
  /\ route_store (run cfg w (map trigger_event ts)) = route_store w.
Proof.
  induction ts as [|t ts IH]; intros w Hl Hs.
  { split; [by destruct w|done]. }
  cbn [map]. change (run cfg w (trigger_event t :: map trigger_event ts))
    with (run cfg (step cfg w (trigger_event t)) (map trigger_event ts)).
  assert (step cfg w (trigger_event t) = w
          \/ exists v, step cfg w (trigger_event t)
               = set_store (<["ui.route.go"%string := SRequest v]> (store w)) w)
    as [->|[v ->]].
  { destruct t; cbn [trigger_event step]; rewrite ?Hl, ?Hs; auto.
    destruct (_ && _); eauto. }
  - by apply IH.
  - destruct (IH (set_store (<["ui.route.go"%string := SRequest v]> (store w)) w)
                Hl Hs) as [H1 H2].
    split.
    + transitivity
        (set_store (store w)
           (set_store (<["ui.route.go"%string := SRequest v]> (store w)) w));
        [exact (f_equal (set_store (store w)) H1)|by destruct w].
    + rewrite H2. unfold route_store. cbn. by rewrite delete_insert_eq.
Qed.

(** X10: After [stop], clicks, popstate events and writes to [ui.route.go] no
    longer reach the router: whatever sequence of them occurs, the router
    and its host stay exactly as [stop] left them, and in the store
    nothing but the value other code writes under [ui.route.go]
    changes. *)
Theorem stop_silences_triggers w (ts : list trigger) :
  let w' := run cfg (stop w) (map trigger_event ts) in
  set_store (store (stop w)) w' = stop w
  /\ route_store w' = route_store (stop w).
Proof.
  apply silent_triggers; unfold stop; by destruct (unboot (current _)).
Qed.

Lemma shape_go w w' :
  quiet cfg w w'
  \/ (exists f v w0, quiet cfg w w0 /\ w' = commit cfg f v w0) ->
  store w' !! "ui.route.go"%string = store w !! "ui.route.go"%string.
Proof.
  intros [Hq|(f & v & w0 & Hq & ->)].
  - by apply (q_go _ _ _ Hq).
  - destruct (commit_quiet f v w0) as (_ & _ & _ & _ & -> & _ & _).
    by apply (q_go _ _ _ Hq).
Qed.

(** X11: A request written to [ui.route.go] of a working store is consumed:
    when the subscriber has run, the key holds null again, whichever
    navigation the request started. A falsy value starts nothing. *)
Theorem go_request_consumed w v :
  has_store cfg = true -> go_subscribed w = true -> store_throws w = false ->
  (go_truthy v = true ->
   store (step cfg w (EvGo v)) !! "ui.route.go"%string = Some SNull)
  /\ (go_truthy v = false ->
      step cfg w (EvGo v)
      = set_store (<["ui.route.go"%string := SRequest v]> (store w)) w).
Proof.
  intros Hs Hsub Ht. cbn [step]. rewrite Hs, Hsub, Ht. cbn [andb negb].
  unfold onGo. split; intros Hv; rewrite Hv; cbn [negb]; [|done].
  set (w1 := store_set cfg _ _ _).
  assert (store w1 !! "ui.route.go"%string = Some SNull) as Hgo.
  { unfold w1, store_set. cbn. rewrite Hs, Ht. cbn. by rewrite lookup_insert_eq. }
  rewrite <- Hgo. clearbody w1.
  destruct v as [s|o]; [apply shape_go, navigate_shape_weak|].
  destruct (go_query o) as [q|]; [|apply shape_go, navigate_shape_weak].
  destruct (negb _);
    [apply shape_go, navigateQuery_shape|apply shape_go, navigate_shape_weak].
Qed.

(** X12: [navigatePath] keeps the search string: in every state a router
    reaches, the current search string after the call is the one before
    it, whether the navigation committed at once or not. *)
Theorem navigatePath_keeps_search root loc es p r :
  let w := run cfg (initial cfg root loc) es in
  search (current (navigatePath cfg p r w).1) = search (current w).
Proof.
  intros w. pose proof (reachable_inv cfg root loc es) as Hinv. fold w in Hinv.
  unfold navigatePath.
  destruct (navigate_shape (normalizePath (stripBase (BASE_PATH cfg) p))
              (NavOpts (default true r) (search (current w)) false) w)
    as [Hq|(f & v & w0 & Hq & -> & _ & Hsearch & _)].
  - by rewrite (q_current _ _ _ Hq).
  - destruct (commit_effects cfg f v w0) as (-> & _). cbn [search].
    rewrite Hsearch. cbn [opt_search].
    apply search_string_fixed, (inv_search _ _ Hinv).
Qed.





Lemma step_boot_guarded w e :
  boot_guarded (calls w) = true -> boot_guarded (calls (step cfg w e)) = true.
Proof.
  intros Hw. destruct (step_shape w e) as (w1 & Hl & [Hq|(f & v & w0 & Hq & ->)]).
  - by apply (q_calls _ _ _ Hq), (l_calls _ _ _ Hl).
  - destruct (commit_quiet f v w0) as (_ & _ & _ & _ & _ & _ & ->).
    by apply (q_calls _ _ _ Hq), (l_calls _ _ _ Hl).
Qed.

(** X14: A view is always mounted into an empty root: in the log of every
    state a router reaches, each call of a boot function comes right
    after the call that empties the root element. *)
Theorem boot_follows_clear root loc es :
  let cs := calls (run cfg (initial cfg root loc) es) in
  boot_guarded cs = true
  /\ forall later c params sig earlier,
       cs = later ++ CallBoot c params sig :: earlier ->
       exists earlier', earlier = ClearRoot :: earlier'.
Proof.
  cbn zeta.
  assert (forall w, boot_guarded (calls w) = true ->
            boot_guarded (calls (run cfg w es)) = true) as Hrun.
  { induction es as [|e es' IH]; intros w Hw; [done|].
    cbn. by apply IH, step_boot_guarded. }
  specialize (Hrun (initial cfg root loc) eq_refl).
  split; [done|].
  generalize dependent (calls (run cfg (initial cfg root loc) es)).
  intros cs Hcs later. revert cs Hcs.
  induction later as [|x later IH]; intros cs Hcs c params sig earlier ->.
  - cbn in Hcs. destruct earlier as [|[] earlier']; try done. by eexists.
  - apply (IH (later ++ CallBoot c params sig :: earlier)) with c params sig;
      [|done].
    cbn in Hcs. destruct x; try done.
    destruct (later ++ _) as [|[] ?]; done.
Qed.

Lemma query_object_snoc entries k v :
  query_object (entries ++ [(k, v)]) = obj_set k v (query_object entries).
Proof. unfold query_object. by rewrite foldl_app. Qed.

(** X15: In the query object written to the store the last value of a
    repeated name wins, and a parameter named [__proto__] is dropped. *)
Theorem query_object_last_wins (entries : list (jsstring * jsstring)) k :
  query_object entries !! k
  = if str_eqb k (js "__proto__") then None
    else last (map snd (List.filter (fun kv => str_eqb kv.1 k) entries)).
Proof.
  induction entries as [|[k' v] entries IH] using rev_ind.
  - cbn. rewrite lookup_empty. by destruct (str_eqb _ _).
  - rewrite query_object_snoc, List.filter_app, map_app. cbn [List.filter fst].
    destruct (str_eqb k' k) eqn:E.
    + apply str_eqb_eq in E as ->. cbn [map snd]. rewrite last_snoc.
      destruct (str_eqb k (js "__proto__")) eqn:Ep.
      * apply str_eqb_eq in Ep as ->. by rewrite obj_set_proto, IH.
      * apply obj_set_lookup_eq. intros ->. by rewrite str_eqb_refl in Ep.
    + cbn [map]. rewrite app_nil_r, obj_set_lookup_ne; [exact IH|].
      intros ->. by rewrite str_eqb_refl in E.
Qed.

(** X16: How [setActiveNav] marks a link: as the current page exactly when
    its path is the current path; as active only when its path is a
    prefix of the current path; and the root link only on the root
    page. *)
Theorem nav_flags_marks pathname href :
  let linkPath := normalizePath (stripBase (BASE_PATH cfg) href) in
  let here := normalizePath pathname in
  let flags := nav_flags cfg pathname href in
  (flags.2 = true <-> linkPath = here)
  /\ (flags.2 = true -> flags.1 = true)
  /\ (flags.1 = true -> startsWith here linkPath = true)
  /\ (linkPath = js "/" -> flags.1 = true -> here = js "/").
Proof.
  cbn zeta. unfold nav_flags. cbn [fst snd].
  set (linkPath := normalizePath (stripBase (BASE_PATH cfg) href)).
  set (here := normalizePath pathname).
  destruct (str_eqb linkPath here) eqn:E; cbn [negb andb orb].
  - apply str_eqb_eq in E. repeat split; try done.
    + intros _. rewrite E. apply startsWith_spec. exists []. by rewrite app_nil_r.
    + intros H _. by rewrite <- E.
  - assert (linkPath <> here) as Hne.
    { intros H. apply str_eqb_eq in H. congruence. }
    repeat split; try done.
    + intros H. by apply andb_prop in H as [_ H].
    + intros -> H. by rewrite str_eqb_refl in H.
Qed.

(** X17: The search string [navigate] stores is empty or starts with a
    question mark, is empty only for an empty option, and is not changed
    by being passed through [navigate] again. *)
Theorem search_string_normal (s : jsstring) :
  search_ok (search_string s)
  /\ (search_string s = [] <-> s = [])
  /\ search_string (search_string s) = search_string s
  /\ strip_question (search_string s) = strip_question s.
Proof.
  split; [apply search_string_ok|]. split; [|split].
  - unfold search_string. destruct s as [|c s]; [done|].
    cbn [truthy andb]. by destruct (startsWith _ _).
  - apply search_string_fixed, search_string_ok.
  - unfold search_string. destruct s as [|c s]; [done|].
    cbn [truthy andb]. change (js "?") with [QUESTION]. cbn [startsWith].
    rewrite andb_true_r. rewrite (N.eqb_sym QUESTION c).
    destruct (c =? QUESTION) eqn:E; [done|].
    cbn [app strip_question]. by rewrite N.eqb_refl, E.
Qed.

Lemma ledger_save_get m p pos :
  (length m <= 50)%nat -> map_get p (ledger_save p pos m) = Some pos.
Proof.
  intros Hlen.
  destruct (ledger_save_cases m p pos Hlen)
    as [(_ & -> & _)|[(Hp & _ & ->)|(Hp & Hl & ->)]].
  - apply map_get_set.
  - rewrite <- (map_set_fresh m p pos Hp). apply map_get_set.
  - destruct m as [|[k v] m]; [done|]. change (drop 1 ((k, v) :: m)) with m.
    assert (p ∉ m.*1) as Hp' by (intros H; apply Hp; cbn; by right).
    rewrite <- (map_set_fresh m p pos Hp'). apply map_get_set.
Qed.

(** X18: Scroll restoration: a navigation that leaves a page records the
    page's scroll offset under its path. A commit that runs to its end
    scrolls to the offset recorded for its path when it was asked to
    restore the scroll, and to the top when it was not; a commit that
    the history call or [setActiveNav] ends with an exception does not
    scroll. *)
Theorem scroll_saved_and_restored root loc es :
  let w := run cfg (initial cfg root loc) es in
  (forall pathname o p,
      path (current w) = Some p -> truthy p = true ->
      (navigate cfg pathname o w).1 <> w ->
      map_get p (scrollPositions (navigate cfg pathname o w).1)
      = Some (scroll w))
  /\ (forall f v w0 pos,
        commit_outcome cfg f = Returned tt ->
        f_restoreScroll f = true ->
        map_get (f_appPath f) (scrollPositions w0) = Some pos ->
        scroll (commit cfg f v w0) = pos)
  /\ (forall f v w0,
        commit_outcome cfg f = Returned tt ->
        f_restoreScroll f = false -> scroll (commit cfg f v w0) = (0, 0)%Z)
  /\ (forall f v w0,
        commit_outcome cfg f <> Returned tt ->
        scroll (commit cfg f v w0) = scroll w0).
Proof.
  intros w. pose proof (reachable_inv cfg root loc es) as Hinv. fold w in Hinv.
  split_and!.
  - intros pathname o p Hp Ht Hne.
    destruct (navigate_cases cfg pathname o w) as [H|[_ ->]]; [done|].
    unfold save_scroll. rewrite Hp, Ht. cbn.
    apply ledger_save_get, (inv_ledger _ _ Hinv).
  - intros f v w0 [x y] Hout Hr Hg. unfold commit_outcome in Hout.
    unfold commit, store_setMany. rewrite Hr.
    destruct (history_throws _ _); [done|]. destruct (nav_throws cfg); [done|].
    destruct (_ && _); cbn; cbn in Hg; by rewrite Hg.
  - intros f v w0 Hout Hr. unfold commit_outcome in Hout.
    unfold commit, store_setMany. rewrite Hr.
    destruct (history_throws _ _); [done|]. destruct (nav_throws cfg); [done|].
    by destruct (_ && _).
  - intros f v w0 Hout. unfold commit_outcome in Hout.
    unfold commit, store_setMany.
    destruct (history_throws _ _); [by destruct (_ && _)|].
    destruct (nav_throws cfg); [by destruct (_ && _)|]. done.
Qed.

Lemma patched_search_ok s patch : search_ok (patched_search s patch).
Proof.
  unfold patched_search, search_ok.
  destruct (truthy _); [right|left]; done.
Qed.

(** X20: What [navigateQuery] stores as the search string is read back, the
    way the next [navigateQuery] reads it, as exactly the patched list of
    parameters: nothing is lost or altered between two calls. *)
Theorem navigateQuery_search_reparsed w patch replace :
  utf16_patch patch = true ->
  let merged :=
    apply_patch patch (usp_new (strip_question (search (current w)))) in
  let w' := (navigateQuery cfg patch replace w).1 in
  usp_new (strip_question (patched_search (search (current w)) patch)) = merged
  /\ (current w' = current w
      \/ usp_new (strip_question (search (current w'))) = merged).
Proof.
  intros Hp merged w'.
  pose proof (patched_search_reparsed (search (current w)) patch Hp) as Hre.
  split; [exact Hre|].
  unfold w', navigateQuery.
  match goal with
  | |- context [navigate cfg ?p ?o w] =>
      destruct (navigate_shape p o w)
        as [Hq|(f & v & w0 & Hq & -> & _ & Hsearch & _)]
  end.
  - left. by apply (q_current _ _ _ Hq).
  - right. destruct (commit_effects cfg f v w0) as (-> & _). cbn [search].
    rewrite Hsearch. cbn [opt_search].
    rewrite search_string_fixed by apply patched_search_ok. exact Hre.
Qed.






(** X24: The supersession guard comes after the boot only: a navigation that
    was superseded while it waited for the old view to unmount still
    empties the root element and boots its view, handing it a signal
    that is already aborted; it then waits for that boot. *)
Theorem superseded_unmount_still_mounts f r w c :
  f_stage f = AwaitUnboot ->
  rs_component (f_resolved f) = Some c -> comp_boot c = Some BootAsync ->
  is_aborted (f_signal f) w = true ->
  calls (resume cfg f r w).1
  = CallBoot c (rs_params (f_resolved f)) (f_signal f) :: ClearRoot :: calls w
  /\ (resume cfg f r w).2 = Suspended
  /\ exists g, pending (resume cfg f r w).1 = pending w ++ [g]
       /\ f_signal g = f_signal f /\ f_stage g = AwaitBoot.
Proof.
  intros Hst Hc Hb _. unfold resume, boot_step. rewrite Hst, Hc, Hb. cbn.
  repeat split. eexists. repeat split.
Qed.



End EngineProperties.

Lemma abort_is_permanent_witness :
  let w := run sample_cfg sample_world
             [EvNavigate (js "/users/1") default_opts;
              EvNavigate (js "/users/2") default_opts] in
  let es := [EvSettle 1 (Fulfilled None); EvClick (js "/") (js "")] in
  is_aborted 0 w = true
  /\ is_aborted 0 (run sample_cfg w es) = true.
Proof.
  split; [reflexivity|].
  apply (abort_is_permanent sample_cfg
           (run sample_cfg sample_world
              [EvNavigate (js "/users/1") default_opts;
               EvNavigate (js "/users/2") default_opts])
           [EvSettle 1 (Fulfilled None); EvClick (js "/") (js "")] 0).
  reflexivity.
Defined.

Lemma storeless_router_never_writes_witness :
  has_store storeless_cfg = false
  /\ store (run storeless_cfg (initial storeless_cfg true (js "/", js ""))
              [EvStart; EvSettle 0 (Fulfilled None);
               EvGo (GoString (js "/users"))]) = ∅.
Proof.
  split; [reflexivity|].
  apply (storeless_router_never_writes storeless_cfg true (js "/", js "")
           [EvStart; EvSettle 0 (Fulfilled None); EvGo (GoString (js "/users"))]).
  reflexivity.
Defined.

Lemma go_request_consumed_witness :
  go_truthy (GoString (js "/users")) = true
  /\ store (step sample_cfg sample_world (EvGo (GoString (js "/users"))))
       !! "ui.route.go"%string = Some SNull.
Proof.
  split; [reflexivity|].
  apply (go_request_consumed sample_cfg sample_world (GoString (js "/users")));
    reflexivity.
Defined.

Lemma urlencoded_round_trip_witness :
  let l := [(js "q", js "a b&c"); (js "tag", [0xE9; 0xD83D; 0xDE00])] in
  utf16_pairs l = true
  /\ usp_toString l = js "q=a+b%26c&tag=%C3%A9%F0%9F%98%80"
  /\ usp_new (QUESTION :: usp_toString l) = l.
Proof.
  split; [vm_compute; reflexivity|]. split; [vm_compute; reflexivity|].
  destruct (urlencoded_round_trip
           [(js "q", js "a b&c"); (js "tag", [0xE9; 0xD83D; 0xDE00])] eq_refl)
    as (_ & H & _).
  etransitivity; [exact H|]. vm_compute. reflexivity.
Defined.

Lemma navigateQuery_search_reparsed_witness :
  let w := run sample_cfg sample_world
             [EvNavigate (js "/a") (NavOpts false (js "?q=x") false)] in
  let patch := [(js "tab", PString (js "my posts")); (js "q", PNull)] in
  search (current w) = js "?q=x"
  /\ usp_new (strip_question (patched_search (search (current w)) patch))
     = [(js "tab", js "my posts")].
Proof.
  split; [vm_compute; reflexivity|].
  destruct (navigateQuery_search_reparsed sample_cfg
           (run sample_cfg sample_world
              [EvNavigate (js "/a") (NavOpts false (js "?q=x") false)])
           [(js "tab", PString (js "my posts")); (js "q", PNull)] None eq_refl)
    as [H _].
  etransitivity; [exact H|]. vm_compute. reflexivity.
Defined.


Lemma superseded_unmount_still_mounts_witness :
  let w0 := run sample_cfg sample_world
              [EvNavigate (js "/a") default_opts;
               EvNavigate (js "/users/1") default_opts;
               EvSettle 1 (Fulfilled (Some (Handle 1 false)));
               EvNavigate (js "/users/2") default_opts;
               EvNavigate (js "/users/3") default_opts;
               EvSettle 3 (Fulfilled None);
               EvSettle 3 (Fulfilled (Some (Handle 3 false)))] in
  let f := Frame 2 AwaitUnboot (js "/users/2") []
             (Resolved (Some (js "/users/:id")) (js "user")
                (Some (Component 2 (Some BootAsync)))
                (<[js "id" := js "2"]> ∅)) false false in
  path (current w0) = Some (js "/users/3")
  /\ pending w0 = [f]
  /\ is_aborted 2 w0 = true
  /\ step sample_cfg w0 (EvSettle 2 (Fulfilled None))
     = (resume sample_cfg f (Fulfilled None) (set_pending [] w0)).1
  /\ calls (resume sample_cfg f (Fulfilled None) (set_pending [] w0)).1
     = CallBoot (Component 2 (Some BootAsync)) (<[js "id" := js "2"]> ∅) 2
         :: ClearRoot :: calls (set_pending [] w0).
Proof.
  cbv zeta.
  split; [vm_compute; reflexivity|]. split; [vm_compute; reflexivity|].
  split; [vm_compute; reflexivity|]. split; [vm_compute; reflexivity|].
  match goal with
  | |- calls (resume _ ?f ?r ?w).1 = _ =>
      pose proof (superseded_unmount_still_mounts sample_cfg f r w
                    (Component 2 (Some BootAsync)) eq_refl eq_refl eq_refl) as H
  end.
  specialize (H ltac:(vm_compute; reflexivity)).
  destruct H as (Hcalls & _). exact Hcalls.
Defined.

(** A history call that throws: under [<base href="/">] the URL of the
    route ["/a"] is ["//a"], which names another host. [navigate] has
    set the navigation state and the store by then, and ends with the
    SecurityError: the document element keeps [data-transitioning="on"]
    and gets no [data-view], and the root is not focused. *)
Example history_error_half_commits :
  let w0 := initial root_based_cfg true (js "/", js "") in
  let w := run root_based_cfg w0 [EvNavigate (js "/a") default_opts] in
  (navigate root_based_cfg (js "/a") default_opts w0).2
  = Completed (Threw SecurityError)
  /\ getCurrent w = (Some (js "plain"), Some (js "/a"), js "")
  /\ history w = [(false, js "//a")]
  /\ store w !! "ui.route.path"%string = Some (SString (js "/a"))
  /\ store w !! "ui.route.transitioning"%string = Some (SBool false)
  /\ html_attrs w !! "data-view"%string = None
  /\ html_attrs w !! "data-transitioning"%string = Some (js "on")
  /\ calls w = [ClearRoot]
  /\ location w = (js "/", js "").
Proof. vm_compute. repeat split; reflexivity. Qed.

